(** * Argus: a single-header argument parser for C (includes/argus.h)

    Shallow embedding of the parsing engine [parse_args], of the built-in
    value parsers and of the schemas of the example programs, followed by the
    properties of the engine.

    Conventions of the embedding.
    - A C string is a [string]; a [char*] into a token is the suffix it
      points to.  [argv] is the list of its tokens and [argc] its length.
    - The schema, which the header receives as the three macro lists
      REQUIRED_ARGS, OPTIONAL_ARGS and BOOLEAN_ARGS, is a record of three
      descriptor lists; the sentinel NONE for an absent short or long option
      is [None].
    - [args_t] is a finite map from field names to values.  The state of a
      run also carries [errno] (the number parsers test it without resetting
      it) and the log of the fields written so far.
    - Data model LP64: [int] has 32 bits, [long] and [long long] 64.
    - The integer conversions of the C library are modelled after ISO C;
      the floating-point parsers (FLOAT_PARSER) and [print_help] are not
      part of the model.
    - Every [fprintf(stderr, ...); return 1;] of the engine is one
      constructor of [parse_error]; the integer the C function returns is
      [retcode]. *)

From stdpp Require Import gmap strings list pretty.
From Stdlib Require Import ZArith Ascii String.

Local Open Scope string_scope.
Local Open Scope Z_scope.

(** ** C strings and pointers into a token *)

(** [text[0]]: the first character, the terminator for the empty string. *)
Definition first_char (s : string) : ascii :=
  match s with
  | EmptyString => Ascii.zero
  | String c _ => c
  end.

(** [text + n] as long as it stays inside the token. *)
Fixpoint skip (n : nat) (s : string) : string :=
  match n, s with
  | O, _ => s
  | S n', String _ s' => skip n' s'
  | S _, EmptyString => EmptyString
  end.

(** A [char*] the engine tests: NULL, a position inside a token (the
    terminator included), or a position beyond the terminator, which the
    engine must not read. *)
Inductive cptr : Type :=
  | PNull
  | PAt (s : string)
  | PBeyond.

Definition ptr_add (text : string) (n : nat) : cptr :=
  if (n <=? String.length text)%nat then PAt (skip n text) else PBeyond.

(** ** Values and the container args_t *)

Inductive ctype : Type :=
  | TString | TChar | TInt | TUInt | TLong | TULong | TLongLong | TULongLong | TSize.

Inductive value : Type :=
  | VNull                (* (char* )0 *)
  | VStr (s : string)    (* a char* to the text s *)
  | VChar (c : ascii)
  | VInt (n : Z)
  | VBool (b : bool).

(** [(type)0], the initial value of a required field. *)
Definition zero_of (t : ctype) : value :=
  match t with
  | TString => VNull
  | TChar => VChar Ascii.zero
  | _ => VInt 0
  end.

Record state : Type := mkState {
  fields : gmap string value;   (* the args_t the caller passed by pointer *)
  writes : list string;         (* fields stored to, oldest first *)
  errno : Z
}.

Definition store (name : string) (v : value) (st : state) : state :=
  {| fields := <[name := v]> (fields st);
     writes := (writes st ++ [name])%list;
     errno := errno st |}.

Definition set_errno (e : Z) (st : state) : state :=
  {| fields := fields st; writes := writes st; errno := e |}.

(** ** The C library: strtol, strtoul, strtoll, strtoull in base 10 *)

Definition ERANGE : Z := 34.
Definition EINVAL : Z := 22.

Definition LONG_MAX : Z := 2 ^ 63 - 1.
Definition LONG_MIN : Z := - 2 ^ 63.
Definition ULONG_MAX : Z := 2 ^ 64 - 1.

(** What the library stores in [errno] when the text holds no digits.  ISO C
    only asks for the result 0 with the end pointer at the start of the text;
    glibc leaves [errno] as it is ([None]), POSIX allows EINVAL and musl and
    the BSD libraries store it ([Some EINVAL]). *)
Record libc : Type := { errno_on_no_conversion : option Z }.

Definition glibc : libc := {| errno_on_no_conversion := None |}.
Definition musl : libc := {| errno_on_no_conversion := Some EINVAL |}.

Definition isspace (c : ascii) : bool :=
  let n := Z.of_nat (nat_of_ascii c) in
  (n =? 32) || ((9 <=? n) && (n <=? 13)).

Definition isdigit (c : ascii) : bool :=
  let n := Z.of_nat (nat_of_ascii c) in
  (48 <=? n) && (n <=? 57).

Definition digit_val (c : ascii) : Z := Z.of_nat (nat_of_ascii c) - 48.

(** Number of leading white-space characters. *)
Fixpoint count_space (s : string) : nat :=
  match s with
  | String c s' => if isspace c then S (count_space s') else O
  | EmptyString => O
  end.

(** The longest run of decimal digits at the start of [s]: its value, on
    top of [acc], and its length. *)
Fixpoint scan_digits (s : string) (acc : Z) : Z * nat :=
  match s with
  | String c s' =>
      if isdigit c
      then let '(v, n) := scan_digits s' (10 * acc + digit_val c) in (v, S n)
      else (acc, O)
  | EmptyString => (acc, O)
  end.

(** The subject sequence of the strto* family: white space, an optional
    sign, digits.  [None] when there is no digit; otherwise the sign, the
    magnitude and the offset of the first character after the digits. *)
Definition subject (text : string) : option (bool * Z * nat) :=
  let ws := count_space text in
  let s := skip ws text in
  let '(neg, sg) :=
    if Ascii.eqb (first_char s) "-" then (true, 1%nat)
    else if Ascii.eqb (first_char s) "+" then (false, 1%nat)
    else (false, O) in
  let '(mag, n) := scan_digits (skip sg s) 0 in
  match n with
  | O => None
  | _ => Some (neg, mag, (ws + sg + n)%nat)
  end.

Section Libc.
Variable lc : libc.

Definition no_conversion (e : Z) : Z * nat * Z :=
  (0, O, default e (errno_on_no_conversion lc)).

(** [strtol(text, endptr, 10)] and [strtoll]: the result, the offset of
    [*endptr] in [text], and [errno] afterwards. *)
Definition strtol (text : string) (e : Z) : Z * nat * Z :=
  match subject text with
  | None => no_conversion e
  | Some (neg, mag, off) =>
      let v := if neg then - mag else mag in
      if LONG_MAX <? v then (LONG_MAX, off, ERANGE)
      else if v <? LONG_MIN then (LONG_MIN, off, ERANGE)
      else (v, off, e)
  end.

Definition strtoll := strtol.

(** [strtoul(text, endptr, 10)] and [strtoull]: a minus sign negates the
    magnitude in the unsigned type. *)
Definition strtoul (text : string) (e : Z) : Z * nat * Z :=
  match subject text with
  | None => no_conversion e
  | Some (neg, mag, off) =>
      if ULONG_MAX <? mag then (ULONG_MAX, off, ERANGE)
      else ((if neg then - mag else mag) mod 2 ^ 64, off, e)
  end.

Definition strtoull := strtoul.
End Libc.

(** ** Value parsers

    A parser of the header has the C type
    [int parser(const char* text, type* out, char** advance)].  Its result
    here: the integer returned, the value stored in [*out], the pointer
    stored in [*advance] when [advance] is not NULL, and [errno] afterwards.
    Every parser of the header and of the examples stores to [*out] before
    it tests anything, and stores to [*advance] either NULL or a position
    [text + n]. *)

Inductive advance : Type :=
  | AdvNull             (* *advance = NULL *)
  | AdvOff (n : nat).   (* *advance = text + n *)

Record parsed : Type := mkParsed {
  p_ret : Z;
  p_out : value;
  p_adv : advance;
  p_errno : Z
}.

Definition parser : Type := string -> Z -> parsed.

Definition parse_str : parser := fun text e =>
  {| p_ret := 0; p_out := VStr text; p_adv := AdvNull; p_errno := e |}.

Definition parse_char : parser := fun text e =>
  {| p_ret := 0; p_out := VChar (first_char text); p_adv := AdvOff 1; p_errno := e |}.

(** The conversions [(type)] of NUMBER_PARSER: to [int], to [unsigned int],
    and to the 64-bit type that the conversion function returns. *)
Definition to_int (v : Z) : Z := (v + 2 ^ 31) mod 2 ^ 32 - 2 ^ 31.
Definition to_uint (v : Z) : Z := v mod 2 ^ 32.
Definition to_64 (v : Z) : Z := v.

Definition NUMBER_PARSER (cast : Z -> Z) (func : string -> Z -> Z * nat * Z) : parser :=
  fun text e =>
    let '(v, off, e') := func text e in
    {| p_ret := if e' =? 0 then 0 else 1;
       p_out := VInt (cast v);
       p_adv := AdvOff off;
       p_errno := e' |}.

Section Parsers.
Variable lc : libc.

Definition parse_ull : parser := NUMBER_PARSER to_64 (strtoull lc).
Definition parse_ul : parser := NUMBER_PARSER to_64 (strtoul lc).
Definition parse_ll : parser := NUMBER_PARSER to_64 (strtoll lc).
Definition parse_l : parser := NUMBER_PARSER to_64 (strtol lc).
Definition parse_uint : parser := NUMBER_PARSER to_uint (strtoul lc).
Definition parse_int : parser := NUMBER_PARSER to_int (strtol lc).
End Parsers.

(** ** The schema *)

Record required_arg : Type := REQUIRED_ARG {
  r_type : ctype;
  r_name : string;
  r_label : string;
  r_description : string;
  r_parser : parser
}.

Record optional_arg : Type := OPTIONAL_ARG {
  o_type : ctype;
  o_name : string;
  o_shortopt : option ascii;
  o_longopt : option string;
  o_arg_label : string;
  o_default : value;
  o_description : string;
  o_formatter : string;
  o_parser : parser
}.

Record boolean_arg : Type := BOOLEAN_ARG {
  b_name : string;
  b_shortopt : option ascii;
  b_longopt : option string;
  b_description : string
}.

Record schema : Type := mkSchema {
  REQUIRED_ARGS : list required_arg;
  OPTIONAL_ARGS : list optional_arg;
  BOOLEAN_ARGS : list boolean_arg
}.

Definition REQUIRED_ARG_COUNT (sch : schema) : nat := List.length (REQUIRED_ARGS sch).
Definition OPTIONAL_ARG_COUNT (sch : schema) : nat := List.length (OPTIONAL_ARGS sch).
Definition BOOLEAN_ARG_COUNT (sch : schema) : nat := List.length (BOOLEAN_ARGS sch).

Definition REQUIRED_STRING_ARG name label description :=
  REQUIRED_ARG TString name label description parse_str.
Definition REQUIRED_CHAR_ARG name label description :=
  REQUIRED_ARG TChar name label description parse_char.
Definition REQUIRED_INT_ARG lc name label description :=
  REQUIRED_ARG TInt name label description (parse_int lc).
Definition REQUIRED_UINT_ARG lc name label description :=
  REQUIRED_ARG TUInt name label description (parse_uint lc).
Definition REQUIRED_LONG_ARG lc name label description :=
  REQUIRED_ARG TLong name label description (parse_l lc).
Definition REQUIRED_ULONG_ARG lc name label description :=
  REQUIRED_ARG TULong name label description (parse_ul lc).
Definition REQUIRED_LONG_LONG_ARG lc name label description :=
  REQUIRED_ARG TLongLong name label description (parse_ll lc).
Definition REQUIRED_ULONG_LONG_ARG lc name label description :=
  REQUIRED_ARG TULongLong name label description (parse_ull lc).
Definition REQUIRED_SIZE_ARG lc name label description :=
  REQUIRED_ARG TSize name label description (parse_ull lc).

Definition OPTIONAL_STRING_ARG name shortopt longopt arg_label dflt description :=
  OPTIONAL_ARG TString name shortopt longopt arg_label (VStr dflt) description "%s" parse_str.
Definition OPTIONAL_CHAR_ARG name shortopt longopt arg_label dflt description :=
  OPTIONAL_ARG TChar name shortopt longopt arg_label (VChar dflt) description "%c" parse_char.
Definition OPTIONAL_INT_ARG lc name shortopt longopt arg_label dflt description :=
  OPTIONAL_ARG TInt name shortopt longopt arg_label (VInt dflt) description "%d" (parse_int lc).
Definition OPTIONAL_UINT_ARG lc name shortopt longopt arg_label dflt description :=
  OPTIONAL_ARG TUInt name shortopt longopt arg_label (VInt dflt) description "%u" (parse_uint lc).
Definition OPTIONAL_LONG_ARG lc name shortopt longopt arg_label dflt description :=
  OPTIONAL_ARG TLong name shortopt longopt arg_label (VInt dflt) description "%ld" (parse_l lc).
Definition OPTIONAL_ULONG_ARG lc name shortopt longopt arg_label dflt description :=
  OPTIONAL_ARG TULong name shortopt longopt arg_label (VInt dflt) description "%lu" (parse_ul lc).
Definition OPTIONAL_LONG_LONG_ARG lc name shortopt longopt arg_label dflt description :=
  OPTIONAL_ARG TLongLong name shortopt longopt arg_label (VInt dflt) description "%lld" (parse_ll lc).
Definition OPTIONAL_ULONG_LONG_ARG lc name shortopt longopt arg_label dflt description :=
  OPTIONAL_ARG TULongLong name shortopt longopt arg_label (VInt dflt) description "%llu" (parse_ull lc).
Definition OPTIONAL_SIZE_ARG lc name shortopt longopt arg_label dflt description :=
  OPTIONAL_ARG TSize name shortopt longopt arg_label (VInt dflt) description "%zu" (parse_ull lc).

(** [make_default_args]: required fields get [(type)0], optional fields
    their default, boolean fields 0; later designators of the initializer
    override earlier ones of the same field. *)
Definition make_default_args (sch : schema) : gmap string value :=
  let m1 := foldl (fun m r => <[r_name r := zero_of (r_type r)]> m) ∅ (REQUIRED_ARGS sch) in
  let m2 := foldl (fun m o => <[o_name o := o_default o]> m) m1 (OPTIONAL_ARGS sch) in
  foldl (fun m b => <[b_name b := VBool false]> m) m2 (BOOLEAN_ARGS sch).

(** The field names of [args_t], in declaration order. *)
Definition field_names (sch : schema) : list string :=
  (map r_name (REQUIRED_ARGS sch) ++ map o_name (OPTIONAL_ARGS sch)
     ++ map b_name (BOOLEAN_ARGS sch))%list.

(** ** The parsing engine [parse_args] *)

(** One constructor per diagnostic of the engine.  A parser that returns
    non-zero has printed its own message; the engine then returns 1 without
    printing ([InvalidValue]). *)
Inductive parse_error : Type :=
  | InternalError                                   (* "Internal error: null args or argv." *)
  | MissingRequiredArgument                         (* "Not all required arguments included." *)
  | InvalidValue (name text : string)               (* the parser of field name rejected text *)
  | OptionRequiresValue (opt : string)              (* "Error: option '%s' requires a value." *)
  | TrailingUnparsedInput (opt text : string)       (* "Error: couldn't parse argument '%s' for option '%s'." *)
  | UnknownFlag (flags : string)                    (* "Error: Invalid flag '-%s'" *)
  | UnexpectedPositionalArgument (token : string).  (* "Error: Invalid argument '%s'" *)

Inductive outcome : Type :=
  | Ok (st : state)                        (* return 0 *)
  | Fail (e : parse_error) (st : state)    (* return 1, the container as the caller finds it *)
  | Undefined                              (* a read outside a token *)
  | OutOfFuel.                             (* the cluster loop did not finish within its fuel *)

Definition retcode (o : outcome) : option Z :=
  match o with
  | Ok _ => Some 0
  | Fail _ _ => Some 1
  | _ => None
  end.

(** [parser(text, &args->name, &p)]: the field and [errno] are updated, the
    integer returned and the pointer now in [p] are handed back. *)
Definition resolve (text : string) (a : advance) : cptr :=
  match a with
  | AdvNull => PNull
  | AdvOff n => ptr_add text n
  end.

Definition call (p : parser) (name text : string) (st : state) : Z * cptr * state :=
  let r := p text (errno st) in
  (p_ret r, resolve text (p_adv r), set_errno (p_errno r) (store name (p_out r) st)).

(** *** Required arguments (lines 250-259)

    [parser(argv[i++], &args->name, NULL)] for each descriptor in turn. *)
Fixpoint required_loop (rs : list required_arg) (argv : list string) (i : nat)
    (st : state) : outcome :=
  match rs with
  | [] => Ok st
  | r :: rs' =>
      match argv !! i with
      | None => Undefined   (* i >= argc: excluded by the count test of parse_args *)
      | Some text =>
          let '(error, _, st') := call (r_parser r) (r_name r) text st in
          if error =? 0 then required_loop rs' argv (S i) st'
          else Fail (InvalidValue (r_name r) text) st'
      end
  end.

(** *** Long options (lines 263-300)

    How one iteration of the [for] loop ends: it returns from
    [parse_args], or it continues, with or without having consumed the next
    token by [++i].  A statement that lets control fall through to the next
    one yields [None]. *)
Inductive step : Type :=
  | SReturn (o : outcome)
  | SContinue (st : state)
  | SContinueAfterValue (st : state).

(** ["--" #longopt] *)
Definition dashdash (longopt : string) : string := "--" ++ longopt.

(** [next] is [argv[i + 1]] when [i + 1 < argc]. *)
Definition GENERATE_LONG_OPT (o : optional_arg) (longopt : string) (tok : string)
    (next : option string) (st : state) : option step :=
  if String.eqb tok (dashdash longopt) then
    match next with
    | None => Some (SReturn (Fail (OptionRequiresValue (dashdash longopt)) st))
    | Some text =>
        let '(error, next_char, st') := call (o_parser o) (o_name o) text st in
        if negb (error =? 0) then Some (SReturn (Fail (InvalidValue (o_name o) text) st'))
        else
          match next_char with
          | PNull => Some (SContinueAfterValue st')
          | PAt EmptyString => Some (SContinueAfterValue st')
          | PAt _ => Some (SReturn (Fail (TrailingUnparsedInput (dashdash longopt) text) st'))
          | PBeyond => Some (SReturn Undefined)
          end
    end
  else None.

Definition GENERATE_LONG_BOOL (b : boolean_arg) (longopt : string) (tok : string)
    (st : state) : option step :=
  if String.eqb tok (dashdash longopt) then Some (SContinue (store (b_name b) (VBool true) st))
  else None.

(** The expansion of OPTIONAL_ARGS, then of BOOLEAN_ARGS, at lines 294-300;
    NOT_NONE drops the descriptors whose long option is NONE. *)
Fixpoint long_optionals (os : list optional_arg) (tok : string) (next : option string)
    (st : state) : option step :=
  match os with
  | [] => None
  | o :: os' =>
      match
        match o_longopt o with
        | Some longopt => GENERATE_LONG_OPT o longopt tok next st
        | None => None
        end
      with
      | Some s => Some s
      | None => long_optionals os' tok next st
      end
  end.

Fixpoint long_booleans (bs : list boolean_arg) (tok : string) (st : state) : option step :=
  match bs with
  | [] => None
  | b :: bs' =>
      match
        match b_longopt b with
        | Some longopt => GENERATE_LONG_BOOL b longopt tok st
        | None => None
        end
      with
      | Some s => Some s
      | None => long_booleans bs' tok st
      end
  end.

(** *** Short flags (lines 306-352)

    What one statement inside the [while] loop does: it returns from
    [parse_args], it continues the [while] loop with a new [curr_flag], or
    control falls through with [curr_flag], which then points to a
    character that is not the terminator. *)
Inductive flow : Type :=
  | FReturn (o : outcome)
  | FContinue (curr_flag : cptr) (st : state)
  | FFall (curr_flag : string) (st : state).

(** ["-" #shortopt] *)
Definition dash (shortopt : ascii) : string := String "-" (String shortopt EmptyString).

Definition GENERATE_SHORT_OPT (o : optional_arg) (shortopt : ascii) (curr_flag : string)
    (st : state) : flow :=
  match curr_flag with
  | String c text =>
      if Ascii.eqb c shortopt then
        match text with
        | EmptyString =>
            FReturn (Fail (OptionRequiresValue (dash shortopt)) st)
        | _ =>
            let '(error, curr_flag', st') := call (o_parser o) (o_name o) text st in
            if negb (error =? 0) then FReturn (Fail (InvalidValue (o_name o) text) st')
            else
              match curr_flag' with
              | PNull => FContinue PNull st'
              | PAt EmptyString => FContinue (PAt EmptyString) st'
              | PAt s => FFall s st'
              | PBeyond => FReturn Undefined
              end
        end
      else FFall curr_flag st
  | EmptyString => FFall curr_flag st
  end.

Definition GENERATE_SHORT_BOOL (b : boolean_arg) (shortopt : ascii) (curr_flag : string)
    (st : state) : flow :=
  match curr_flag with
  | String c rest =>
      if Ascii.eqb c shortopt
      then FContinue (PAt rest) (store (b_name b) (VBool true) st)
      else FFall curr_flag st
  | EmptyString => FFall curr_flag st
  end.

(** The expansion of OPTIONAL_ARGS, then of BOOLEAN_ARGS, at lines 337-343. *)
Fixpoint short_optionals (os : list optional_arg) (curr_flag : string) (st : state) : flow :=
  match os with
  | [] => FFall curr_flag st
  | o :: os' =>
      match
        match o_shortopt o with
        | Some shortopt => GENERATE_SHORT_OPT o shortopt curr_flag st
        | None => FFall curr_flag st
        end
      with
      | FFall curr_flag' st' => short_optionals os' curr_flag' st'
      | f => f
      end
  end.

Fixpoint short_booleans (bs : list boolean_arg) (curr_flag : string) (st : state) : flow :=
  match bs with
  | [] => FFall curr_flag st
  | b :: bs' =>
      match
        match b_shortopt b with
        | Some shortopt => GENERATE_SHORT_BOOL b shortopt curr_flag st
        | None => FFall curr_flag st
        end
      with
      | FFall curr_flag' st' => short_booleans bs' curr_flag' st'
      | f => f
      end
  end.

(** One iteration of the [while] loop: it ends in a return or in
    [continue]. *)
Inductive iteration : Type :=
  | Stop (o : outcome)
  | Again (curr_flag : cptr) (st : state).

Definition while_body (sch : schema) (curr_flag : string) (st : state) : iteration :=
  match short_optionals (OPTIONAL_ARGS sch) curr_flag st with
  | FReturn o => Stop o
  | FContinue p st' => Again p st'
  | FFall curr_flag' st' =>
      match short_booleans (BOOLEAN_ARGS sch) curr_flag' st' with
      | FReturn o => Stop o
      | FContinue p st'' => Again p st''
      | FFall curr_flag'' st'' => Stop (Fail (UnknownFlag curr_flag'') st'')
      end
  end.

(** [while (curr_flag != NULL && *curr_flag != '\0') { ... }] *)
Fixpoint while_loop (sch : schema) (fuel : nat) (curr_flag : cptr) (st : state) : outcome :=
  match curr_flag with
  | PNull => Ok st
  | PBeyond => Undefined
  | PAt EmptyString => Ok st
  | PAt cf =>
      match fuel with
      | O => OutOfFuel
      | S fuel' =>
          match while_body sch cf st with
          | Stop o => o
          | Again p st' => while_loop sch fuel' p st'
          end
      end
  end.

(** The flags of a token, [curr_flag = argv[i] + 1]: every iteration
    shortens what [curr_flag] points to, so its length is fuel enough. *)
Definition scan_cluster (sch : schema) (curr_flag : string) (st : state) : outcome :=
  while_loop sch (String.length curr_flag) (PAt curr_flag) st.

(** *** The body of the [for] loop and the loop (lines 262-356) *)

Definition for_body (sch : schema) (tok : string) (next : option string) (st : state) : step :=
  match long_optionals (OPTIONAL_ARGS sch) tok next st with
  | Some s => s
  | None =>
      match long_booleans (BOOLEAN_ARGS sch) tok st with
      | Some s => s
      | None =>
          match tok with
          | String "-" curr_flag =>
              match scan_cluster sch curr_flag st with
              | Ok st' => SContinue st'
              | o => SReturn o
              end
          | _ => SReturn (Fail (UnexpectedPositionalArgument tok) st)
          end
      end
  end.

(** [toks] is [argv[i .. argc - 1]]. *)
Fixpoint for_loop (sch : schema) (toks : list string) (st : state) : outcome :=
  match toks with
  | [] => Ok st
  | tok :: rest =>
      match for_body sch tok (head rest) st with
      | SReturn o => o
      | SContinue st' => for_loop sch rest st'
      | SContinueAfterValue st' =>
          match rest with
          | _ :: rest' => for_loop sch rest' st'
          | [] => Ok st'
          end
      end
  end.

Definition parse_args (sch : schema) (argv : list string) (st : state) : outcome :=
  let argc := List.length argv in
  if (argc =? 0)%nat then Fail InternalError st
  else if (argc <? 1 + REQUIRED_ARG_COUNT sch)%nat then Fail MissingRequiredArgument st
  else
    match required_loop (REQUIRED_ARGS sch) argv 1 st with
    | Ok st' => for_loop sch (drop (1 + REQUIRED_ARG_COUNT sch) argv) st'
    | o => o
    end.

(** A program whose [main] starts with [make_default_args] and
    [parse_args], as the examples do: [errno] is still 0 as at program
    startup. *)
Definition fresh (sch : schema) : state :=
  {| fields := make_default_args sch; writes := []; errno := 0 |}.

Definition parse (sch : schema) (argv : list string) : outcome :=
  parse_args sch argv (fresh sch).

(** ** The schemas of the example programs *)

Module Examples.

(** examples/01_file_processor.c *)
Definition threads (lc : libc) : optional_arg :=
  OPTIONAL_UINT_ARG lc "threads" (Some "t"%char) (Some "threads") "threads" 1
    "Number of threads to use".

Definition file_processor (lc : libc) : schema :=
  {| REQUIRED_ARGS :=
       [ REQUIRED_STRING_ARG "input_file" "input" "Input file path";
         REQUIRED_STRING_ARG "output_file" "output" "Output file path" ];
     OPTIONAL_ARGS := [ threads lc ];
     BOOLEAN_ARGS :=
       [ BOOLEAN_ARG "help" (Some "h"%char) (Some "help") "Show help" ] |}.

(** examples/02_requireds_only.c *)
Definition requireds_only : schema :=
  {| REQUIRED_ARGS :=
       [ REQUIRED_STRING_ARG "source" "source" "Source file";
         REQUIRED_STRING_ARG "destination" "dest" "Destination file" ];
     OPTIONAL_ARGS := [];
     BOOLEAN_ARGS := [] |}.

(** examples/03_options_only.c *)
Definition options_only : schema :=
  {| REQUIRED_ARGS := [];
     OPTIONAL_ARGS :=
       [ OPTIONAL_STRING_ARG "config_file" (Some "c"%char) (Some "config") "config"
           "config.ini" "Configuration file path" ];
     BOOLEAN_ARGS :=
       [ BOOLEAN_ARG "verbose" (Some "v"%char) (Some "verbose") "Verbose output";
         BOOLEAN_ARG "no_cache" None (Some "disable-cache") "Disable the use of cache";
         BOOLEAN_ARG "help" (Some "h"%char) (Some "help") "Show help" ] |}.

(** examples/04_file_printer.c, with its own parser for [head] and [tail];
    [threads] and [tail] share the short option [t]. *)
Definition parse_positive_int (lc : libc) : parser := fun text e =>
  let '(v, off, e') := strtol lc text e in
  let out := to_int v in
  {| p_ret := if negb (e' =? 0) then 1 else if out <? 0 then 1 else 0;
     p_out := VInt out;
     p_adv := AdvOff off;
     p_errno := e' |}.

Definition file_printer (lc : libc) : schema :=
  {| REQUIRED_ARGS :=
       [ REQUIRED_STRING_ARG "input_file" "input" "Input file path";
         REQUIRED_STRING_ARG "output_file" "output" "Output file path" ];
     OPTIONAL_ARGS :=
       [ OPTIONAL_STRING_ARG "pattern" (Some "c"%char) (Some "contains") "pattern"
           EmptyString "Print only lines containing the pattern";
         OPTIONAL_UINT_ARG lc "threads" (Some "t"%char) (Some "threads") "threads" 1
           "Number of threads to use";
         OPTIONAL_ARG TInt "head" (Some "h"%char) (Some "head") "lines" (VInt (-1))
           "Number of lines to print from start" "%d" (parse_positive_int lc);
         OPTIONAL_ARG TInt "tail" (Some "t"%char) (Some "tail") "lines" (VInt (-1))
           "Number of lines to print from end" "%d" (parse_positive_int lc) ];
     BOOLEAN_ARGS :=
       [ BOOLEAN_ARG "sort" (Some "s"%char) (Some "sort") "Sort lines";
         BOOLEAN_ARG "reverse" (Some "r"%char) (Some "reverse") "Print in reverse";
         BOOLEAN_ARG "help" None (Some "help") "Print help" ] |}.

End Examples.

(** What the caller sees after the call: a field of the container, the
    diagnostic, the number of stores to a field. *)
Definition field (name : string) (o : outcome) : option value :=
  match o with
  | Ok st | Fail _ st => fields st !! name
  | _ => None
  end.

Definition error_of (o : outcome) : option parse_error :=
  match o with
  | Fail e _ => Some e
  | _ => None
  end.

Definition times_written (name : string) (st : state) : nat :=
  count_occ String.string_dec (writes st) name.

(** ** Schemas of the stated properties *)

Module Schemas.

(** One required [int]. *)
Definition one_int (lc : libc) : schema :=
  {| REQUIRED_ARGS := [ REQUIRED_INT_ARG lc "count" "count" "A number" ];
     OPTIONAL_ARGS := [];
     BOOLEAN_ARGS := [] |}.

(** Boolean flags [v] and [x], value flag [t] read as an unsigned
    integer. *)
Definition flags_vxt (lc : libc) : schema :=
  {| REQUIRED_ARGS := [];
     OPTIONAL_ARGS :=
       [ OPTIONAL_UINT_ARG lc "t" (Some "t"%char) None "n" 0 "A count" ];
     BOOLEAN_ARGS :=
       [ BOOLEAN_ARG "v" (Some "v"%char) None "Verbose";
         BOOLEAN_ARG "x" (Some "x"%char) None "Extended" ] |}.

(** The character [t] is the short option of a value-taking argument and
    of a boolean argument. *)
Definition trace : boolean_arg := BOOLEAN_ARG "trace" (Some "t"%char) (Some "trace") "Trace".

Definition shared_t (lc : libc) : schema :=
  {| REQUIRED_ARGS := [];
     OPTIONAL_ARGS := [ Examples.threads lc ];
     BOOLEAN_ARGS := [ trace ] |}.

End Schemas.

(** ** Vocabulary of the properties *)

(** The first value-taking descriptor, in declaration order, whose short
    option is [c], with the descriptors declared after it. *)
Fixpoint split_short (c : ascii) (os : list optional_arg)
    : option (optional_arg * list optional_arg) :=
  match os with
  | [] => None
  | o :: os' =>
      if bool_decide (o_shortopt o = Some c) then Some (o, os') else split_short c os'
  end.

(** The first boolean descriptor whose short option is [c]. *)
Definition first_short_bool (c : ascii) (bs : list boolean_arg) : option boolean_arg :=
  List.find (fun b => bool_decide (b_shortopt b = Some c)) bs.

(** The first value-taking descriptor whose long option is [l]. *)
Definition first_long (l : string) (os : list optional_arg) : option optional_arg :=
  List.find (fun o => bool_decide (o_longopt o = Some l)) os.

(** [strcmp(tok, "--" #longopt)] is non-zero whatever the long option. *)
Definition never_long (tok : string) : Prop :=
  forall longopt, String.eqb tok (dashdash longopt) = false.

(** The names of the optional and boolean fields. *)
Definition option_names (sch : schema) : list string :=
  (map o_name (OPTIONAL_ARGS sch) ++ map b_name (BOOLEAN_ARGS sch))%list.

(** [st'] is [st] after further stores, all to fields among [names]. *)
Definition extends (names : list string) (st st' : state) : Prop :=
  exists l, writes st' = (writes st ++ l)%list /\ Forall (fun x => In x names) l.

Definition outcome_extends (names : list string) (st : state) (o : outcome) : Prop :=
  match o with
  | Ok st' | Fail _ st' => extends names st st'
  | _ => True
  end.

Definition flow_extends (names : list string) (st : state) (f : flow) : Prop :=
  match f with
  | FReturn o => outcome_extends names st o
  | FContinue _ st' | FFall _ st' => extends names st st'
  end.

Definition iteration_extends (names : list string) (st : state) (it : iteration) : Prop :=
  match it with
  | Stop o => outcome_extends names st o
  | Again _ st' => extends names st st'
  end.

Definition step_extends (names : list string) (st : state) (s : step) : Prop :=
  match s with
  | SReturn o => outcome_extends names st o
  | SContinue st' | SContinueAfterValue st' => extends names st st'
  end.

(** The length of what a pointer points to, the measure of the [while]
    loop. *)
Definition plen (p : cptr) : nat :=
  match p with
  | PAt s => String.length s
  | _ => O
  end.

Definition flow_shorter (n : nat) (f : flow) : Prop :=
  match f with
  | FReturn o => o <> OutOfFuel
  | FContinue p _ => (plen p < n)%nat
  | FFall s _ => (String.length s <= n)%nat
  end.

(** The integer parsers of the header, with the largest magnitude each
    stores unchanged for an unsigned text. *)
Inductive number_type : Type :=
  | NInt | NUInt | NLong | NULong | NLongLong | NULongLong.

Definition number_parser (lc : libc) (t : number_type) : parser :=
  match t with
  | NInt => parse_int lc
  | NUInt => parse_uint lc
  | NLong => parse_l lc
  | NULong => parse_ul lc
  | NLongLong => parse_ll lc
  | NULongLong => parse_ull lc
  end.

Definition number_max (t : number_type) : Z :=
  match t with
  | NInt => 2 ^ 31 - 1
  | NUInt => 2 ^ 32 - 1
  | NLong | NLongLong => LONG_MAX
  | NULong | NULongLong => ULONG_MAX
  end.

(** A text made of decimal digits only, and the number it denotes. *)
Fixpoint all_digits (s : string) : bool :=
  match s with
  | EmptyString => true
  | String c s' => isdigit c && all_digits s'
  end.

Fixpoint decimal (acc : Z) (s : string) : Z :=
  match s with
  | EmptyString => acc
  | String c s' => decimal (10 * acc + digit_val c) s'
  end.

(** ** The help text [print_help] (lines 362-496)

    The text written to standard output, or [None] where the header does
    not give a defined text:
    - the labels, descriptions and option names are spliced into the format
      strings of [printf], so a percent sign in one of them is read as a
      conversion;
    - for a descriptor with a short option and the long option NONE,
      BOTH_SET leaves the name DO_NOTHING behind without its parentheses,
      and when OPTIONAL_ARGS (or BOOLEAN_ARGS) has no short option at all
      the usage line calls [printf()] without a format: in both cases the
      header does not compile;
    - the default must be of the kind its formatter prints.
    An empty descriptor list stands for a list macro that is not defined. *)

Definition nl : string := String (ascii_of_nat 10) EmptyString.

Fixpoint concat_all (l : list string) : string :=
  match l with
  | [] => EmptyString
  | s :: l' => s ++ concat_all l'
  end.

Definition strlen (s : string) : Z := Z.of_nat (String.length s).

Fixpoint spaces (n : nat) : string :=
  match n with
  | O => EmptyString
  | S n' => String " " (spaces n')
  end.

(** [printf("%*s", w, "")]: a negative width is the flag [-] with the
    width [-w]; either way the empty string is padded to [|w|] spaces. *)
Definition pad (w : Z) : string := spaces (Z.abs_nat w).

Fixpoint no_percent (s : string) : bool :=
  match s with
  | EmptyString => true
  | String c s' => negb (Ascii.eqb c "%") && no_percent s'
  end.

(** [#shortopt] and [#longopt]: the sentinel is stringified as it is
    written. *)
Definition shortopt_text (c : option ascii) : string :=
  match c with
  | Some c => String c EmptyString
  | None => "NONE"
  end.

Definition longopt_text (l : option string) : string :=
  match l with
  | Some l => l
  | None => "NONE"
  end.

(** The usage line (lines 367-401).  [#if (OPTIONAL_ARG_COUNT +
    BOOLEAN_ARG_COUNT <= 3)] is decided by the preprocessor, for which the
    two constants are plain identifiers of value 0: the test always holds
    and the branch that prints [OPTIONS] in brackets is never compiled. *)
Definition required_usage (rs : list required_arg) : string :=
  match rs with
  | [] => EmptyString
  | _ =>
      if (List.length rs <=? 3)%nat
      then concat_all (map (fun r => "<" ++ r_label r ++ "> ") rs)
      else "<ARGUMENTS> "
  end.

Definition SHORT_OPT_QUICK_HELP (shortopt : ascii) (arg_label : string) : string :=
  "[-" ++ String shortopt EmptyString ++ "<" ++ arg_label ++ ">" ++ "] ".

Definition BOOLEAN_ARG_QUICK_HELP (shortopt : ascii) : string :=
  "[-" ++ String shortopt EmptyString ++ "] ".

Definition optional_usage (os : list optional_arg) : string :=
  concat_all (map (fun o =>
    match o_shortopt o with
    | Some c => SHORT_OPT_QUICK_HELP c (o_arg_label o)
    | None => EmptyString
    end) os).

Definition boolean_usage (bs : list boolean_arg) : string :=
  concat_all (map (fun b =>
    match b_shortopt b with
    | Some c => BOOLEAN_ARG_QUICK_HELP c
    | None => EmptyString
    end) bs).

(** [max_width] (lines 405-436). *)
Definition required_len (r : required_arg) : Z := strlen (r_label r) + 2.
Definition optional_len (o : optional_arg) : Z :=
  6 + strlen (longopt_text (o_longopt o)) + strlen (o_arg_label o) + 2.
Definition boolean_len (b : boolean_arg) : Z := 4 + strlen (longopt_text (b_longopt b)).

Definition max_width (sch : schema) : Z :=
  let m1 := fold_left (fun m r => Z.max m (required_len r)) (REQUIRED_ARGS sch) 0 in
  let m2 := fold_left (fun m o => Z.max m (optional_len o)) (OPTIONAL_ARGS sch) m1 in
  fold_left (fun m b => Z.max m (boolean_len b)) (BOOLEAN_ARGS sch) m2.

(** CALC_WIDTH and CALC_OPT_WIDTH (lines 461-467). *)
Definition CALC_WIDTH (mw : Z) (shortopt : option ascii) (longopt : option string) : Z :=
  mw
  + match shortopt with Some _ => - 1 - 1 | None => 0 end
  + match longopt with Some l => - 2 - strlen l | None => 0 end
  + match shortopt, longopt with Some _, Some _ => - 2 | _, _ => 0 end
  + 1.

Definition CALC_OPT_WIDTH (mw : Z) (shortopt : option ascii) (longopt : option string)
    (arg_label : string) : Z :=
  CALC_WIDTH mw shortopt longopt - strlen arg_label - 3.

(** SHORT_HELP, the separator of BOTH_SET and LONG_HELP. *)
Definition option_label (shortopt : option ascii) (longopt : option string) : string :=
  match shortopt with Some c => "-" ++ String c EmptyString | None => EmptyString end
  ++ match shortopt, longopt with Some _, Some _ => ", " | _, _ => EmptyString end
  ++ match longopt with Some l => "--" ++ l | None => EmptyString end.

(** What a row prints before the description. *)
Definition required_left (mw : Z) (r : required_arg) : string :=
  "    <" ++ r_label r ++ ">" ++ pad (mw - strlen (r_label r) - 1) ++ "  ".

Definition optional_left (mw : Z) (o : optional_arg) : string :=
  "    " ++ option_label (o_shortopt o) (o_longopt o)
  ++ " <" ++ o_arg_label o ++ ">"
  ++ pad (CALC_OPT_WIDTH mw (o_shortopt o) (o_longopt o) (o_arg_label o)) ++ "  ".

Definition boolean_left (mw : Z) (b : boolean_arg) : string :=
  "    " ++ option_label (b_shortopt b) (b_longopt b)
  ++ pad (CALC_WIDTH mw (b_shortopt b) (b_longopt b)) ++ "  ".

(** The default as its formatter prints it, for the formatters of the
    OPTIONAL_*_ARG macros of the integer, character and string types. *)
Definition format_default (formatter : string) (v : value) : option string :=
  match v with
  | VStr s => if String.eqb formatter "%s" then Some s else None
  | VChar c => if String.eqb formatter "%c" then Some (String c EmptyString) else None
  | VInt n =>
      if existsb (String.eqb formatter) ["%d"; "%ld"; "%lld"] then Some (pretty n)
      else if existsb (String.eqb formatter) ["%u"; "%lu"; "%llu"; "%zu"]
           then (if 0 <=? n then Some (pretty n) else None)
           else None
  | _ => None
  end.

Definition required_row (mw : Z) (r : required_arg) : string :=
  required_left mw r ++ r_description r ++ nl.

Definition optional_row (mw : Z) (o : optional_arg) : option string :=
  match format_default (o_formatter o) (o_default o) with
  | Some d => Some (optional_left mw o ++ o_description o ++ " (default: " ++ d ++ ")" ++ nl)
  | None => None
  end.

Definition boolean_row (mw : Z) (b : boolean_arg) : string :=
  boolean_left mw b ++ b_description b ++ nl.

Fixpoint optional_rows (mw : Z) (os : list optional_arg) : option string :=
  match os with
  | [] => Some EmptyString
  | o :: os' =>
      match optional_row mw o, optional_rows mw os' with
      | Some r, Some rs => Some (r ++ rs)
      | _, _ => None
      end
  end.

(** The conditions under which the header compiles and its format strings
    are taken literally. *)
Definition short_needs_long (shortopt : option ascii) (longopt : option string) : bool :=
  match shortopt, longopt with
  | Some _, None => false
  | _, _ => true
  end.

Definition some_short {A : Type} (shortopt : A -> option ascii) (l : list A) : bool :=
  match l with
  | [] => true
  | _ => existsb (fun x => bool_decide (is_Some (shortopt x))) l
  end.

Definition help_defined (sch : schema) : bool :=
  forallb (fun r => no_percent (r_label r) && no_percent (r_description r))
    (REQUIRED_ARGS sch)
  && forallb (fun o =>
       short_needs_long (o_shortopt o) (o_longopt o)
       && no_percent (shortopt_text (o_shortopt o))
       && no_percent (longopt_text (o_longopt o))
       && no_percent (o_arg_label o) && no_percent (o_description o))
       (OPTIONAL_ARGS sch)
  && forallb (fun b =>
       short_needs_long (b_shortopt b) (b_longopt b)
       && no_percent (shortopt_text (b_shortopt b))
       && no_percent (longopt_text (b_longopt b))
       && no_percent (b_description b))
       (BOOLEAN_ARGS sch)
  && some_short o_shortopt (OPTIONAL_ARGS sch)
  && some_short b_shortopt (BOOLEAN_ARGS sch).

Definition print_help (sch : schema) (exec_alias : string) : option string :=
  let mw := max_width sch in
  if help_defined sch then
    match optional_rows mw (OPTIONAL_ARGS sch) with
    | Some rows =>
        Some ("USAGE:" ++ nl
              ++ "    " ++ exec_alias ++ " "
              ++ required_usage (REQUIRED_ARGS sch)
              ++ optional_usage (OPTIONAL_ARGS sch)
              ++ boolean_usage (BOOLEAN_ARGS sch)
              ++ nl ++ nl
              ++ match REQUIRED_ARGS sch with
                 | [] => EmptyString
                 | rs => "ARGUMENTS:" ++ nl
                         ++ concat_all (map (required_row mw) rs) ++ nl
                 end
              ++ match OPTIONAL_ARGS sch, BOOLEAN_ARGS sch with
                 | [], [] => EmptyString
                 | _, _ => "OPTIONS:" ++ nl
                 end
              ++ rows
              ++ concat_all (map (boolean_row mw) (BOOLEAN_ARGS sch)))
    | None => None
    end
  else None.

(** ** Vocabulary of the further properties *)

(** [st'] is [st] after stores that all satisfy [P], and changes of
    [errno]. *)
Inductive stores_by (P : string -> value -> Prop) (st : state) : state -> Prop :=
  | stores_none : stores_by P st st
  | stores_store st' name v :
      stores_by P st st' -> P name v -> stores_by P st (store name v st')
  | stores_errno st' e :
      stores_by P st st' -> stores_by P st (set_errno e st').

Definition outcome_by (P : string -> value -> Prop) (st : state) (o : outcome) : Prop :=
  match o with
  | Ok st' | Fail _ st' => stores_by P st st'
  | _ => True
  end.

Definition flow_by (P : string -> value -> Prop) (st : state) (f : flow) : Prop :=
  match f with
  | FReturn o => outcome_by P st o
  | FContinue _ st' | FFall _ st' => stores_by P st st'
  end.

Definition iteration_by (P : string -> value -> Prop) (st : state) (it : iteration) : Prop :=
  match it with
  | Stop o => outcome_by P st o
  | Again _ st' => stores_by P st st'
  end.

Definition step_by (P : string -> value -> Prop) (st : state) (s : step) : Prop :=
  match s with
  | SReturn o => outcome_by P st o
  | SContinue st' | SContinueAfterValue st' => stores_by P st st'
  end.

(** The stores [parse_args] can make for a schema: any value to a required
    or optional field, [true] to a boolean field. *)
Definition engine_store (sch : schema) (name : string) (v : value) : Prop :=
  In name (map r_name (REQUIRED_ARGS sch))
  \/ In name (map o_name (OPTIONAL_ARGS sch))
  \/ (In name (map b_name (BOOLEAN_ARGS sch)) /\ v = VBool true).

(** The state the caller finds, whether [parse_args] returned 0 or 1. *)
Definition final_state (o : outcome) : option state :=
  match o with
  | Ok st | Fail _ st => Some st
  | _ => None
  end.

(** A parser whose advance output, for a text that is not empty, is NULL
    or a position inside the text (the terminator included). *)
Definition stays_inside (p : parser) : Prop :=
  forall text e,
    text <> EmptyString ->
    match p_adv (p text e) with
    | AdvNull => True
    | AdvOff n => (n <= String.length text)%nat
    end.

(** A diagnostic other than the missing value of a long option, the only
    one that depends on whether a further token follows. *)
Definition not_missing_long_value (e : parse_error) : Prop :=
  match e with
  | OptionRequiresValue opt => never_long opt
  | _ => True
  end.

(** The diagnostics of the options phase, each with the descriptor it
    comes from. *)
Definition options_phase_error (sch : schema) (e : parse_error) : Prop :=
  match e with
  | InvalidValue name _ => In name (map o_name (OPTIONAL_ARGS sch))
  | OptionRequiresValue opt =>
      exists o, In o (OPTIONAL_ARGS sch)
                /\ ((exists l, o_longopt o = Some l /\ opt = dashdash l)
                    \/ (exists c, o_shortopt o = Some c /\ opt = dash c))
  | TrailingUnparsedInput opt _ =>
      exists o l, In o (OPTIONAL_ARGS sch) /\ o_longopt o = Some l /\ opt = dashdash l
  | UnknownFlag _ | UnexpectedPositionalArgument _ => True
  | InternalError | MissingRequiredArgument => False
  end.

Definition outcome_error (E : parse_error -> Prop) (o : outcome) : Prop :=
  match o with
  | Fail e _ => E e
  | _ => True
  end.

(** A token names an option: it is the long form of the option, or a
    cluster in which the short character of the option occurs. *)
Definition names_option (shortopt : option ascii) (longopt : option string)
    (tok : string) : Prop :=
  (exists l, longopt = Some l /\ tok = dashdash l)
  \/ (exists c cf, shortopt = Some c /\ tok = String "-" cf
                   /\ In c (list_ascii_of_string cf)).

(** The field [name] belongs to an optional or boolean descriptor whose
    option one of the tokens names. *)
Definition option_met (sch : schema) (toks : list string) (name : string)
    (v : value) : Prop :=
  (exists o tok, In o (OPTIONAL_ARGS sch) /\ o_name o = name /\ In tok toks
                 /\ names_option (o_shortopt o) (o_longopt o) tok)
  \/ (exists b tok, In b (BOOLEAN_ARGS sch) /\ b_name b = name /\ In tok toks
                    /\ names_option (b_shortopt b) (b_longopt b) tok).

(** The same inside one cluster, whose characters are [cs]. *)
Definition flag_met (sch : schema) (cs : list ascii) (name : string) (v : value) : Prop :=
  (exists o c, In o (OPTIONAL_ARGS sch) /\ o_name o = name
               /\ o_shortopt o = Some c /\ In c cs)
  \/ (exists b c, In b (BOOLEAN_ARGS sch) /\ b_name b = name
                  /\ b_shortopt b = Some c /\ In c cs).

Definition pchars (p : cptr) : list ascii :=
  match p with
  | PAt s => list_ascii_of_string s
  | _ => []
  end.

Definition flow_met (sch : schema) (cs : list ascii) (st : state) (f : flow) : Prop :=
  match f with
  | FReturn o => outcome_by (flag_met sch cs) st o
  | FContinue p st' => stores_by (flag_met sch cs) st st' /\ incl (pchars p) cs
  | FFall cf st' =>
      stores_by (flag_met sch cs) st st' /\ incl (list_ascii_of_string cf) cs
  end.

(** The stores of a pass on [argv]: to required fields, and to the fields
    of the options that the tokens after the required ones name. *)
Definition pass_store (sch : schema) (argv : list string) (name : string)
    (v : value) : Prop :=
  In name (map r_name (REQUIRED_ARGS sch))
  \/ option_met sch (drop (1 + REQUIRED_ARG_COUNT sch) argv) name v.





(** * Properties *)

(** ** End-to-end runs of the examples *)

(** C1: with the schema of examples/01_file_processor.c (required strings
    input and output, optional unsigned threads with short option t, long
    option threads and default 1, boolean help with short option h), the
    vector prog in.txt out.txt -t4 is parsed with success into
    input = in.txt, output = out.txt, threads = 4, help = false; the vector
    prog in.txt fails with MissingRequiredArgument; the vector
    prog in.txt out.txt -h is parsed with success and help = true. *)
Theorem file_processor_end_to_end (lc : libc) :
  let sch := Examples.file_processor lc in
  let run1 := parse sch ["prog"; "in.txt"; "out.txt"; "-t4"] in
  let run2 := parse sch ["prog"; "in.txt"] in
  let run3 := parse sch ["prog"; "in.txt"; "out.txt"; "-h"] in
  (retcode run1 = Some 0
   /\ field "input_file" run1 = Some (VStr "in.txt")
   /\ field "output_file" run1 = Some (VStr "out.txt")
   /\ field "threads" run1 = Some (VInt 4)
   /\ field "help" run1 = Some (VBool false))
  /\ (retcode run2 = Some 1 /\ error_of run2 = Some MissingRequiredArgument)
  /\ (retcode run3 = Some 0
      /\ field "input_file" run3 = Some (VStr "in.txt")
      /\ field "output_file" run3 = Some (VStr "out.txt")
      /\ field "threads" run3 = Some (VInt 1)
      /\ field "help" run3 = Some (VBool true)).
Proof.
  destruct lc as [[e|]]; vm_compute; repeat split.
Qed.

(** ** A required integer that is not a number *)

(** C3, on a C library that leaves errno alone when the text holds no
    digit: the token abc for a required int is accepted, parse_args returns
    0 and the field holds 0. *)
Theorem abc_accepted_as_zero :
  let run := parse (Schemas.one_int glibc) ["prog"; "abc"] in
  retcode run = Some 0 /\ error_of run = None /\ field "count" run = Some (VInt 0).
Proof.
  vm_compute; repeat split.
Qed.

(** On a C library that stores EINVAL in that case the same token is
    rejected by parse_int. *)
Lemma abc_rejected_with_einval :
  error_of (parse (Schemas.one_int musl) ["prog"; "abc"])
  = Some (InvalidValue "count" "abc").
Proof.
  vm_compute; reflexivity.
Qed.

(** ** Tokens that are no long option *)

Section LongMatching.

Lemma long_name l : dashdash l = String "-" (String "-" l).
Proof. reflexivity. Qed.

Lemma never_long_marker : never_long "-".
Proof. intros longopt. reflexivity. Qed.

Lemma never_long_dash c : c <> "-"%char -> never_long (dash c).
Proof.
  intros Hc longopt. unfold dash. rewrite long_name. cbn.
  destruct (Ascii.eqb_spec c "-"); [contradiction | reflexivity].
Qed.

Lemma long_optionals_never os tok next st :
  never_long tok -> long_optionals os tok next st = None.
Proof.
  intros Hn. induction os as [|o os IH]; [reflexivity|].
  cbn [long_optionals]. destruct (o_longopt o) as [longopt|]; [|exact IH].
  unfold GENERATE_LONG_OPT. rewrite Hn. exact IH.
Qed.

Lemma long_booleans_never bs tok st :
  never_long tok -> long_booleans bs tok st = None.
Proof.
  intros Hn. induction bs as [|b bs IH]; [reflexivity|].
  cbn [long_booleans]. destruct (b_longopt b) as [longopt|]; [|exact IH].
  unfold GENERATE_LONG_BOOL. rewrite Hn. exact IH.
Qed.

Lemma long_name_inj l l' : String.eqb (dashdash l) (dashdash l') = true -> l = l'.
Proof. intros H. apply String.eqb_eq in H. rewrite !long_name in H. congruence. Qed.

(** A declared value-taking long option that is the last token: whichever
    descriptor matches first reports the missing value. *)
Lemma long_optionals_last os o l st :
  In o os -> o_longopt o = Some l ->
  long_optionals os (dashdash l) None st
  = Some (SReturn (Fail (OptionRequiresValue (dashdash l)) st)).
Proof.
  induction os as [|o' os IH]; intros Hin Hl; [destruct Hin|].
  cbn [long_optionals].
  destruct (o_longopt o') as [l'|] eqn:El'.
  - unfold GENERATE_LONG_OPT.
    destruct (String.eqb (dashdash l) (dashdash l')) eqn:E.
    + apply long_name_inj in E. subst l'. reflexivity.
    + destruct Hin as [->|Hin]; [|auto].
      rewrite Hl in El'. injection El' as ->. rewrite String.eqb_refl in E. discriminate.
  - destruct Hin as [->|Hin]; [congruence | auto].
Qed.

End LongMatching.

(** ** The lone marker *)

(** C10: a token that is just the marker character is accepted in the
    options phase: its cluster is empty, the iteration stores to no field
    and reports no error, and the loop goes on with the next token in the
    same state, so that the parse can still succeed. *)
Theorem lone_marker_skipped (sch : schema) (rest : list string) (st : state) :
  for_body sch "-" (head rest) st = SContinue st
  /\ for_loop sch ("-" :: rest) st = for_loop sch rest st
  /\ for_loop sch ["-"] st = Ok st.
Proof.
  assert (Hbody : forall next, for_body sch "-" next st = SContinue st).
  { intros next. unfold for_body.
    rewrite long_optionals_never by apply never_long_marker.
    rewrite long_booleans_never by apply never_long_marker.
    reflexivity. }
  repeat split.
  - apply Hbody.
  - cbn [for_loop]. rewrite Hbody. reflexivity.
  - cbn [for_loop]. rewrite Hbody. reflexivity.
Qed.

(** The same on the schema of examples/01_file_processor.c: a lone marker
    between the required arguments and a flag changes nothing. *)
Lemma lone_marker_example (lc : libc) :
  let run := parse (Examples.file_processor lc) ["prog"; "in.txt"; "out.txt"; "-"; "-t4"] in
  retcode run = Some 0
  /\ field "threads" run = Some (VInt 4)
  /\ field "help" run = Some (VBool false).
Proof.
  destruct lc as [[e|]]; vm_compute; repeat split.
Qed.

(** ** A value-taking long option without its value *)

Lemma required_loop_app rs argv extra i st :
  (i + List.length rs <= List.length argv)%nat ->
  required_loop rs (argv ++ extra)%list i st = required_loop rs argv i st.
Proof.
  revert i st. induction rs as [|r rs IH]; intros i st Hlen; [reflexivity|].
  cbn [required_loop List.length] in *.
  rewrite lookup_app_l by lia.
  destruct (argv !! i) as [text|]; [|reflexivity].
  destruct (call (r_parser r) (r_name r) text st) as [[error p] st'].
  destruct (error =? 0); [|reflexivity].
  apply IH. lia.
Qed.

Lemma for_loop_long_last sch o l st :
  In o (OPTIONAL_ARGS sch) -> o_longopt o = Some l ->
  for_loop sch [dashdash l] st = Fail (OptionRequiresValue (dashdash l)) st.
Proof.
  intros Hin Hl. cbn [for_loop head]. unfold for_body.
  rewrite (long_optionals_last _ o l st Hin Hl). reflexivity.
Qed.

(** C5, as the engine has it: when the options phase reaches, as the last
    token of the vector, a token that matches a value-taking long option,
    the parse fails with OptionRequiresValue and that token causes no
    store: the container is returned as it was when the token was reached.
    So when the token follows the required arguments directly, the
    container holds what the required phase stored, and in a schema without
    required arguments it is untouched. *)
Theorem long_option_without_value (sch : schema) (o : optional_arg) (l : string) :
  In o (OPTIONAL_ARGS sch) -> o_longopt o = Some l ->
  (forall st, for_loop sch [dashdash l] st = Fail (OptionRequiresValue (dashdash l)) st)
  /\ (forall argv st st1,
        List.length argv = (1 + REQUIRED_ARG_COUNT sch)%nat ->
        required_loop (REQUIRED_ARGS sch) argv 1 st = Ok st1 ->
        parse_args sch (argv ++ [dashdash l])%list st
        = Fail (OptionRequiresValue (dashdash l)) st1)
  /\ (REQUIRED_ARGS sch = [] ->
      forall prog st,
        parse_args sch [prog; dashdash l] st = Fail (OptionRequiresValue (dashdash l)) st).
Proof.
  intros Hin Hl.
  assert (Hreq : forall argv st st1,
            List.length argv = (1 + REQUIRED_ARG_COUNT sch)%nat ->
            required_loop (REQUIRED_ARGS sch) argv 1 st = Ok st1 ->
            parse_args sch (argv ++ [dashdash l])%list st
            = Fail (OptionRequiresValue (dashdash l)) st1).
  { intros argv st st1 Hlen Hreq. unfold parse_args.
    rewrite length_app, Hlen. cbn [List.length].
    replace (1 + REQUIRED_ARG_COUNT sch + 1 =? 0)%nat with false
      by (symmetry; apply Nat.eqb_neq; lia).
    replace (1 + REQUIRED_ARG_COUNT sch + 1 <? 1 + REQUIRED_ARG_COUNT sch)%nat with false
      by (symmetry; apply Nat.ltb_ge; lia).
    rewrite required_loop_app by (unfold REQUIRED_ARG_COUNT in Hlen; lia).
    rewrite Hreq.
    rewrite (drop_app_length' argv) by (symmetry; exact Hlen).
    apply (for_loop_long_last sch o l st1 Hin Hl). }
  split; [|split].
  - intros st. apply (for_loop_long_last sch o l st Hin Hl).
  - exact Hreq.
  - intros Hnone prog st.
    apply (Hreq [prog] st st).
    + unfold REQUIRED_ARG_COUNT. rewrite Hnone. reflexivity.
    + rewrite Hnone. reflexivity.
Qed.

Lemma long_option_without_value_witness :
  let sch := Examples.file_processor glibc in
  In (Examples.threads glibc) (OPTIONAL_ARGS sch)
  /\ o_longopt (Examples.threads glibc) = Some "threads"
  /\ (forall st,
        for_loop sch ["--threads"] st = Fail (OptionRequiresValue "--threads") st).
Proof.
  assert (Hin : In (Examples.threads glibc) (OPTIONAL_ARGS (Examples.file_processor glibc)))
    by (simpl; left; reflexivity).
  assert (Hl : o_longopt (Examples.threads glibc) = Some "threads") by reflexivity.
  split; [exact Hin|]. split; [exact Hl|].
  exact (proj1 (long_option_without_value _ _ _ Hin Hl)).
Defined.

(** C5 as stated fails: with the schema of examples/01_file_processor.c the
    vector prog in.txt out.txt --threads fails with OptionRequiresValue, but
    the fields of the two required arguments have been stored to. *)
Lemma long_option_without_value_mutates :
  let sch := Examples.file_processor glibc in
  exists st,
    parse sch ["prog"; "in.txt"; "out.txt"; "--threads"]
    = Fail (OptionRequiresValue "--threads") st
    /\ writes st = ["input_file"; "output_file"]
    /\ fields (fresh sch) !! "input_file" = Some VNull
    /\ fields st !! "input_file" = Some (VStr "in.txt")
    /\ fields st <> fields (fresh sch).
Proof.
  eexists. split; [vm_compute; reflexivity|].
  split; [reflexivity|]. split; [vm_compute; reflexivity|].
  split; [vm_compute; reflexivity|].
  intros H. apply (f_equal (fun m : gmap string value => m !! "input_file")) in H.
  vm_compute in H. discriminate H.
Qed.

(** ** A value-taking short option without its value *)

Lemma short_optionals_bare os o c st :
  In o os -> o_shortopt o = Some c ->
  short_optionals os (String c EmptyString) st
  = FReturn (Fail (OptionRequiresValue (dash c)) st).
Proof.
  induction os as [|o' os IH]; intros Hin Hc; [destruct Hin|].
  cbn [short_optionals].
  destruct (o_shortopt o') as [c'|] eqn:Ec'.
  - cbn [GENERATE_SHORT_OPT].
    destruct (Ascii.eqb_spec c c') as [->|Hne]; [reflexivity|].
    destruct Hin as [->|Hin]; [congruence | auto].
  - destruct Hin as [->|Hin]; [congruence | auto].
Qed.

(** Only a declared value-taking long option makes an iteration of the
    [for] loop consume the token after its own. *)
Lemma long_optionals_after_value os tok next st st' :
  long_optionals os tok next st = Some (SContinueAfterValue st') ->
  exists o l, In o os /\ o_longopt o = Some l /\ tok = dashdash l.
Proof.
  induction os as [|o os IH]; [discriminate|].
  cbn [long_optionals].
  destruct (o_longopt o) as [l|] eqn:El.
  - unfold GENERATE_LONG_OPT.
    destruct (String.eqb_spec tok (dashdash l)) as [->|Hne].
    + intros _. exists o, l. split; [left; reflexivity | split; [exact El | reflexivity]].
    + intros H. destruct (IH H) as (o' & l' & Hin & Hl & Ht).
      exists o', l'. split; [right; exact Hin | split; assumption].
  - intros H. destruct (IH H) as (o' & l' & Hin & Hl & Ht).
    exists o', l'. split; [right; exact Hin | split; assumption].
Qed.

Lemma long_booleans_no_value bs tok st st' :
  long_booleans bs tok st <> Some (SContinueAfterValue st').
Proof.
  induction bs as [|b bs IH]; [discriminate|].
  cbn [long_booleans].
  destruct (b_longopt b) as [l|]; [|exact IH].
  unfold GENERATE_LONG_BOOL.
  destruct (String.eqb tok (dashdash l)); [discriminate | exact IH].
Qed.

Lemma for_body_after_value sch tok next st st' :
  for_body sch tok next st = SContinueAfterValue st' ->
  exists o l, In o (OPTIONAL_ARGS sch) /\ o_longopt o = Some l /\ tok = dashdash l.
Proof.
  unfold for_body.
  destruct (long_optionals (OPTIONAL_ARGS sch) tok next st) as [s|] eqn:H1.
  - intros ->. apply (long_optionals_after_value _ _ _ _ _ H1).
  - pose proof (long_booleans_no_value (BOOLEAN_ARGS sch) tok st st') as H2.
    destruct (long_booleans (BOOLEAN_ARGS sch) tok st) as [s|]; [congruence|].
    destruct tok as [|c0 cf]; [discriminate|].
    destruct c0 as [[] [] [] [] [] [] [] []]; try discriminate.
    destruct (scan_cluster sch cf st); discriminate.
Qed.

(** ** A long option whose value is consumed in part *)

Lemma skip_inside n s :
  (n < String.length s)%nat -> exists c s', skip n s = String c s'.
Proof.
  revert s. induction n as [|n IH]; intros [|c s] Hlt; cbn in *; try lia; eauto.
  apply IH. lia.
Qed.

Lemma ptr_add_inside text n :
  (n < String.length text)%nat -> exists c s', ptr_add text n = PAt (String c s').
Proof.
  intros Hlt. unfold ptr_add.
  replace (n <=? String.length text)%nat with true by (symmetry; apply Nat.leb_le; lia).
  destruct (skip_inside n text Hlt) as (c & s' & ->). eauto.
Qed.

Lemma long_optionals_first os o l next st :
  first_long l os = Some o ->
  long_optionals os (dashdash l) next st = GENERATE_LONG_OPT o l (dashdash l) next st.
Proof.
  unfold first_long. induction os as [|o' os IH]; intros Hf; [discriminate|].
  cbn [List.find long_optionals] in *.
  destruct (bool_decide_reflect (o_longopt o' = Some l)) as [El|Hne].
  - injection Hf as ->. rewrite El.
    unfold GENERATE_LONG_OPT at 1 2. rewrite String.eqb_refl.
    destruct next as [text|]; [|reflexivity].
    destruct (call (o_parser o) (o_name o) text st) as [[error p] st'].
    destruct (negb (error =? 0)); [reflexivity|].
    destruct p as [|[|? ?]|]; reflexivity.
  - destruct (o_longopt o') as [l'|]; [|auto].
    unfold GENERATE_LONG_OPT at 1.
    destruct (String.eqb (dashdash l) (dashdash l')) eqn:E; [|auto].
    apply long_name_inj in E. congruence.
Qed.

(** C6: when the token that follows a value-taking long option is handed
    to the parser of that option and the parser reports, through its
    advance output, a position before the end of that token, the parse
    fails with TrailingUnparsedInput; should the parser itself return an
    error the parse fails with that error. In no case is the value
    accepted. *)
Theorem partial_long_value_rejected (sch : schema) (o : optional_arg) (l text : string)
    (rest : list string) (st : state) (n : nat) :
  let r := o_parser o text (errno st) in
  let st' := set_errno (p_errno r) (store (o_name o) (p_out r) st) in
  let run := for_loop sch (dashdash l :: text :: rest) st in
  first_long l (OPTIONAL_ARGS sch) = Some o ->
  p_adv r = AdvOff n ->
  (n < String.length text)%nat ->
  (p_ret r = 0 -> run = Fail (TrailingUnparsedInput (dashdash l) text) st')
  /\ (p_ret r <> 0 -> run = Fail (InvalidValue (o_name o) text) st')
  /\ retcode run = Some 1.
Proof.
  intros r st' run Hfirst Hadv Hlt.
  assert (Hrun : run = if negb (p_ret r =? 0)
                       then Fail (InvalidValue (o_name o) text) st'
                       else Fail (TrailingUnparsedInput (dashdash l) text) st').
  { unfold run. cbn [for_loop head]. unfold for_body.
    rewrite (long_optionals_first _ o l _ st Hfirst).
    unfold GENERATE_LONG_OPT. rewrite String.eqb_refl.
    unfold call. fold r. fold st'. rewrite Hadv. cbn [resolve].
    destruct (ptr_add_inside text n Hlt) as (c & s' & ->).
    destruct (negb (p_ret r =? 0)); reflexivity. }
  rewrite Hrun. split; [|split].
  - intros ->. reflexivity.
  - intros Hne. apply Z.eqb_neq in Hne. rewrite Hne. reflexivity.
  - destruct (negb (p_ret r =? 0)); reflexivity.
Qed.

Lemma partial_long_value_rejected_witness :
  let sch := Examples.file_processor glibc in
  let st := fresh sch in
  first_long "threads" (OPTIONAL_ARGS sch) = Some (Examples.threads glibc)
  /\ p_adv (parse_uint glibc "4x" 0) = AdvOff 1
  /\ (1 < String.length "4x")%nat
  /\ p_ret (parse_uint glibc "4x" 0) = 0
  /\ for_loop sch ["--threads"; "4x"] st
     = Fail (TrailingUnparsedInput "--threads" "4x")
         (set_errno 0 (store "threads" (VInt 4) st)).
Proof.
  assert (Hf : first_long "threads" (OPTIONAL_ARGS (Examples.file_processor glibc))
               = Some (Examples.threads glibc)) by reflexivity.
  assert (Ha : p_adv (parse_uint glibc "4x" 0) = AdvOff 1) by reflexivity.
  assert (Hl : (1 < String.length "4x")%nat) by (cbn; lia).
  assert (Hr : p_ret (parse_uint glibc "4x" 0) = 0) by reflexivity.
  split; [exact Hf|]. split; [exact Ha|]. split; [exact Hl|]. split; [exact Hr|].
  exact (proj1 (partial_long_value_rejected (Examples.file_processor glibc)
                  (Examples.threads glibc) "threads" "4x" []
                  (fresh (Examples.file_processor glibc)) 1 Hf Ha Hl) Hr).
Defined.

(** ** Integer texts with trailing characters *)

Section Numbers.

Lemma digit_facts c :
  isdigit c = true ->
  isspace c = false /\ Ascii.eqb c "-" = false /\ Ascii.eqb c "+" = false
  /\ 0 <= digit_val c <= 9.
Proof.
  destruct c as [[] [] [] [] [] [] [] []]; cbn; intros H; try discriminate H;
    repeat split; try reflexivity; vm_compute; discriminate.
Qed.

Lemma decimal_nonneg ds acc : all_digits ds = true -> 0 <= acc -> 0 <= decimal acc ds.
Proof.
  revert acc. induction ds as [|c ds IH]; intros acc Hd Hacc; cbn in *; [exact Hacc|].
  apply andb_prop in Hd as [Hc Hd].
  apply IH; [exact Hd|]. pose proof (digit_facts c Hc). lia.
Qed.

Lemma scan_digits_prefix ds rest acc :
  all_digits ds = true -> isdigit (first_char rest) = false ->
  scan_digits (ds ++ rest) acc = (decimal acc ds, String.length ds).
Proof.
  revert acc. induction ds as [|c ds IH]; intros acc Hd Hrest.
  - change (EmptyString ++ rest) with rest.
    destruct rest as [|c rest]; cbn in *; [reflexivity|]. rewrite Hrest. reflexivity.
  - change (String c ds ++ rest) with (String c (ds ++ rest)).
    cbn in Hd. apply andb_prop in Hd as [Hc Hd].
    cbn [scan_digits decimal String.length]. rewrite Hc, (IH _ Hd Hrest). reflexivity.
Qed.

Lemma subject_prefix ds rest :
  ds <> EmptyString -> all_digits ds = true -> isdigit (first_char rest) = false ->
  subject (ds ++ rest) = Some (false, decimal 0 ds, String.length ds).
Proof.
  intros Hne Hd Hrest. destruct ds as [|c ds]; [contradiction|].
  pose proof Hd as Hd'. cbn in Hd'. apply andb_prop in Hd' as [Hc _].
  destruct (digit_facts c Hc) as (Hsp & Hm & Hp & _).
  unfold subject.
  change (String c ds ++ rest) with (String c (ds ++ rest)).
  cbn [count_space]. rewrite Hsp. cbn [skip first_char]. rewrite Hm, Hp. cbn [skip].
  change (String c (ds ++ rest)) with (String c ds ++ rest).
  rewrite (scan_digits_prefix _ _ _ Hd Hrest). reflexivity.
Qed.

Variable lc : libc.

(** Every integer parser of the header stops at the first character that
    is no digit, stores the number read so far and leaves [errno] alone. *)
Lemma number_parser_prefix t ds rest e :
  ds <> EmptyString -> all_digits ds = true -> isdigit (first_char rest) = false ->
  decimal 0 ds <= number_max t ->
  number_parser lc t (ds ++ rest) e
  = {| p_ret := if e =? 0 then 0 else 1;
       p_out := VInt (decimal 0 ds);
       p_adv := AdvOff (String.length ds);
       p_errno := e |}.
Proof.
  intros Hne Hd Hrest Hmax.
  pose proof (decimal_nonneg ds 0 Hd (Z.le_refl 0)) as H0.
  destruct t; cbn [number_parser number_max] in *;
    unfold parse_int, parse_uint, parse_l, parse_ul, parse_ll, parse_ull,
      NUMBER_PARSER, strtoll, strtoull, strtol, strtoul;
    rewrite (subject_prefix ds rest Hne Hd Hrest); cbv zeta.
  all: unfold LONG_MAX, ULONG_MAX, LONG_MIN, to_int, to_uint, to_64 in *.
  all: try (replace ((2 ^ 63 - 1) <? decimal 0 ds) with false by (symmetry; apply Z.ltb_ge; lia)).
  all: try (replace (decimal 0 ds <? - 2 ^ 63) with false by (symmetry; apply Z.ltb_ge; lia)).
  all: try (replace ((2 ^ 64 - 1) <? decimal 0 ds) with false by (symmetry; apply Z.ltb_ge; lia)).
  all: repeat f_equal.
  all: rewrite ?(Z.mod_small (decimal 0 ds)), ?(Z.mod_small (decimal 0 ds + 2 ^ 31)) by lia.
  all: lia.
Qed.

End Numbers.

(** The same run from end to end, on any C library. *)
Lemma four_abc_accepted (lc : libc) :
  let run := parse (Schemas.one_int lc) ["prog"; "4abc"] in
  retcode run = Some 0 /\ field "count" run = Some (VInt 4).
Proof.
  destruct lc as [[e|]]; vm_compute; repeat split.
Qed.

(** ** The stores of the options phase

    Whatever a piece of the options phase does, the state it leaves is the
    state it found after further stores to optional and boolean fields. *)

Section Stores.

Variable names : list string.

Lemma extends_refl st : extends names st st.
Proof. exists []. rewrite app_nil_r. split; [reflexivity | constructor]. Qed.

Lemma extends_trans st1 st2 st3 :
  extends names st1 st2 -> extends names st2 st3 -> extends names st1 st3.
Proof.
  intros (l1 & H1 & F1) (l2 & H2 & F2). exists (l1 ++ l2)%list.
  rewrite H2, H1, app_assoc. split; [reflexivity|]. apply Forall_app; auto.
Qed.

Lemma extends_store name v st : In name names -> extends names st (store name v st).
Proof. intros Hin. exists [name]. split; [reflexivity|]. constructor; [exact Hin | constructor]. Qed.

Lemma extends_call p name text st :
  In name names -> extends names st (call p name text st).2.
Proof.
  intros Hin. unfold call. cbn [snd]. exists [name].
  split; [reflexivity|]. constructor; [exact Hin | constructor].
Qed.

Lemma outcome_extends_trans st1 st2 o :
  extends names st1 st2 -> outcome_extends names st2 o -> outcome_extends names st1 o.
Proof. destruct o; cbn; eauto using extends_trans. Qed.

Lemma flow_extends_trans st1 st2 f :
  extends names st1 st2 -> flow_extends names st2 f -> flow_extends names st1 f.
Proof. destruct f; cbn; eauto using extends_trans, outcome_extends_trans. Qed.

Lemma GENERATE_SHORT_OPT_extends o c cf st :
  In (o_name o) names -> flow_extends names st (GENERATE_SHORT_OPT o c cf st).
Proof.
  intros Hin. unfold GENERATE_SHORT_OPT.
  destruct cf as [|c0 text]; [apply extends_refl|].
  destruct (Ascii.eqb c0 c); [|apply extends_refl].
  destruct text as [|c1 text]; [apply extends_refl|].
  pose proof (extends_call (o_parser o) (o_name o) (String c1 text) st Hin) as Hc.
  destruct (call (o_parser o) (o_name o) (String c1 text) st) as [[error p] st'].
  cbn [snd] in Hc.
  destruct (negb (error =? 0)); [exact Hc|].
  destruct p as [|[|? ?]|]; cbn; auto.
Qed.

Lemma short_optionals_extends os cf st :
  Forall (fun o => In (o_name o) names) os ->
  flow_extends names st (short_optionals os cf st).
Proof.
  intros Hall. revert cf st.
  induction Hall as [|o os Ho Hall IH]; intros cf st; [apply extends_refl|].
  cbn [short_optionals].
  pose proof (GENERATE_SHORT_OPT_extends o) as HG.
  destruct (o_shortopt o) as [c|]; [|apply IH].
  specialize (HG c cf st Ho).
  destruct (GENERATE_SHORT_OPT o c cf st) as [out|p st'|cf' st']; try exact HG.
  apply (flow_extends_trans _ st'); [exact HG | apply IH].
Qed.

Lemma short_booleans_extends bs cf st :
  Forall (fun b => In (b_name b) names) bs ->
  flow_extends names st (short_booleans bs cf st).
Proof.
  intros Hall. revert cf st.
  induction Hall as [|b bs Hb Hall IH]; intros cf st; [apply extends_refl|].
  cbn [short_booleans].
  destruct (b_shortopt b) as [c|]; [|apply IH].
  unfold GENERATE_SHORT_BOOL.
  destruct cf as [|c0 rest]; [apply IH|].
  destruct (Ascii.eqb c0 c); [|apply IH].
  cbn. apply extends_store, Hb.
Qed.

End Stores.

Lemma option_names_optionals sch :
  Forall (fun o => In (o_name o) (option_names sch)) (OPTIONAL_ARGS sch).
Proof.
  apply List.Forall_forall. intros o Ho. unfold option_names.
  apply in_or_app. left. apply in_map, Ho.
Qed.

Lemma option_names_booleans sch :
  Forall (fun b => In (b_name b) (option_names sch)) (BOOLEAN_ARGS sch).
Proof.
  apply List.Forall_forall. intros b Hb. unfold option_names.
  apply in_or_app. right. apply in_map, Hb.
Qed.

Lemma while_body_extends sch cf st :
  iteration_extends (option_names sch) st (while_body sch cf st).
Proof.
  unfold while_body.
  pose proof (short_optionals_extends _ _ cf st (option_names_optionals sch)) as H1.
  destruct (short_optionals (OPTIONAL_ARGS sch) cf st) as [out|p st'|cf' st']; try exact H1.
  pose proof (short_booleans_extends _ _ cf' st' (option_names_booleans sch)) as H2.
  cbn in H1.
  destruct (short_booleans (BOOLEAN_ARGS sch) cf' st') as [out|p st''|cf'' st''];
    cbn in *; eauto using outcome_extends_trans, extends_trans.
Qed.

Lemma while_loop_extends sch fuel p st :
  outcome_extends (option_names sch) st (while_loop sch fuel p st).
Proof.
  revert p st. induction fuel as [|fuel IH]; intros p st.
  - destruct p as [|[|? ?]|]; cbn; auto using extends_refl.
  - destruct p as [|[|c text]|]; cbn [while_loop outcome_extends]; auto using extends_refl.
    pose proof (while_body_extends sch (String c text) st) as Hb.
    destruct (while_body sch (String c text) st) as [out|p' st']; [exact Hb|].
    apply (outcome_extends_trans _ _ st'); [exact Hb | apply IH].
Qed.

(** ** The order of the tests inside a cluster *)

Lemma short_optionals_split os o post c text st :
  split_short c os = Some (o, post) ->
  short_optionals os (String c text) st
  = match GENERATE_SHORT_OPT o c (String c text) st with
    | FFall s st' => short_optionals post s st'
    | f => f
    end.
Proof.
  induction os as [|o' os IH]; intros Hs; [discriminate|].
  cbn [split_short short_optionals] in *.
  destruct (bool_decide_reflect (o_shortopt o' = Some c)) as [Ec|Hne].
  - injection Hs as -> ->. rewrite Ec. reflexivity.
  - destruct (o_shortopt o') as [c'|]; [|auto].
    cbn [GENERATE_SHORT_OPT].
    destruct (Ascii.eqb_spec c c') as [->|Hcc]; [congruence | auto].
Qed.

Lemma short_optionals_none os c text st :
  split_short c os = None ->
  short_optionals os (String c text) st = FFall (String c text) st.
Proof.
  induction os as [|o' os IH]; intros Hs; [reflexivity|].
  cbn [split_short short_optionals] in *.
  destruct (bool_decide_reflect (o_shortopt o' = Some c)) as [Ec|Hne]; [discriminate|].
  destruct (o_shortopt o') as [c'|]; [|auto].
  cbn [GENERATE_SHORT_OPT].
  destruct (Ascii.eqb_spec c c') as [->|Hcc]; [congruence | auto].
Qed.

Lemma short_booleans_first bs c text st :
  short_booleans bs (String c text) st
  = match first_short_bool c bs with
    | Some b => FContinue (PAt text) (store (b_name b) (VBool true) st)
    | None => FFall (String c text) st
    end.
Proof.
  unfold first_short_bool. induction bs as [|b bs IH]; [reflexivity|].
  cbn [List.find short_booleans].
  destruct (bool_decide_reflect (b_shortopt b = Some c)) as [Ec|Hne].
  - rewrite Ec. cbn [GENERATE_SHORT_BOOL]. rewrite Ascii.eqb_refl. reflexivity.
  - destruct (b_shortopt b) as [c'|]; [|exact IH].
    cbn [GENERATE_SHORT_BOOL].
    destruct (Ascii.eqb_spec c c') as [->|Hcc]; [congruence | exact IH].
Qed.

(** When the option character matches, the parser has run by the time
    control leaves GENERATE_SHORT_OPT without returning: the field of the
    option is the one store made. *)
Lemma GENERATE_SHORT_OPT_stores o c text st :
  match GENERATE_SHORT_OPT o c (String c text) st with
  | FContinue _ st' | FFall _ st' => writes st' = (writes st ++ [o_name o])%list
  | FReturn _ => True
  end.
Proof.
  cbn [GENERATE_SHORT_OPT]. rewrite Ascii.eqb_refl.
  destruct text as [|c1 text]; [exact I|].
  unfold call. cbn [p_ret].
  destruct (negb (p_ret (o_parser o (String c1 text) (errno st)) =? 0)); [exact I|].
  destruct (resolve (String c1 text) (p_adv (o_parser o (String c1 text) (errno st))))
    as [|[|? ?]|]; cbn; auto.
Qed.

(** C2 as stated fails: in a schema where t is the short option of the
    value-taking argument threads and of the boolean argument trace, the
    token -t4 sets threads to 4 and leaves trace false, and the bare token
    -t is the option-requires-value error. The boolean reading would set
    trace. *)
Lemma boolean_reading_not_chosen :
  let sch := Schemas.shared_t glibc in
  let run := parse sch ["prog"; "-t4"] in
  let bare := parse sch ["prog"; "-t"] in
  o_shortopt (Examples.threads glibc) = Some "t"%char
  /\ b_shortopt Schemas.trace = Some "t"%char
  /\ retcode run = Some 0
  /\ field "threads" run = Some (VInt 4)
  /\ field "trace" run = Some (VBool false)
  /\ field "trace" run <> Some (VBool true)
  /\ error_of bare = Some (OptionRequiresValue "-t")
  /\ field "trace" bare = Some (VBool false).
Proof.
  vm_compute. repeat split; discriminate.
Qed.

(** ** A cluster of two boolean flags and a value *)

Lemma for_body_cluster sch cf next st :
  never_long (String "-" cf) ->
  for_body sch (String "-" cf) next st
  = match scan_cluster sch cf st with
    | Ok st' => SContinue st'
    | o => SReturn o
    end.
Proof.
  intros Hn. unfold for_body.
  rewrite long_optionals_never, long_booleans_never by exact Hn. reflexivity.
Qed.

Lemma while_body_boolean sch c text b st :
  split_short c (OPTIONAL_ARGS sch) = None ->
  first_short_bool c (BOOLEAN_ARGS sch) = Some b ->
  while_body sch (String c text) st = Again (PAt text) (store (b_name b) (VBool true) st).
Proof.
  intros Hs Hb. unfold while_body.
  rewrite (short_optionals_none _ c text st Hs), short_booleans_first, Hb. reflexivity.
Qed.

Lemma parse_uint_4 lc e :
  parse_uint lc "4" e
  = {| p_ret := if e =? 0 then 0 else 1; p_out := VInt 4; p_adv := AdvOff 1; p_errno := e |}.
Proof. destruct lc as [[z|]]; reflexivity. Qed.

(** C4: in every schema whose boolean short flags v and x and whose
    value-taking short flag t, read as an unsigned integer, are the first
    to carry these characters, the single token -vxt4 in the options phase
    sets v = true, x = true and t = 4, in this order, and succeeds. *)
Theorem cluster_vxt4 (lc : libc) (sch : schema) (bv bx : boolean_arg)
    (ot : optional_arg) (post : list optional_arg) (st : state) :
  split_short "v" (OPTIONAL_ARGS sch) = None ->
  split_short "x" (OPTIONAL_ARGS sch) = None ->
  split_short "t" (OPTIONAL_ARGS sch) = Some (ot, post) ->
  first_short_bool "v" (BOOLEAN_ARGS sch) = Some bv ->
  first_short_bool "x" (BOOLEAN_ARGS sch) = Some bx ->
  o_parser ot = parse_uint lc ->
  errno st = 0 ->
  for_loop sch ["-vxt4"] st
  = Ok (store (o_name ot) (VInt 4)
          (store (b_name bx) (VBool true) (store (b_name bv) (VBool true) st))).
Proof.
  intros Hv Hx Ht Hbv Hbx Hp He.
  assert (Hn : never_long "-vxt4") by (intros l; rewrite long_name; reflexivity).
  cbn [for_loop head]. rewrite (for_body_cluster sch "vxt4" None st Hn).
  unfold scan_cluster. cbn [String.length while_loop].
  rewrite (while_body_boolean sch "v" "xt4" bv st Hv Hbv).
  rewrite (while_body_boolean sch "x" "t4" bx _ Hx Hbx).
  unfold while_body.
  rewrite (short_optionals_split _ ot post "t" "4" _ Ht).
  cbn [GENERATE_SHORT_OPT]. rewrite Ascii.eqb_refl. unfold call.
  rewrite Hp, parse_uint_4. cbn [errno store set_errno p_ret p_adv p_out p_errno].
  rewrite He. cbn [Z.eqb negb resolve]. unfold ptr_add. cbn [String.length Nat.leb skip].
  unfold store. cbn [fields writes errno]. rewrite He. reflexivity.
Qed.

Lemma cluster_vxt4_witness :
  let sch := Schemas.flags_vxt glibc in
  let run := parse sch ["prog"; "-vxt4"] in
  split_short "v" (OPTIONAL_ARGS sch) = None
  /\ split_short "x" (OPTIONAL_ARGS sch) = None
  /\ split_short "t" (OPTIONAL_ARGS sch)
     = Some (OPTIONAL_UINT_ARG glibc "t" (Some "t"%char) None "n" 0 "A count", [])
  /\ first_short_bool "v" (BOOLEAN_ARGS sch) = Some (BOOLEAN_ARG "v" (Some "v"%char) None "Verbose")
  /\ first_short_bool "x" (BOOLEAN_ARGS sch) = Some (BOOLEAN_ARG "x" (Some "x"%char) None "Extended")
  /\ errno (fresh sch) = 0
  /\ run = Ok (store "t" (VInt 4) (store "x" (VBool true) (store "v" (VBool true) (fresh sch))))
  /\ retcode run = Some 0
  /\ field "v" run = Some (VBool true)
  /\ field "x" run = Some (VBool true)
  /\ field "t" run = Some (VInt 4).
Proof.
  assert (Hrun : parse (Schemas.flags_vxt glibc) ["prog"; "-vxt4"]
                 = Ok (store "t" (VInt 4) (store "x" (VBool true) (store "v" (VBool true)
                         (fresh (Schemas.flags_vxt glibc)))))).
  { exact (cluster_vxt4 glibc (Schemas.flags_vxt glibc)
             (BOOLEAN_ARG "v" (Some "v"%char) None "Verbose")
             (BOOLEAN_ARG "x" (Some "x"%char) None "Extended")
             (OPTIONAL_UINT_ARG glibc "t" (Some "t"%char) None "n" 0 "A count") []
             (fresh (Schemas.flags_vxt glibc))
             eq_refl eq_refl eq_refl eq_refl eq_refl eq_refl eq_refl). }
  cbv zeta. rewrite Hrun.
  repeat (split; [reflexivity|]). vm_compute. reflexivity.
Defined.

(** The same token on any C library, from end to end. *)
Lemma cluster_vxt4_example (lc : libc) :
  let run := parse (Schemas.flags_vxt lc) ["prog"; "-vxt4"] in
  retcode run = Some 0
  /\ field "v" run = Some (VBool true)
  /\ field "x" run = Some (VBool true)
  /\ field "t" run = Some (VInt 4).
Proof.
  destruct lc as [[e|]]; vm_compute; repeat split.
Qed.

(** examples/04_file_printer.c declares the short option t twice, for
    threads and, after head, for tail: at the start of a cluster t is
    threads; right after the value of head, inside the same iteration, only
    the options declared after head are tested and t is tail. *)
Lemma file_printer_shared_t (lc : libc) :
  let sch := Examples.file_printer lc in
  let run1 := parse sch ["prog"; "in.txt"; "out.txt"; "-t3h5"] in
  let run2 := parse sch ["prog"; "in.txt"; "out.txt"; "-h5t3"] in
  (retcode run1 = Some 0
   /\ field "threads" run1 = Some (VInt 3)
   /\ field "head" run1 = Some (VInt 5)
   /\ field "tail" run1 = Some (VInt (-1)))
  /\ (retcode run2 = Some 0
      /\ field "threads" run2 = Some (VInt 1)
      /\ field "head" run2 = Some (VInt 5)
      /\ field "tail" run2 = Some (VInt 3)).
Proof.
  destruct lc as [[e|]]; vm_compute; repeat split.
Qed.

(** ** How often a field is stored to *)

Lemma long_optionals_extends names os tok next st :
  Forall (fun o => In (o_name o) names) os ->
  match long_optionals os tok next st with
  | Some s => step_extends names st s
  | None => True
  end.
Proof.
  intros Hall. induction Hall as [|o os Ho Hall IH]; [exact I|].
  cbn [long_optionals].
  destruct (o_longopt o) as [l|]; [|exact IH].
  unfold GENERATE_LONG_OPT.
  destruct (String.eqb tok (dashdash l)); [|exact IH].
  destruct next as [text|]; [|apply extends_refl].
  pose proof (extends_call names (o_parser o) (o_name o) text st Ho) as Hc.
  destruct (call (o_parser o) (o_name o) text st) as [[error p] st'].
  cbn [snd] in Hc.
  destruct (negb (error =? 0)); [exact Hc|].
  destruct p as [|[|? ?]|]; cbn; auto.
Qed.

Lemma long_booleans_extends names bs tok st :
  Forall (fun b => In (b_name b) names) bs ->
  match long_booleans bs tok st with
  | Some s => step_extends names st s
  | None => True
  end.
Proof.
  intros Hall. induction Hall as [|b bs Hb Hall IH]; [exact I|].
  cbn [long_booleans].
  destruct (b_longopt b) as [l|]; [|exact IH].
  unfold GENERATE_LONG_BOOL.
  destruct (String.eqb tok (dashdash l)); [|exact IH].
  cbn. apply extends_store, Hb.
Qed.

Lemma for_body_extends sch tok next st :
  step_extends (option_names sch) st (for_body sch tok next st).
Proof.
  unfold for_body.
  pose proof (long_optionals_extends _ _ tok next st (option_names_optionals sch)) as H1.
  destruct (long_optionals (OPTIONAL_ARGS sch) tok next st) as [s|]; [exact H1|].
  pose proof (long_booleans_extends _ _ tok st (option_names_booleans sch)) as H2.
  destruct (long_booleans (BOOLEAN_ARGS sch) tok st) as [s|]; [exact H2|].
  destruct tok as [|c0 cf]; [apply extends_refl|].
  destruct (Ascii.eqb_spec c0 "-") as [->|Hne].
  - pose proof (while_loop_extends sch (String.length cf) (PAt cf) st) as H3.
    fold (scan_cluster sch cf st) in H3.
    destruct (scan_cluster sch cf st); exact H3.
  - assert (Hpos : match c0 with
                   | "-"%char =>
                       match scan_cluster sch cf st with
                       | Ok st' => SContinue st'
                       | o => SReturn o
                       end
                   | _ => SReturn (Fail (UnexpectedPositionalArgument (String c0 cf)) st)
                   end = SReturn (Fail (UnexpectedPositionalArgument (String c0 cf)) st)).
    { destruct c0 as [[] [] [] [] [] [] [] []]; try reflexivity. contradiction Hne. reflexivity. }
    rewrite Hpos. apply extends_refl.
Qed.

Lemma for_loop_extends sch toks st :
  outcome_extends (option_names sch) st (for_loop sch toks st).
Proof.
  remember (List.length toks) as n eqn:Hn.
  assert (Hle : (List.length toks <= n)%nat) by lia. clear Hn.
  revert toks st Hle. induction n as [|n IH]; intros toks st Hle.
  - destruct toks; [apply extends_refl | cbn in Hle; lia].
  - destruct toks as [|tok rest]; [apply extends_refl|].
    cbn [for_loop]. cbn [List.length] in Hle.
    pose proof (for_body_extends sch tok (head rest) st) as Hb.
    destruct (for_body sch tok (head rest) st) as [out|st'|st']; [exact Hb| |].
    + apply (outcome_extends_trans _ _ st'); [exact Hb|]. apply IH. lia.
    + destruct rest as [|v rest']; [exact Hb|].
      apply (outcome_extends_trans _ _ st'); [exact Hb|]. apply IH. cbn in Hle. lia.
Qed.

Lemma required_loop_writes rs argv i st st' :
  required_loop rs argv i st = Ok st' ->
  writes st' = (writes st ++ map r_name rs)%list.
Proof.
  revert i st. induction rs as [|r rs IH]; intros i st Hrun; cbn [required_loop] in Hrun.
  - injection Hrun as <-. rewrite app_nil_r. reflexivity.
  - destruct (argv !! i) as [text|]; [|discriminate].
    unfold call in Hrun. destruct (_ =? 0); [|discriminate].
    apply IH in Hrun. rewrite Hrun. cbn [set_errno store writes map].
    rewrite <- app_assoc. reflexivity.
Qed.

Lemma parse_args_writes sch argv st st' :
  parse_args sch argv st = Ok st' ->
  exists l,
    writes st' = (writes st ++ map r_name (REQUIRED_ARGS sch) ++ l)%list
    /\ (List.length argv = (1 + REQUIRED_ARG_COUNT sch)%nat -> l = [])
    /\ Forall (fun x => In x (option_names sch)) l.
Proof.
  unfold parse_args. intros Hrun.
  destruct (List.length argv =? 0)%nat; [discriminate|].
  destruct (List.length argv <? 1 + REQUIRED_ARG_COUNT sch)%nat; [discriminate|].
  destruct (required_loop (REQUIRED_ARGS sch) argv 1 st) as [st1| | |] eqn:Hreq;
    try discriminate.
  apply required_loop_writes in Hreq.
  pose proof (for_loop_extends sch (drop (1 + REQUIRED_ARG_COUNT sch) argv) st1) as He.
  rewrite Hrun in He. cbn in He. destruct He as (l & Hl & Hall).
  destruct (decide (List.length argv = (1 + REQUIRED_ARG_COUNT sch)%nat)) as [Hlen|Hlen].
  - rewrite drop_ge in Hrun by lia. cbn in Hrun. injection Hrun as <-.
    exists []. rewrite app_nil_r. split; [exact Hreq|]. split; [reflexivity | constructor].
  - exists l. rewrite Hl, Hreq, <- app_assoc.
    split; [reflexivity|]. split; [intros; contradiction | exact Hall].
Qed.

(** C8 as stated fails: with the schema of examples/01_file_processor.c the
    vector prog in.txt out.txt is parsed with success and the field threads
    is never stored to; on prog in.txt out.txt -h -h the field help is
    stored to twice. *)
Lemma optional_field_not_written_once :
  let sch := Examples.file_processor glibc in
  (exists st,
     parse sch ["prog"; "in.txt"; "out.txt"] = Ok st
     /\ times_written "threads" st = 0%nat
     /\ times_written "threads" st <> 1%nat)
  /\ (exists st,
        parse sch ["prog"; "in.txt"; "out.txt"; "-h"; "-h"] = Ok st
        /\ times_written "help" st = 2%nat
        /\ times_written "help" st <> 1%nat).
Proof.
  split; eexists; (split; [vm_compute; reflexivity|]); split;
    [reflexivity | discriminate | reflexivity | discriminate].
Qed.

(** ** The engine returns

    The fuel of [scan_cluster] is enough: [parse_args] never stops for lack
    of it; and the required phase only reads tokens below [argc]. *)

Section Totality.

Lemma skip_length n s : (String.length (skip n s) <= String.length s)%nat.
Proof.
  revert s. induction n as [|n IH]; intros [|c s]; cbn; try lia.
  specialize (IH s). lia.
Qed.

Lemma resolve_length text a s :
  resolve text a = PAt s -> (String.length s <= String.length text)%nat.
Proof.
  destruct a as [|n]; cbn; [discriminate|]. unfold ptr_add.
  destruct (n <=? String.length text)%nat; [|discriminate].
  intros [= <-]. apply skip_length.
Qed.

Lemma GENERATE_SHORT_OPT_shorter o c cf st :
  flow_shorter (String.length cf) (GENERATE_SHORT_OPT o c cf st).
Proof.
  unfold GENERATE_SHORT_OPT.
  destruct cf as [|c0 text]; [cbn; lia|].
  destruct (Ascii.eqb c0 c); [|cbn; lia].
  destruct text as [|c1 text]; [cbn; discriminate|].
  unfold call.
  destruct (negb (p_ret (o_parser o (String c1 text) (errno st)) =? 0));
    [cbn; discriminate|].
  destruct (resolve (String c1 text) (p_adv (o_parser o (String c1 text) (errno st))))
    as [|[|c2 s]|] eqn:Hr; cbn; try lia; try discriminate.
  apply resolve_length in Hr. cbn in Hr. lia.
Qed.

Lemma flow_shorter_le n m f : (n <= m)%nat -> flow_shorter n f -> flow_shorter m f.
Proof. destruct f; cbn; intros; try lia; assumption. Qed.

Lemma short_optionals_shorter os cf st :
  flow_shorter (String.length cf) (short_optionals os cf st).
Proof.
  revert cf st. induction os as [|o os IH]; intros cf st; [cbn; lia|].
  cbn [short_optionals].
  destruct (o_shortopt o) as [c|]; [|apply IH].
  pose proof (GENERATE_SHORT_OPT_shorter o c cf st) as HG.
  destruct (GENERATE_SHORT_OPT o c cf st) as [out|p st'|cf' st']; try exact HG.
  apply (flow_shorter_le (String.length cf')); [exact HG | apply IH].
Qed.

Lemma short_booleans_shorter bs cf st :
  match short_booleans bs cf st with
  | FReturn o => o <> OutOfFuel
  | FContinue p _ => (plen p < String.length cf)%nat
  | FFall _ _ => True
  end.
Proof.
  induction bs as [|b bs IH]; [exact I|].
  cbn [short_booleans].
  destruct (b_shortopt b) as [c|]; [|exact IH].
  unfold GENERATE_SHORT_BOOL.
  destruct cf as [|c0 rest]; [exact IH|].
  destruct (Ascii.eqb c0 c); [cbn; lia | exact IH].
Qed.

Lemma while_body_shorter sch cf st :
  match while_body sch cf st with
  | Stop o => o <> OutOfFuel
  | Again p _ => (plen p < String.length cf)%nat
  end.
Proof.
  unfold while_body.
  pose proof (short_optionals_shorter (OPTIONAL_ARGS sch) cf st) as H1.
  destruct (short_optionals (OPTIONAL_ARGS sch) cf st) as [out|p st'|cf' st'];
    try exact H1.
  pose proof (short_booleans_shorter (BOOLEAN_ARGS sch) cf' st') as H2.
  cbn in H1.
  destruct (short_booleans (BOOLEAN_ARGS sch) cf' st') as [out|p st''|cf'' st''];
    [exact H2 | lia | discriminate].
Qed.

Lemma while_loop_total sch fuel p st :
  (plen p <= fuel)%nat -> while_loop sch fuel p st <> OutOfFuel.
Proof.
  revert p st. induction fuel as [|fuel IH]; intros p st Hlen.
  - destruct p as [|[|c s]|]; cbn in *; try discriminate. lia.
  - destruct p as [|[|c s]|]; cbn [while_loop]; try discriminate.
    pose proof (while_body_shorter sch (String c s) st) as Hb.
    destruct (while_body sch (String c s) st) as [out|p' st']; [exact Hb|].
    apply IH. cbn in *. lia.
Qed.

Lemma scan_cluster_total sch cf st : scan_cluster sch cf st <> OutOfFuel.
Proof. apply while_loop_total. cbn. lia. Qed.

Lemma long_optionals_total os tok next st :
  long_optionals os tok next st <> Some (SReturn OutOfFuel).
Proof.
  induction os as [|o os IH]; [discriminate|].
  cbn [long_optionals].
  destruct (o_longopt o) as [l|]; [|exact IH].
  unfold GENERATE_LONG_OPT.
  destruct (String.eqb tok (dashdash l)); [|exact IH].
  destruct next as [text|]; [|discriminate].
  destruct (call (o_parser o) (o_name o) text st) as [[error p] st'].
  destruct (negb (error =? 0)); [discriminate|].
  destruct p as [|[|? ?]|]; discriminate.
Qed.

Lemma long_booleans_total bs tok st :
  long_booleans bs tok st <> Some (SReturn OutOfFuel).
Proof.
  induction bs as [|b bs IH]; [discriminate|].
  cbn [long_booleans].
  destruct (b_longopt b) as [l|]; [|exact IH].
  unfold GENERATE_LONG_BOOL.
  destruct (String.eqb tok (dashdash l)); [discriminate | exact IH].
Qed.

Lemma for_body_total sch tok next st : for_body sch tok next st <> SReturn OutOfFuel.
Proof.
  unfold for_body.
  pose proof (long_optionals_total (OPTIONAL_ARGS sch) tok next st) as H1.
  destruct (long_optionals (OPTIONAL_ARGS sch) tok next st) as [s|]; [congruence|].
  pose proof (long_booleans_total (BOOLEAN_ARGS sch) tok st) as H2.
  destruct (long_booleans (BOOLEAN_ARGS sch) tok st) as [s|]; [congruence|].
  destruct tok as [|c0 cf]; [discriminate|].
  pose proof (scan_cluster_total sch cf st) as H3.
  destruct c0 as [[] [] [] [] [] [] [] []]; try discriminate.
  destruct (scan_cluster sch cf st); congruence.
Qed.

Lemma for_loop_total sch toks st : for_loop sch toks st <> OutOfFuel.
Proof.
  remember (List.length toks) as n eqn:Hn.
  assert (Hle : (List.length toks <= n)%nat) by lia. clear Hn.
  revert toks st Hle. induction n as [|n IH]; intros toks st Hle.
  - destruct toks; [discriminate | cbn in Hle; lia].
  - destruct toks as [|tok rest]; [discriminate|].
    cbn [for_loop]. cbn [List.length] in Hle.
    pose proof (for_body_total sch tok (head rest) st) as Hb.
    destruct (for_body sch tok (head rest) st) as [out|st'|st']; [congruence| |].
    + apply IH. lia.
    + destruct rest as [|v rest']; [discriminate|]. apply IH. cbn in Hle. lia.
Qed.

Lemma required_loop_defined rs argv i st :
  (i + List.length rs <= List.length argv)%nat ->
  exists st', required_loop rs argv i st = Ok st'
              \/ exists e, required_loop rs argv i st = Fail e st'.
Proof.
  revert i st. induction rs as [|r rs IH]; intros i st Hlen; cbn [required_loop].
  - eauto.
  - cbn [List.length] in Hlen.
    destruct (lookup_lt_is_Some_2 argv i ltac:(lia)) as [text ->].
    destruct (call (r_parser r) (r_name r) text st) as [[error p] st1].
    destruct (error =? 0); [apply IH; lia | eauto].
Qed.

(** [parse_args] returns 0 or 1 unless a parser sends the engine beyond
    the end of a long-option value. *)
Lemma parse_args_total sch argv st : parse_args sch argv st <> OutOfFuel.
Proof.
  unfold parse_args.
  destruct (List.length argv =? 0)%nat; [discriminate|].
  destruct (List.length argv <? 1 + REQUIRED_ARG_COUNT sch)%nat eqn:Hlt; [discriminate|].
  apply Nat.ltb_ge in Hlt.
  destruct (required_loop_defined (REQUIRED_ARGS sch) argv 1 st)
    as (st1 & [-> | (e & ->)]).
  - unfold REQUIRED_ARG_COUNT in Hlt. lia.
  - apply for_loop_total.
  - discriminate.
Qed.

End Totality.

(** * Further properties of the header *)

(** ** The defaults of [make_default_args] *)

Section Defaults.

Context {A : Type} (key : A -> string) (val : A -> value).

Lemma foldl_insert_other (l : list A) (m : gmap string value) (name : string) :
  ~ In name (map key l) ->
  foldl (fun m x => <[key x := val x]> m) m l !! name = m !! name.
Proof.
  revert m. induction l as [|x l IH]; intros m Hnot; [reflexivity|].
  cbn [foldl map In] in *. rewrite IH by tauto.
  apply lookup_insert_ne. tauto.
Qed.

Lemma foldl_insert_member (l : list A) (m : gmap string value) (x : A) :
  List.NoDup (map key l) -> In x l ->
  foldl (fun m x => <[key x := val x]> m) m l !! key x = Some (val x).
Proof.
  revert m. induction l as [|y l IH]; intros m Hnd Hin; [destruct Hin|].
  cbn [foldl map] in *. apply List.NoDup_cons_iff in Hnd as [Hy Hnd].
  destruct Hin as [->|Hin]; [|auto].
  rewrite foldl_insert_other by exact Hy. apply lookup_insert_eq.
Qed.

End Defaults.

Lemma field_names_split sch :
  NoDup (field_names sch) ->
  List.NoDup (map r_name (REQUIRED_ARGS sch))
  /\ List.NoDup (map o_name (OPTIONAL_ARGS sch))
  /\ List.NoDup (map b_name (BOOLEAN_ARGS sch))
  /\ (forall x, In x (map r_name (REQUIRED_ARGS sch)) ->
        ~ In x (map o_name (OPTIONAL_ARGS sch)) /\ ~ In x (map b_name (BOOLEAN_ARGS sch)))
  /\ (forall x, In x (map o_name (OPTIONAL_ARGS sch)) ->
        ~ In x (map b_name (BOOLEAN_ARGS sch))).
Proof.
  unfold field_names. intros Hnd.
  apply NoDup_app in Hnd as (Hr & Hro & Hnd).
  apply NoDup_app in Hnd as (Ho & Hob & Hb).
  rewrite !NoDup_ListNoDup in *.
  repeat split; try assumption.
  - intros Hin. apply (Hro x); [apply list_elem_of_In; assumption|].
    apply list_elem_of_In, in_or_app. left. exact Hin.
  - intros Hin. apply (Hro x); [apply list_elem_of_In; assumption|].
    apply list_elem_of_In, in_or_app. right. exact Hin.
  - intros x Hx Hin. apply (Hob x); apply list_elem_of_In; assumption.
Qed.

Lemma default_fields (sch : schema) :
  NoDup (field_names sch) ->
  (forall r, In r (REQUIRED_ARGS sch) ->
     make_default_args sch !! r_name r = Some (zero_of (r_type r)))
  /\ (forall o, In o (OPTIONAL_ARGS sch) ->
        make_default_args sch !! o_name o = Some (o_default o))
  /\ (forall b, In b (BOOLEAN_ARGS sch) ->
        make_default_args sch !! b_name b = Some (VBool false))
  /\ (forall name, ~ In name (field_names sch) -> make_default_args sch !! name = None).
Proof.
  intros Hnd. destruct (field_names_split sch Hnd) as (Hr & Ho & Hb & Hro & Hob).
  unfold make_default_args. cbv zeta. repeat split.
  - intros r Hin.
    assert (Hn : In (r_name r) (map r_name (REQUIRED_ARGS sch))) by (apply in_map, Hin).
    rewrite (foldl_insert_other b_name) by (apply Hro, Hn).
    rewrite (foldl_insert_other o_name) by (apply Hro, Hn).
    apply (foldl_insert_member r_name (fun r => zero_of (r_type r))); assumption.
  - intros o Hin.
    assert (Hn : In (o_name o) (map o_name (OPTIONAL_ARGS sch))) by (apply in_map, Hin).
    rewrite (foldl_insert_other b_name) by (apply Hob, Hn).
    apply (foldl_insert_member o_name o_default); assumption.
  - intros b Hin.
    apply (foldl_insert_member b_name (fun _ => VBool false)); assumption.
  - intros name Hnot. unfold field_names in Hnot.
    rewrite (foldl_insert_other b_name)
      by (intros H; apply Hnot; apply in_or_app; right; apply in_or_app; right; exact H).
    rewrite (foldl_insert_other o_name)
      by (intros H; apply Hnot; apply in_or_app; right; apply in_or_app; left; exact H).
    rewrite (foldl_insert_other r_name)
      by (intros H; apply Hnot; apply in_or_app; left; exact H).
    apply lookup_empty.
Qed.

(** With field names that differ, as the struct requires, the container
    of [make_default_args] holds [(type)0] in every required field, the
    declared default in every optional field and false in every boolean
    field, and has no other field. *)
Theorem make_default_args_fields (sch : schema) :
  NoDup (field_names sch) ->
  (forall r, In r (REQUIRED_ARGS sch) ->
     make_default_args sch !! r_name r = Some (zero_of (r_type r)))
  /\ (forall o, In o (OPTIONAL_ARGS sch) ->
        make_default_args sch !! o_name o = Some (o_default o))
  /\ (forall b, In b (BOOLEAN_ARGS sch) ->
        make_default_args sch !! b_name b = Some (VBool false))
  /\ (forall name, ~ In name (field_names sch) -> make_default_args sch !! name = None).
Proof. exact (default_fields sch). Qed.

Lemma file_processor_names (lc : libc) : NoDup (field_names (Examples.file_processor lc)).
Proof.
  apply NoDup_ListNoDup, (proj2 (List.NoDup_count_occ' String.string_dec _)).
  intros x Hx. cbn in Hx.
  destruct Hx as [<-|[<-|[<-|[<-|[]]]]]; reflexivity.
Qed.

Lemma make_default_args_fields_witness :
  let sch := Examples.file_processor glibc in
  NoDup (field_names sch)
  /\ make_default_args sch !! "threads" = Some (VInt 1)
  /\ make_default_args sch !! "help" = Some (VBool false)
  /\ make_default_args sch !! "input_file" = Some VNull.
Proof.
  pose proof (make_default_args_fields (Examples.file_processor glibc)
                (file_processor_names glibc)) as (Hr & Ho & Hb & _).
  split; [apply file_processor_names|]. split; [|split].
  - apply (Ho (Examples.threads glibc)). simpl. left. reflexivity.
  - apply (Hb (BOOLEAN_ARG "help" (Some "h"%char) (Some "help") "Show help")).
    simpl. left. reflexivity.
  - apply (Hr (REQUIRED_STRING_ARG "input_file" "input" "Input file path")).
    simpl. left. reflexivity.
Defined.

(** ** What a parse pass changes in the container *)

Section StoresBy.

Variable P : string -> value -> Prop.

Lemma stores_by_trans st1 st2 st3 :
  stores_by P st1 st2 -> stores_by P st2 st3 -> stores_by P st1 st3.
Proof.
  intros H12 H23. induction H23; [exact H12 | |]; constructor; assumption.
Qed.

Lemma stores_by_call p name text st :
  (forall v, P name v) -> stores_by P st (call p name text st).2.
Proof.
  intros HP. unfold call. cbn [snd].
  apply stores_errno, stores_store; [apply stores_none | apply HP].
Qed.

Lemma outcome_by_trans st1 st2 o :
  stores_by P st1 st2 -> outcome_by P st2 o -> outcome_by P st1 o.
Proof. destruct o; cbn; eauto using stores_by_trans. Qed.

Lemma flow_by_trans st1 st2 f :
  stores_by P st1 st2 -> flow_by P st2 f -> flow_by P st1 f.
Proof. destruct f; cbn; eauto using stores_by_trans, outcome_by_trans. Qed.

(** The log and the container after stores that satisfy [P]. *)
Lemma stores_by_log st st' :
  stores_by P st st' ->
  exists l,
    writes st' = (writes st ++ l)%list
    /\ (forall name, ~ In name l -> fields st' !! name = fields st !! name)
    /\ (forall name, In name l -> exists v, fields st' !! name = Some v /\ P name v).
Proof.
  induction 1 as [|st' name v Hby IH HP|st' e Hby IH].
  - exists []. rewrite app_nil_r. split; [reflexivity|]. split; [reflexivity|].
    intros name [].
  - destruct IH as (l & Hl & Hout & Hin).
    exists (l ++ [name])%list. cbn [store writes fields].
    rewrite Hl, app_assoc. split; [reflexivity|]. split.
    + intros name0 Hnot. rewrite lookup_insert_ne.
      * apply Hout. intros H. apply Hnot, in_or_app. left. exact H.
      * intros ->. apply Hnot, in_or_app. right. left. reflexivity.
    + intros name0 Hin0.
      destruct (decide (name = name0)) as [->|Hne].
      * exists v. rewrite lookup_insert_eq. split; [reflexivity | exact HP].
      * rewrite lookup_insert_ne by exact Hne. apply Hin.
        apply in_app_or in Hin0 as [H|[H|[]]]; [exact H | contradiction].
  - exact IH.
Qed.

Lemma short_optionals_by os cf st :
  Forall (fun o => forall v, P (o_name o) v) os ->
  flow_by P st (short_optionals os cf st).
Proof.
  intros Hos. revert cf st. induction Hos as [|o os' Ho Hall IH]; intros cf st; [apply stores_none|].
  cbn [short_optionals].
  destruct (o_shortopt o) as [c|]; [|apply IH].
  assert (HG : flow_by P st (GENERATE_SHORT_OPT o c cf st)).
  { unfold GENERATE_SHORT_OPT.
    destruct cf as [|c0 text]; [apply stores_none|].
    destruct (Ascii.eqb c0 c); [|apply stores_none].
    destruct text as [|c1 text]; [apply stores_none|].
    pose proof (stores_by_call (o_parser o) (o_name o) (String c1 text) st Ho) as Hc.
    destruct (call (o_parser o) (o_name o) (String c1 text) st) as [[error p] st'].
    cbn [snd] in Hc.
    destruct (negb (error =? 0)); [exact Hc|].
    destruct p as [|[|? ?]|]; cbn; auto. }
  destruct (GENERATE_SHORT_OPT o c cf st) as [out|p st'|cf' st']; try exact HG.
  apply (flow_by_trans _ st'); [exact HG | apply IH].
Qed.

Lemma short_booleans_by bs cf st :
  Forall (fun b => P (b_name b) (VBool true)) bs ->
  flow_by P st (short_booleans bs cf st).
Proof.
  intros Hbs. revert cf st. induction Hbs as [|b bs' Hb Hall IH]; intros cf st; [apply stores_none|].
  cbn [short_booleans].
  destruct (b_shortopt b) as [c|]; [|apply IH].
  unfold GENERATE_SHORT_BOOL.
  destruct cf as [|c0 rest]; [apply IH|].
  destruct (Ascii.eqb c0 c); [|apply IH].
  cbn. apply stores_store; [apply stores_none | exact Hb].
Qed.

Lemma long_optionals_by os tok next st :
  Forall (fun o => forall v, P (o_name o) v) os ->
  match long_optionals os tok next st with
  | Some s => step_by P st s
  | None => True
  end.
Proof.
  intros Hos. induction Hos as [|o os' Ho Hall IH]; [exact I|].
  cbn [long_optionals].
  destruct (o_longopt o) as [l|]; [|exact IH].
  unfold GENERATE_LONG_OPT.
  destruct (String.eqb tok (dashdash l)); [|exact IH].
  destruct next as [text|]; [|apply stores_none].
  pose proof (stores_by_call (o_parser o) (o_name o) text st Ho) as Hc.
  destruct (call (o_parser o) (o_name o) text st) as [[error p] st'].
  cbn [snd] in Hc.
  destruct (negb (error =? 0)); [exact Hc|].
  destruct p as [|[|? ?]|]; cbn; auto.
Qed.

Lemma long_booleans_by bs tok st :
  Forall (fun b => P (b_name b) (VBool true)) bs ->
  match long_booleans bs tok st with
  | Some s => step_by P st s
  | None => True
  end.
Proof.
  intros Hbs. induction Hbs as [|b bs' Hb Hall IH]; [exact I|].
  cbn [long_booleans].
  destruct (b_longopt b) as [l|]; [|exact IH].
  unfold GENERATE_LONG_BOOL.
  destruct (String.eqb tok (dashdash l)); [|exact IH].
  cbn. apply stores_store; [apply stores_none | exact Hb].
Qed.

End StoresBy.

Section EngineStores.

Variable sch : schema.

Lemma engine_optionals :
  Forall (fun o => forall v, engine_store sch (o_name o) v) (OPTIONAL_ARGS sch).
Proof.
  apply List.Forall_forall. intros o Ho v. right. left. apply in_map, Ho.
Qed.

Lemma engine_booleans :
  Forall (fun b => engine_store sch (b_name b) (VBool true)) (BOOLEAN_ARGS sch).
Proof.
  apply List.Forall_forall. intros b Hb. right. right.
  split; [apply in_map, Hb | reflexivity].
Qed.

Lemma while_loop_by fuel p st :
  outcome_by (engine_store sch) st (while_loop sch fuel p st).
Proof.
  revert p st. induction fuel as [|fuel IH]; intros p st.
  - destruct p as [|[|? ?]|]; cbn; auto using stores_none.
  - destruct p as [|[|c text]|]; cbn [while_loop outcome_by]; auto using stores_none.
    unfold while_body.
    pose proof (short_optionals_by _ _ (String c text) st engine_optionals) as H1.
    destruct (short_optionals (OPTIONAL_ARGS sch) (String c text) st)
      as [out|p' st'|cf' st']; cbn in H1.
    + exact H1.
    + apply (outcome_by_trans _ _ st'); [exact H1 | apply IH].
    + pose proof (short_booleans_by _ _ cf' st' engine_booleans) as H2.
      destruct (short_booleans (BOOLEAN_ARGS sch) cf' st') as [out|p' st''|cf'' st''];
        cbn in H2.
      * apply (outcome_by_trans _ _ st'); assumption.
      * apply (outcome_by_trans _ _ st''); [|apply IH].
        apply (stores_by_trans _ _ st'); assumption.
      * cbn. apply (stores_by_trans _ _ st'); assumption.
Qed.

Lemma for_body_by tok next st : step_by (engine_store sch) st (for_body sch tok next st).
Proof.
  unfold for_body.
  pose proof (long_optionals_by _ _ tok next st engine_optionals) as H1.
  destruct (long_optionals (OPTIONAL_ARGS sch) tok next st) as [s|]; [exact H1|].
  pose proof (long_booleans_by _ _ tok st engine_booleans) as H2.
  destruct (long_booleans (BOOLEAN_ARGS sch) tok st) as [s|]; [exact H2|].
  destruct tok as [|c0 cf]; [apply stores_none|].
  pose proof (while_loop_by (String.length cf) (PAt cf) st) as H3.
  fold (scan_cluster sch cf st) in H3.
  destruct c0 as [[] [] [] [] [] [] [] []]; try apply stores_none.
  destruct (scan_cluster sch cf st); exact H3.
Qed.

Lemma for_loop_by toks st : outcome_by (engine_store sch) st (for_loop sch toks st).
Proof.
  remember (List.length toks) as n eqn:Hn.
  assert (Hle : (List.length toks <= n)%nat) by lia. clear Hn.
  revert toks st Hle. induction n as [|n IH]; intros toks st Hle.
  - destruct toks; [apply stores_none | cbn in Hle; lia].
  - destruct toks as [|tok rest]; [apply stores_none|].
    cbn [for_loop]. cbn [List.length] in Hle.
    pose proof (for_body_by tok (head rest) st) as Hb.
    destruct (for_body sch tok (head rest) st) as [out|st'|st']; [exact Hb| |].
    + apply (outcome_by_trans _ _ st'); [exact Hb|]. apply IH. lia.
    + destruct rest as [|v rest']; [exact Hb|].
      apply (outcome_by_trans _ _ st'); [exact Hb|]. apply IH. cbn in Hle. lia.
Qed.

Lemma required_loop_by rs argv i st :
  Forall (fun r => forall v, engine_store sch (r_name r) v) rs ->
  outcome_by (engine_store sch) st (required_loop rs argv i st).
Proof.
  intros Hall. revert i st.
  induction Hall as [|r rs Hr Hall IH]; intros i st; [apply stores_none|].
  cbn [required_loop].
  destruct (argv !! i) as [text|]; [|exact I].
  pose proof (stores_by_call _ (r_parser r) (r_name r) text st Hr) as Hc.
  destruct (call (r_parser r) (r_name r) text st) as [[error p] st'].
  cbn [snd] in Hc.
  destruct (error =? 0); [|exact Hc].
  apply (outcome_by_trans _ _ st'); [exact Hc | apply IH].
Qed.

Lemma parse_args_by argv st : outcome_by (engine_store sch) st (parse_args sch argv st).
Proof.
  unfold parse_args.
  destruct (List.length argv =? 0)%nat; [apply stores_none|].
  destruct (List.length argv <? 1 + REQUIRED_ARG_COUNT sch)%nat; [apply stores_none|].
  assert (Hreq : Forall (fun r => forall v, engine_store sch (r_name r) v)
                   (REQUIRED_ARGS sch)).
  { apply List.Forall_forall. intros r Hr v. left. apply in_map, Hr. }
  pose proof (required_loop_by _ argv 1 st Hreq) as H1.
  destruct (required_loop (REQUIRED_ARGS sch) argv 1 st) as [st1| | |]; try exact H1.
  apply (outcome_by_trans _ _ st1); [exact H1 | apply for_loop_by].
Qed.

End EngineStores.

(** After [make_default_args] and [parse_args], whatever the latter
    returned, a boolean field is true exactly if the pass stored to it: the
    engine never stores false, and no parser can reach a boolean field. *)
Theorem boolean_field_set_iff_written (sch : schema) (argv : list string) (st' : state) :
  NoDup (field_names sch) ->
  final_state (parse sch argv) = Some st' ->
  forall b, In b (BOOLEAN_ARGS sch) ->
    fields st' !! b_name b
    = Some (VBool (negb (Nat.eqb (times_written (b_name b) st') 0))).
Proof.
  intros Hnd Hfin b Hb. unfold parse in Hfin.
  assert (Hby : stores_by (engine_store sch) (fresh sch) st').
  { pose proof (parse_args_by sch argv (fresh sch)) as H.
    destruct (parse_args sch argv (fresh sch)); cbn in *; try discriminate;
      injection Hfin as <-; exact H. }
  destruct (stores_by_log _ _ _ Hby) as (l & Hl & Hout & Hin).
  cbn [fresh writes app] in Hl. unfold times_written. rewrite Hl.
  destruct (in_dec String.string_dec (b_name b) l) as [Hyes|Hno].
  - destruct (Hin _ Hyes) as (v & Hv & HP).
    apply (count_occ_In String.string_dec) in Hyes.
    replace (Nat.eqb (count_occ String.string_dec l (b_name b)) 0) with false
      by (symmetry; apply Nat.eqb_neq; lia).
    rewrite Hv. cbn [negb].
    destruct (field_names_split sch Hnd) as (_ & _ & _ & Hro & Hob).
    assert (Hbn : In (b_name b) (map b_name (BOOLEAN_ARGS sch))) by (apply in_map, Hb).
    destruct HP as [Hr|[Ho|[_ ->]]]; [| |reflexivity].
    + destruct (Hro _ Hr) as [_ Hx]. contradiction.
    + destruct (Hob _ Ho). exact Hbn.
  - rewrite (Hout _ Hno).
    apply (count_occ_not_In String.string_dec) in Hno. rewrite Hno. cbn [Nat.eqb negb fresh fields].
    apply (default_fields sch Hnd), Hb.
Qed.

Lemma boolean_field_set_iff_written_witness :
  let sch := Examples.file_processor glibc in
  let st' := store "help" (VBool true)
               (store "output_file" (VStr "out.txt")
                  (store "input_file" (VStr "in.txt") (fresh sch))) in
  NoDup (field_names sch)
  /\ final_state (parse sch ["prog"; "in.txt"; "out.txt"; "--help"]) = Some st'
  /\ fields st' !! "help" = Some (VBool (negb (Nat.eqb (times_written "help" st') 0))).
Proof.
  set (sch := Examples.file_processor glibc).
  set (st' := store "help" (VBool true)
                (store "output_file" (VStr "out.txt")
                   (store "input_file" (VStr "in.txt") (fresh sch)))).
  assert (Hfin : final_state (parse sch ["prog"; "in.txt"; "out.txt"; "--help"]) = Some st')
    by (vm_compute; reflexivity).
  split; [apply file_processor_names|]. split; [exact Hfin|].
  exact (boolean_field_set_iff_written sch _ st' (file_processor_names glibc) Hfin
           (BOOLEAN_ARG "help" (Some "h"%char) (Some "help") "Show help")
           (or_introl eq_refl)).
Defined.

(** ** Cutting the options phase at a token boundary *)

Lemma long_optionals_next os tok next st :
  long_optionals os tok None st = None -> long_optionals os tok next st = None.
Proof.
  induction os as [|o os IH]; [reflexivity|].
  cbn [long_optionals].
  destruct (o_longopt o) as [l|]; [|exact IH].
  unfold GENERATE_LONG_OPT.
  destruct (String.eqb tok (dashdash l)); [discriminate | exact IH].
Qed.

Lemma long_optionals_missing os tok st s :
  long_optionals os tok None st = Some s ->
  exists l, s = SReturn (Fail (OptionRequiresValue (dashdash l)) st).
Proof.
  induction os as [|o os IH]; [discriminate|].
  cbn [long_optionals].
  destruct (o_longopt o) as [l|]; [|exact IH].
  unfold GENERATE_LONG_OPT.
  destruct (String.eqb tok (dashdash l)); [|exact IH].
  intros [= <-]. exists l. reflexivity.
Qed.

Lemma dashdash_not_never_long l : ~ never_long (dashdash l).
Proof. intros H. specialize (H l). rewrite String.eqb_refl in H. discriminate. Qed.

(** The outcomes that do not depend on what follows the last token. *)
Lemma for_body_next sch tok next st :
  (forall l, for_body sch tok None st
             <> SReturn (Fail (OptionRequiresValue (dashdash l)) st)) ->
  for_body sch tok next st = for_body sch tok None st.
Proof.
  intros Hsafe. unfold for_body in *.
  destruct (long_optionals (OPTIONAL_ARGS sch) tok None st) as [s|] eqn:H1.
  - destruct (long_optionals_missing _ _ _ _ H1) as (l & ->).
    exfalso. apply (Hsafe l). reflexivity.
  - rewrite (long_optionals_next _ _ next _ H1). reflexivity.
Qed.

(** An iteration only returns on an error. *)
Lemma long_optionals_no_ok os tok next st st' :
  long_optionals os tok next st <> Some (SReturn (Ok st')).
Proof.
  induction os as [|o os IH]; [discriminate|].
  cbn [long_optionals].
  destruct (o_longopt o) as [l|]; [|exact IH].
  unfold GENERATE_LONG_OPT.
  destruct (String.eqb tok (dashdash l)); [|exact IH].
  destruct next as [text|]; [|discriminate].
  destruct (call (o_parser o) (o_name o) text st) as [[error p] st1].
  destruct (negb (error =? 0)); [discriminate|].
  destruct p as [|[|? ?]|]; discriminate.
Qed.

Lemma long_booleans_no_return bs tok st o :
  long_booleans bs tok st <> Some (SReturn o).
Proof.
  induction bs as [|b bs IH]; [discriminate|].
  cbn [long_booleans].
  destruct (b_longopt b) as [l|]; [|exact IH].
  unfold GENERATE_LONG_BOOL.
  destruct (String.eqb tok (dashdash l)); [discriminate | exact IH].
Qed.

Lemma for_body_no_ok sch tok next st st' :
  for_body sch tok next st <> SReturn (Ok st').
Proof.
  unfold for_body.
  pose proof (long_optionals_no_ok (OPTIONAL_ARGS sch) tok next st st') as H1.
  destruct (long_optionals (OPTIONAL_ARGS sch) tok next st) as [s|]; [congruence|].
  pose proof (long_booleans_no_return (BOOLEAN_ARGS sch) tok st (Ok st')) as H2.
  destruct (long_booleans (BOOLEAN_ARGS sch) tok st) as [s|]; [congruence|].
  destruct tok as [|c0 cf]; [discriminate|].
  destruct c0 as [[] [] [] [] [] [] [] []]; try discriminate.
  destruct (scan_cluster sch cf st); discriminate.
Qed.

Lemma for_loop_prefix sch t1 t2 st :
  match for_loop sch t1 st with
  | Ok st' => for_loop sch (t1 ++ t2) st = for_loop sch t2 st'
  | Fail e st' => not_missing_long_value e -> for_loop sch (t1 ++ t2) st = Fail e st'
  | _ => True
  end.
Proof.
  remember (List.length t1) as n eqn:Hn.
  assert (Hle : (List.length t1 <= n)%nat) by lia. clear Hn.
  revert t1 st Hle. induction n as [|n IH]; intros t1 st Hle.
  - destruct t1; [reflexivity | cbn in Hle; lia].
  - destruct t1 as [|tok rest]; [reflexivity|].
    cbn [List.length] in Hle. cbn [for_loop app].
    destruct rest as [|v rest'].
    + (* the last token of the prefix *)
      cbn [head app].
      destruct (for_body sch tok None st) as [out|st'|st'] eqn:Hb.
      * destruct out as [st'|e st'| |]; try exact I.
        -- exfalso. exact (for_body_no_ok _ _ _ _ _ Hb).
        -- intros He. rewrite for_body_next, Hb; [reflexivity|].
           rewrite Hb. intros l [= -> <-]. exact (dashdash_not_never_long l He).
      * rewrite for_body_next, Hb by (rewrite Hb; discriminate). reflexivity.
      * exfalso. destruct (for_body_after_value _ _ _ _ _ Hb) as (o & l & Hin & Hl & ->).
        unfold for_body in Hb.
        rewrite (long_optionals_last _ o l st Hin Hl) in Hb. discriminate.
    + change (head ((v :: rest') ++ t2)%list) with (Some v). cbn [head].
      destruct (for_body sch tok (Some v) st) as [out|st'|st'] eqn:Hb.
      * destruct out; try exact I; [|intros _; reflexivity].
        exfalso. exact (for_body_no_ok _ _ _ _ _ Hb).
      * apply (IH (v :: rest') st'). lia.
      * cbn [app]. apply (IH rest' st'). cbn in Hle. lia.
Qed.

Lemma parse_args_prefix sch argv t2 st st' :
  parse_args sch argv st = Ok st' ->
  parse_args sch (argv ++ t2) st = for_loop sch t2 st'.
Proof.
  unfold parse_args. rewrite length_app.
  destruct (List.length argv =? 0)%nat eqn:E0; [discriminate|].
  destruct (List.length argv <? 1 + REQUIRED_ARG_COUNT sch)%nat eqn:E1; [discriminate|].
  apply Nat.eqb_neq in E0. apply Nat.ltb_ge in E1.
  replace (List.length argv + List.length t2 =? 0)%nat with false
    by (symmetry; apply Nat.eqb_neq; lia).
  replace (List.length argv + List.length t2 <? 1 + REQUIRED_ARG_COUNT sch)%nat with false
    by (symmetry; apply Nat.ltb_ge; lia).
  rewrite required_loop_app by (unfold REQUIRED_ARG_COUNT in E1; lia).
  destruct (required_loop (REQUIRED_ARGS sch) argv 1 st) as [st1| | |]; try discriminate.
  intros H. rewrite drop_app_le by lia.
  pose proof (for_loop_prefix sch (drop (1 + REQUIRED_ARG_COUNT sch) argv) t2 st1) as Hp.
  rewrite H in Hp. exact Hp.
Qed.

(** A list of tokens that is parsed with success can be extended: the
    loop of the options phase on a longer list is the loop on the added
    tokens, started in the state the first ones left, and so is
    [parse_args] on a longer vector. Options are handled strictly from left
    to right, one or two tokens at a time. *)
Theorem options_phase_composes (sch : schema) (t2 : list string) (st st' : state) :
  (forall t1, for_loop sch t1 st = Ok st' ->
              for_loop sch (t1 ++ t2) st = for_loop sch t2 st')
  /\ (forall argv, parse_args sch argv st = Ok st' ->
                   parse_args sch (argv ++ t2) st = for_loop sch t2 st').
Proof.
  split.
  - intros t1 H. pose proof (for_loop_prefix sch t1 t2 st) as Hp. rewrite H in Hp. exact Hp.
  - intros argv. apply parse_args_prefix.
Qed.

Lemma options_phase_composes_witness :
  let sch := Examples.file_processor glibc in
  let st' := set_errno 0 (store "threads" (VInt 4) (fresh sch)) in
  for_loop sch ["--threads"; "4"] (fresh sch) = Ok st'
  /\ for_loop sch (["--threads"; "4"] ++ ["-h"]) (fresh sch) = for_loop sch ["-h"] st'.
Proof.
  assert (H : for_loop (Examples.file_processor glibc) ["--threads"; "4"]
                (fresh (Examples.file_processor glibc))
              = Ok (set_errno 0 (store "threads" (VInt 4)
                      (fresh (Examples.file_processor glibc)))))
    by (vm_compute; reflexivity).
  split; [exact H|].
  exact (proj1 (options_phase_composes _ ["-h"] _ _) _ H).
Defined.

(** The first error ends the pass: when the loop fails on a list of
    tokens, it fails in the same way and in the same state whatever tokens
    are appended, unless the error is the missing value of a long option
    at the end of the list. *)
Theorem first_error_is_final (sch : schema) (t1 t2 : list string) (st st' : state)
    (e : parse_error) :
  for_loop sch t1 st = Fail e st' ->
  not_missing_long_value e ->
  for_loop sch (t1 ++ t2) st = Fail e st'.
Proof.
  intros H He. pose proof (for_loop_prefix sch t1 t2 st) as Hp. rewrite H in Hp.
  exact (Hp He).
Qed.

Lemma first_error_is_final_witness :
  let sch := Examples.file_processor glibc in
  for_loop sch ["-x"] (fresh sch) = Fail (UnknownFlag "x") (fresh sch)
  /\ not_missing_long_value (UnknownFlag "x")
  /\ for_loop sch (["-x"] ++ ["-h"; "--threads"; "4"]) (fresh sch)
     = Fail (UnknownFlag "x") (fresh sch).
Proof.
  assert (H : for_loop (Examples.file_processor glibc) ["-x"]
                (fresh (Examples.file_processor glibc))
              = Fail (UnknownFlag "x") (fresh (Examples.file_processor glibc)))
    by (vm_compute; reflexivity).
  split; [exact H|]. split; [exact I|].
  exact (first_error_is_final _ _ ["-h"; "--threads"; "4"] _ _ _ H I).
Defined.

(** ** Required strings *)

Lemma store_same_errno name v st : set_errno (errno st) (store name v st) = store name v st.
Proof. reflexivity. Qed.

Lemma required_strings_loop rs argv i st :
  Forall (fun r => r_parser r = parse_str) rs ->
  (i + List.length rs <= List.length argv)%nat ->
  exists st',
    required_loop rs argv i st = Ok st'
    /\ errno st' = errno st
    /\ (forall name, ~ In name (map r_name rs) -> fields st' !! name = fields st !! name)
    /\ (List.NoDup (map r_name rs) ->
        forall k r, rs !! k = Some r ->
                    fields st' !! r_name r = VStr <$> argv !! (i + k)%nat).
Proof.
  intros Hall. revert i st.
  induction Hall as [|r rs Hr Hall IH]; intros i st Hlen.
  - exists st. cbn. repeat split; try reflexivity. intros _ k r Hk. destruct k; discriminate.
  - cbn [List.length] in Hlen. cbn [required_loop].
    destruct (lookup_lt_is_Some_2 argv i ltac:(lia)) as [text Htext].
    rewrite Htext. unfold call. rewrite Hr. cbn [parse_str p_ret p_out p_adv p_errno Z.eqb].
    rewrite store_same_errno.
    destruct (IH (S i) (store (r_name r) (VStr text) st) ltac:(lia))
      as (st' & Hrun & He & Hout & Hin).
    exists st'. split; [exact Hrun|]. split; [exact He|]. split.
    + intros name Hnot. cbn [map In] in Hnot.
      rewrite Hout by tauto. cbn [store fields]. apply lookup_insert_ne. tauto.
    + intros Hnd k r' Hk. cbn [map] in Hnd. apply List.NoDup_cons_iff in Hnd as [Hfirst Hnd].
      destruct k as [|k]; cbn in Hk.
      * injection Hk as <-. rewrite Hout by exact Hfirst.
        cbn [store fields]. rewrite lookup_insert_eq, Nat.add_0_r, Htext. reflexivity.
      * rewrite (Hin Hnd k r' Hk). f_equal. f_equal. lia.
Qed.

(** Required arguments declared as strings never fail: each takes the
    token at its position as it is, also one that looks like an option or
    is empty, and [errno] is left alone. *)
Theorem required_strings_verbatim (rs : list required_arg) (argv : list string)
    (i : nat) (st : state) :
  Forall (fun r => r_parser r = parse_str) rs ->
  (i + List.length rs <= List.length argv)%nat ->
  exists st',
    required_loop rs argv i st = Ok st'
    /\ errno st' = errno st
    /\ (List.NoDup (map r_name rs) ->
        forall k r, rs !! k = Some r ->
                    fields st' !! r_name r = VStr <$> argv !! (i + k)%nat).
Proof.
  intros Hall Hlen.
  destruct (required_strings_loop rs argv i st Hall Hlen) as (st' & H1 & H2 & _ & H4).
  exists st'. auto.
Qed.

Lemma required_strings_verbatim_witness :
  let rs := REQUIRED_ARGS Examples.requireds_only in
  let argv := ["prog"; "--help"; "-"] in
  Forall (fun r => r_parser r = parse_str) rs
  /\ (1 + List.length rs <= List.length argv)%nat
  /\ exists st',
       required_loop rs argv 1 (fresh Examples.requireds_only) = Ok st'
       /\ errno st' = 0
       /\ (List.NoDup (map r_name rs) ->
           forall k r, rs !! k = Some r ->
                       fields st' !! r_name r = VStr <$> argv !! (1 + k)%nat).
Proof.
  assert (H1 : Forall (fun r => r_parser r = parse_str)
                 (REQUIRED_ARGS Examples.requireds_only))
    by (repeat constructor).
  assert (H2 : (1 + List.length (REQUIRED_ARGS Examples.requireds_only)
                <= List.length ["prog"; "--help"; "-"])%nat) by (cbn; lia).
  split; [exact H1|]. split; [exact H2|].
  exact (required_strings_verbatim _ ["prog"; "--help"; "-"] 1
           (fresh Examples.requireds_only) H1 H2).
Defined.

(** ** Options with a string value *)

Lemma for_loop_long_string sch o l v rest st :
  first_long l (OPTIONAL_ARGS sch) = Some o ->
  o_parser o = parse_str ->
  for_loop sch (dashdash l :: v :: rest) st
  = for_loop sch rest (store (o_name o) (VStr v) st).
Proof.
  intros Hf Hp. cbn [for_loop head]. unfold for_body.
  rewrite (long_optionals_first _ o l _ st Hf).
  unfold GENERATE_LONG_OPT. rewrite String.eqb_refl. unfold call. rewrite Hp.
  cbn [parse_str p_ret p_out p_adv p_errno resolve Z.eqb negb].
  rewrite store_same_errno. reflexivity.
Qed.

Lemma scan_cluster_short_string sch o post c c1 text st :
  split_short c (OPTIONAL_ARGS sch) = Some (o, post) ->
  o_parser o = parse_str ->
  scan_cluster sch (String c (String c1 text)) st
  = Ok (store (o_name o) (VStr (String c1 text)) st).
Proof.
  intros Hs Hp. unfold scan_cluster. cbn [String.length while_loop]. unfold while_body.
  rewrite (short_optionals_split _ o post c _ st Hs).
  cbn [GENERATE_SHORT_OPT]. rewrite Ascii.eqb_refl. unfold call. rewrite Hp.
  cbn [parse_str p_ret p_out p_adv p_errno resolve Z.eqb negb].
  rewrite store_same_errno. reflexivity.
Qed.

(** ** Tokens that are no declared option *)

Lemma never_long_no_marker tok : first_char tok <> "-"%char -> never_long tok.
Proof.
  intros Hc l. rewrite long_name. destruct tok as [|c tok]; [reflexivity|].
  cbn in *. destruct (Ascii.eqb_spec c "-"); [contradiction | reflexivity].
Qed.

(** In the options phase a token that does not start with the marker, the
    empty token included, ends the pass with the invalid-argument error
    and without a store: there is no positional argument after the
    required ones. *)
Theorem extra_positional_rejected (sch : schema) (tok : string) (rest : list string)
    (st : state) :
  first_char tok <> "-"%char ->
  for_loop sch (tok :: rest) st = Fail (UnexpectedPositionalArgument tok) st.
Proof.
  intros Hc. cbn [for_loop]. unfold for_body.
  rewrite long_optionals_never, long_booleans_never by (apply never_long_no_marker, Hc).
  destruct tok as [|c tok]; [reflexivity|].
  cbn in Hc. destruct c as [[] [] [] [] [] [] [] []]; try reflexivity.
  contradiction Hc. reflexivity.
Qed.

Lemma extra_positional_rejected_witness :
  let sch := Examples.file_processor glibc in
  first_char "extra.txt" <> "-"%char
  /\ for_loop sch ["extra.txt"; "-h"] (fresh sch)
     = Fail (UnexpectedPositionalArgument "extra.txt") (fresh sch).
Proof.
  assert (H : first_char "extra.txt" <> "-"%char) by discriminate.
  split; [exact H|].
  exact (extra_positional_rejected _ "extra.txt" ["-h"] _ H).
Defined.

Lemma long_optionals_undeclared os x next st :
  Forall (fun o => o_longopt o <> Some x) os ->
  long_optionals os (dashdash x) next st = None.
Proof.
  intros Hall. induction Hall as [|o os Ho Hall IH]; [reflexivity|].
  cbn [long_optionals].
  destruct (o_longopt o) as [l|]; [|exact IH].
  unfold GENERATE_LONG_OPT.
  destruct (String.eqb (dashdash x) (dashdash l)) eqn:E; [|exact IH].
  apply long_name_inj in E. congruence.
Qed.

Lemma long_booleans_undeclared bs x st :
  Forall (fun b => b_longopt b <> Some x) bs ->
  long_booleans bs (dashdash x) st = None.
Proof.
  intros Hall. induction Hall as [|b bs Hb Hall IH]; [reflexivity|].
  cbn [long_booleans].
  destruct (b_longopt b) as [l|]; [|exact IH].
  unfold GENERATE_LONG_BOOL.
  destruct (String.eqb (dashdash x) (dashdash l)) eqn:E; [|exact IH].
  apply long_name_inj in E. congruence.
Qed.

(** A token of two markers and a name that no descriptor declares as its
    long option is scanned as a cluster whose first flag is the marker:
    unless the marker is itself a short option, the pass ends with the
    invalid-flag error, which shows the token as it was written, and
    without a store. The token of two markers alone is such a token: it
    does not end the options. *)
Theorem undeclared_long_option_rejected (sch : schema) (x : string) (rest : list string)
    (st : state) :
  Forall (fun o => o_longopt o <> Some x) (OPTIONAL_ARGS sch) ->
  Forall (fun b => b_longopt b <> Some x) (BOOLEAN_ARGS sch) ->
  split_short "-" (OPTIONAL_ARGS sch) = None ->
  first_short_bool "-" (BOOLEAN_ARGS sch) = None ->
  for_loop sch (dashdash x :: rest) st = Fail (UnknownFlag (String "-" x)) st.
Proof.
  intros Ho Hb Hs Hf. cbn [for_loop]. unfold for_body.
  rewrite (long_optionals_undeclared _ x _ st Ho), (long_booleans_undeclared _ x st Hb).
  rewrite long_name. unfold scan_cluster. cbn [String.length while_loop].
  unfold while_body.
  rewrite (short_optionals_none _ "-" x st Hs), short_booleans_first, Hf. reflexivity.
Qed.

Lemma undeclared_long_option_rejected_witness :
  let sch := Examples.file_processor glibc in
  Forall (fun o => o_longopt o <> Some "verbose") (OPTIONAL_ARGS sch)
  /\ Forall (fun b => b_longopt b <> Some "verbose") (BOOLEAN_ARGS sch)
  /\ split_short "-" (OPTIONAL_ARGS sch) = None
  /\ first_short_bool "-" (BOOLEAN_ARGS sch) = None
  /\ for_loop sch ["--verbose"; "-h"] (fresh sch)
     = Fail (UnknownFlag "-verbose") (fresh sch).
Proof.
  set (sch := Examples.file_processor glibc).
  assert (Ho : Forall (fun o => o_longopt o <> Some "verbose") (OPTIONAL_ARGS sch))
    by (repeat constructor; discriminate).
  assert (Hb : Forall (fun b => b_longopt b <> Some "verbose") (BOOLEAN_ARGS sch))
    by (repeat constructor; discriminate).
  assert (Hs : split_short "-" (OPTIONAL_ARGS sch) = None) by reflexivity.
  assert (Hf : first_short_bool "-" (BOOLEAN_ARGS sch) = None) by reflexivity.
  split; [exact Ho|]. split; [exact Hb|]. split; [exact Hs|]. split; [exact Hf|].
  exact (undeclared_long_option_rejected sch "verbose" ["-h"] (fresh sch) Ho Hb Hs Hf).
Defined.

(** ** The range of the integer parsers *)

Lemma subject_negative ds rest :
  ds <> EmptyString -> all_digits ds = true -> isdigit (first_char rest) = false ->
  subject (String "-" (ds ++ rest)) = Some (true, decimal 0 ds, S (String.length ds)).
Proof.
  intros Hne Hd Hrest. unfold subject.
  change (count_space (String "-" (ds ++ rest))) with O. cbn [skip first_char].
  change (Ascii.eqb "-" "-") with true. cbn [skip].
  rewrite (scan_digits_prefix _ _ _ Hd Hrest).
  destruct ds as [|c ds]; [contradiction | reflexivity].
Qed.

Lemma to_int_wraps d : 2 ^ 31 <= d -> to_int d <> d.
Proof.
  intros Hd. unfold to_int.
  pose proof (Z.mod_pos_bound (d + 2 ^ 31) (2 ^ 32) ltac:(lia)). lia.
Qed.

(** [parse_int] has no test of its own for the range of [int]: a decimal
    number up to LONG_MAX is accepted and converted to [int], so that from
    2^31 on the field does not hold the number that was written; beyond
    LONG_MAX the conversion reports ERANGE, the parser fails, and the field
    has been set to -1. *)
Theorem parse_int_range (lc : libc) (ds rest : string) (e : Z) :
  ds <> EmptyString -> all_digits ds = true -> isdigit (first_char rest) = false ->
  (decimal 0 ds <= LONG_MAX ->
   parse_int lc (ds ++ rest) e
   = {| p_ret := if e =? 0 then 0 else 1;
        p_out := VInt (to_int (decimal 0 ds));
        p_adv := AdvOff (String.length ds);
        p_errno := e |})
  /\ (2 ^ 31 <= decimal 0 ds -> to_int (decimal 0 ds) <> decimal 0 ds)
  /\ (LONG_MAX < decimal 0 ds ->
      parse_int lc (ds ++ rest) e
      = {| p_ret := 1;
           p_out := VInt (-1);
           p_adv := AdvOff (String.length ds);
           p_errno := ERANGE |}).
Proof.
  intros Hne Hd Hrest.
  pose proof (decimal_nonneg ds 0 Hd (Z.le_refl 0)) as H0.
  unfold parse_int, NUMBER_PARSER, strtol.
  rewrite (subject_prefix ds rest Hne Hd Hrest). cbv zeta.
  split; [|split].
  - intros Hmax.
    replace (LONG_MAX <? decimal 0 ds) with false by (symmetry; apply Z.ltb_ge; lia).
    replace (decimal 0 ds <? LONG_MIN) with false
      by (symmetry; apply Z.ltb_ge; unfold LONG_MIN; lia).
    reflexivity.
  - apply to_int_wraps.
  - intros Hover.
    replace (LONG_MAX <? decimal 0 ds) with true by (symmetry; apply Z.ltb_lt; lia).
    reflexivity.
Qed.

Lemma parse_int_range_witness :
  "4294967297" <> EmptyString /\ all_digits "4294967297" = true
  /\ isdigit (first_char EmptyString) = false
  /\ decimal 0 "4294967297" <= LONG_MAX
  /\ p_out (parse_int glibc "4294967297" 0) = VInt 1
  /\ p_ret (parse_int glibc "4294967297" 0) = 0.
Proof.
  assert (H1 : "4294967297" <> EmptyString) by discriminate.
  assert (H2 : all_digits "4294967297" = true) by reflexivity.
  assert (H3 : isdigit (first_char EmptyString) = false) by reflexivity.
  assert (H4 : decimal 0 "4294967297" <= LONG_MAX) by (vm_compute; discriminate).
  pose proof (proj1 (parse_int_range glibc "4294967297" EmptyString 0 H1 H2 H3) H4) as H.
  repeat (split; [assumption|]).
  change ("4294967297" ++ EmptyString) with "4294967297" in H.
  rewrite H. split; reflexivity.
Defined.

(** [parse_uint] accepts what [strtoul] accepts and keeps the low 32 bits:
    a number up to ULONG_MAX is reduced modulo 2^32, a number with a minus
    sign is negated modulo 2^32 (so -1 gives 4294967295), and only beyond
    ULONG_MAX does the parser fail, with ERANGE and the field set to
    4294967295. *)
Theorem parse_uint_range (lc : libc) (ds rest : string) (e : Z) :
  ds <> EmptyString -> all_digits ds = true -> isdigit (first_char rest) = false ->
  (decimal 0 ds <= ULONG_MAX ->
   parse_uint lc (ds ++ rest) e
   = {| p_ret := if e =? 0 then 0 else 1;
        p_out := VInt (decimal 0 ds mod 2 ^ 32);
        p_adv := AdvOff (String.length ds);
        p_errno := e |})
  /\ (decimal 0 ds <= ULONG_MAX ->
      parse_uint lc (String "-" (ds ++ rest)) e
      = {| p_ret := if e =? 0 then 0 else 1;
           p_out := VInt ((- decimal 0 ds) mod 2 ^ 32);
           p_adv := AdvOff (S (String.length ds));
           p_errno := e |})
  /\ (ULONG_MAX < decimal 0 ds ->
      parse_uint lc (ds ++ rest) e
      = {| p_ret := 1;
           p_out := VInt (2 ^ 32 - 1);
           p_adv := AdvOff (String.length ds);
           p_errno := ERANGE |}).
Proof.
  intros Hne Hd Hrest.
  pose proof (decimal_nonneg ds 0 Hd (Z.le_refl 0)) as H0.
  assert (Hmod : forall a, (a mod 2 ^ 64) mod 2 ^ 32 = a mod 2 ^ 32).
  { intros a. apply Z.mod_mod_divide. exists (2 ^ 32). reflexivity. }
  unfold parse_uint, NUMBER_PARSER, strtoul, to_uint.
  rewrite (subject_prefix ds rest Hne Hd Hrest), (subject_negative ds rest Hne Hd Hrest).
  cbv zeta. split; [|split].
  - intros Hmax.
    replace (ULONG_MAX <? decimal 0 ds) with false by (symmetry; apply Z.ltb_ge; lia).
    rewrite Hmod. reflexivity.
  - intros Hmax.
    replace (ULONG_MAX <? decimal 0 ds) with false by (symmetry; apply Z.ltb_ge; lia).
    rewrite Hmod. reflexivity.
  - intros Hover.
    replace (ULONG_MAX <? decimal 0 ds) with true by (symmetry; apply Z.ltb_lt; lia).
    reflexivity.
Qed.

Lemma parse_uint_range_witness :
  "1" <> EmptyString /\ all_digits "1" = true
  /\ isdigit (first_char EmptyString) = false
  /\ decimal 0 "1" <= ULONG_MAX
  /\ p_out (parse_uint glibc "-1" 0) = VInt 4294967295
  /\ p_ret (parse_uint glibc "-1" 0) = 0.
Proof.
  assert (H1 : "1" <> EmptyString) by discriminate.
  assert (H2 : all_digits "1" = true) by reflexivity.
  assert (H3 : isdigit (first_char EmptyString) = false) by reflexivity.
  assert (H4 : decimal 0 "1" <= ULONG_MAX) by (vm_compute; discriminate).
  pose proof (proj1 (proj2 (parse_uint_range glibc "1" EmptyString 0 H1 H2 H3)) H4) as H.
  repeat (split; [assumption|]).
  change (String "-" ("1" ++ EmptyString)) with "-1" in H.
  rewrite H. split; reflexivity.
Defined.

(** The number parsers test [errno] without setting it to 0 first: when
    [errno] is not 0 as a required integer is reached, a well-formed number
    that its type holds is rejected, after it has been stored in the
    field. *)
Theorem stale_errno_rejects_number (lc : libc) (t : number_type)
    (r : required_arg) (rs : list required_arg) (argv : list string) (i : nat)
    (st : state) (ds rest : string) :
  r_parser r = number_parser lc t ->
  argv !! i = Some (ds ++ rest) ->
  ds <> EmptyString -> all_digits ds = true -> isdigit (first_char rest) = false ->
  decimal 0 ds <= number_max t ->
  errno st <> 0 ->
  required_loop (r :: rs) argv i st
  = Fail (InvalidValue (r_name r) (ds ++ rest))
      (store (r_name r) (VInt (decimal 0 ds)) st).
Proof.
  intros Hp Harg Hne Hd Hrest Hmax He.
  cbn [required_loop]. rewrite Harg. unfold call.
  rewrite Hp, (number_parser_prefix lc t ds rest _ Hne Hd Hrest Hmax).
  cbn [p_ret p_out p_adv p_errno].
  apply Z.eqb_neq in He. rewrite He. cbn [Z.eqb]. rewrite store_same_errno. reflexivity.
Qed.

Lemma stale_errno_rejects_number_witness :
  let r := REQUIRED_INT_ARG glibc "count" "count" "A number" in
  let st := set_errno ERANGE (fresh (Schemas.one_int glibc)) in
  r_parser r = number_parser glibc NInt
  /\ ["prog"; "4"] !! 1%nat = Some ("4" ++ EmptyString)
  /\ "4" <> EmptyString /\ all_digits "4" = true
  /\ isdigit (first_char EmptyString) = false
  /\ decimal 0 "4" <= number_max NInt
  /\ errno st <> 0
  /\ parse_args (Schemas.one_int glibc) ["prog"; "4"] st
     = Fail (InvalidValue "count" "4") (store "count" (VInt 4) st).
Proof.
  set (r := REQUIRED_INT_ARG glibc "count" "count" "A number").
  set (st := set_errno ERANGE (fresh (Schemas.one_int glibc))).
  assert (H1 : r_parser r = number_parser glibc NInt) by reflexivity.
  assert (H2 : ["prog"; "4"] !! 1%nat = Some ("4" ++ EmptyString)) by reflexivity.
  assert (H3 : "4" <> EmptyString) by discriminate.
  assert (H4 : all_digits "4" = true) by reflexivity.
  assert (H5 : isdigit (first_char EmptyString) = false) by reflexivity.
  assert (H6 : decimal 0 "4" <= number_max NInt) by (vm_compute; discriminate).
  assert (H7 : errno st <> 0) by discriminate.
  repeat (split; [assumption|]).
  pose proof (stale_errno_rejects_number glibc NInt r [] ["prog"; "4"] 1 st "4" EmptyString
                H1 H2 H3 H4 H5 H6 H7) as H.
  unfold parse_args. cbn [List.length Nat.eqb Nat.ltb Nat.leb REQUIRED_ARG_COUNT
                            REQUIRED_ARGS Schemas.one_int Nat.add].
  fold r. rewrite H. reflexivity.
Defined.

(** ** When [parse_args] returns *)

Section Definedness.

Lemma count_space_le s : (count_space s <= String.length s)%nat.
Proof. induction s as [|c s IH]; cbn; [lia|]. destruct (isspace c); lia. Qed.

Lemma skip_length_eq n s : String.length (skip n s) = (String.length s - n)%nat.
Proof.
  revert s. induction n as [|n IH]; intros [|c s]; cbn; try lia. apply IH.
Qed.

Lemma scan_digits_le s acc : ((scan_digits s acc).2 <= String.length s)%nat.
Proof.
  revert acc. induction s as [|c s IH]; intros acc; cbn; [lia|].
  destruct (isdigit c); cbn; [|lia].
  specialize (IH (10 * acc + digit_val c)).
  destruct (scan_digits s (10 * acc + digit_val c)) as [v n]. cbn in *. lia.
Qed.

Lemma subject_inside text neg mag off :
  subject text = Some (neg, mag, off) -> (off <= String.length text)%nat.
Proof.
  unfold subject.
  pose proof (count_space_le text) as Hws.
  pose proof (skip_length_eq (count_space text) text) as Hs.
  set (s := skip (count_space text) text) in *.
  assert (Hsg : forall sg, (sg <= 1)%nat -> (sg = 1%nat -> s <> EmptyString) ->
                (sg <= String.length s)%nat).
  { intros sg H1 H2. destruct s; cbn; [|lia].
    destruct sg as [|sg]; [lia|]. exfalso. apply H2; [lia | reflexivity]. }
  assert (Hfc : forall c, c <> Ascii.zero -> Ascii.eqb (first_char s) c = true ->
                          s <> EmptyString).
  { intros c Hc Heq ->. cbn [first_char] in Heq. apply Ascii.eqb_eq in Heq. congruence. }
  destruct (Ascii.eqb (first_char s) "-") eqn:Em;
    [|destruct (Ascii.eqb (first_char s) "+") eqn:Ep].
  - pose proof (scan_digits_le (skip 1 s) 0) as Hn.
    pose proof (skip_length_eq 1 s) as H1.
    pose proof (Hsg 1%nat ltac:(lia) (fun _ => Hfc "-"%char ltac:(discriminate) Em)).
    destruct (scan_digits (skip 1 s) 0) as [m n]. cbn [snd] in Hn. rewrite H1 in Hn.
    destruct n; intros [= <- <- <-]. lia.
  - pose proof (scan_digits_le (skip 1 s) 0) as Hn.
    pose proof (skip_length_eq 1 s) as H1.
    pose proof (Hsg 1%nat ltac:(lia) (fun _ => Hfc "+"%char ltac:(discriminate) Ep)).
    destruct (scan_digits (skip 1 s) 0) as [m n]. cbn [snd] in Hn. rewrite H1 in Hn.
    destruct n; intros [= <- <- <-]. lia.
  - pose proof (scan_digits_le (skip 0 s) 0) as Hn. cbn [skip] in *.
    destruct (scan_digits s 0) as [m n]. cbn [snd] in Hn.
    destruct n; intros [= <- <- <-]. lia.
Qed.

Lemma strtol_inside lc text e : ((strtol lc text e).1.2 <= String.length text)%nat.
Proof.
  unfold strtol. destruct (subject text) as [[[neg mag] off]|] eqn:Hs; [|cbn; lia].
  apply subject_inside in Hs.
  destruct (LONG_MAX <? _); [exact Hs|]. destruct (_ <? LONG_MIN); exact Hs.
Qed.

Lemma strtoul_inside lc text e : ((strtoul lc text e).1.2 <= String.length text)%nat.
Proof.
  unfold strtoul. destruct (subject text) as [[[neg mag] off]|] eqn:Hs; [|cbn; lia].
  apply subject_inside in Hs. destruct (ULONG_MAX <? _); exact Hs.
Qed.

Lemma NUMBER_PARSER_inside cast func :
  (forall text e, ((func text e).1.2 <= String.length text)%nat) ->
  stays_inside (NUMBER_PARSER cast func).
Proof.
  intros H text e _. unfold NUMBER_PARSER. specialize (H text e).
  destruct (func text e) as [[v off] e']. exact H.
Qed.

(** The parsers of the header keep their advance output inside the text;
    [parse_char] does so because the text is not empty. *)
Lemma builtin_parsers_inside lc :
  stays_inside parse_str /\ stays_inside parse_char
  /\ (forall t, stays_inside (number_parser lc t))
  /\ stays_inside (Examples.parse_positive_int lc).
Proof.
  split; [intros text e _; exact I|]. split.
  - intros [|c text] e Hne; [contradiction | cbn; lia].
  - split.
    + intros []; apply NUMBER_PARSER_inside;
        auto using strtol_inside, strtoul_inside.
    + intros text e _. unfold Examples.parse_positive_int.
      pose proof (strtol_inside lc text e) as H.
      destruct (strtol lc text e) as [[v off] e']. exact H.
Qed.

Lemma call_inside p name text st :
  stays_inside p -> text <> EmptyString -> (call p name text st).1.2 <> PBeyond.
Proof.
  intros Hp Hne. unfold call. cbn [fst snd]. specialize (Hp text (errno st) Hne).
  destruct (p_adv (p text (errno st))) as [|n]; cbn; [discriminate|].
  unfold ptr_add. apply Nat.leb_le in Hp. rewrite Hp. discriminate.
Qed.

Lemma short_optionals_defined os cf st :
  Forall (fun o => stays_inside (o_parser o)) os ->
  match short_optionals os cf st with
  | FReturn o => o <> Undefined
  | FContinue p _ => p <> PBeyond
  | FFall _ _ => True
  end.
Proof.
  intros Hall. revert cf st.
  induction Hall as [|o os Ho Hall IH]; intros cf st; [exact I|].
  cbn [short_optionals].
  destruct (o_shortopt o) as [c|]; [|apply IH].
  unfold GENERATE_SHORT_OPT.
  destruct cf as [|c0 text]; [apply IH|].
  destruct (Ascii.eqb c0 c); [|apply IH].
  destruct text as [|c1 text]; [discriminate|].
  pose proof (call_inside (o_parser o) (o_name o) (String c1 text) st Ho ltac:(discriminate))
    as Hc.
  destruct (call (o_parser o) (o_name o) (String c1 text) st) as [[error p] st'].
  cbn [fst snd] in Hc.
  destruct (negb (error =? 0)); [discriminate|].
  destruct p as [|[|? ?]|]; try discriminate; [apply IH | contradiction].
Qed.

Lemma short_booleans_defined bs cf st :
  match short_booleans bs cf st with
  | FReturn o => o <> Undefined
  | FContinue p _ => p <> PBeyond
  | FFall _ _ => True
  end.
Proof.
  revert cf st. induction bs as [|b bs IH]; intros cf st; [exact I|].
  cbn [short_booleans].
  destruct (b_shortopt b) as [c|]; [|apply IH].
  unfold GENERATE_SHORT_BOOL.
  destruct cf as [|c0 rest]; [apply IH|].
  destruct (Ascii.eqb c0 c); [discriminate | apply IH].
Qed.

Variable sch : schema.
Hypothesis Hinside : Forall (fun o => stays_inside (o_parser o)) (OPTIONAL_ARGS sch).

Lemma while_loop_defined fuel p st :
  p <> PBeyond -> while_loop sch fuel p st <> Undefined.
Proof.
  revert p st. induction fuel as [|fuel IH]; intros p st Hp.
  - destruct p as [|[|? ?]|]; cbn; try discriminate. contradiction.
  - destruct p as [|[|c text]|]; cbn [while_loop]; try discriminate; [|contradiction].
    unfold while_body.
    pose proof (short_optionals_defined _ (String c text) st Hinside) as H1.
    destruct (short_optionals (OPTIONAL_ARGS sch) (String c text) st)
      as [out|p' st'|cf' st']; [exact H1 | apply IH, H1 |].
    pose proof (short_booleans_defined (BOOLEAN_ARGS sch) cf' st') as H2.
    destruct (short_booleans (BOOLEAN_ARGS sch) cf' st') as [out|p' st''|cf'' st''];
      [exact H2 | apply IH, H2 | discriminate].
Qed.

Lemma long_optionals_defined os tok next st :
  Forall (fun o => stays_inside (o_parser o)) os ->
  (forall text, next = Some text -> text <> EmptyString) ->
  long_optionals os tok next st <> Some (SReturn Undefined).
Proof.
  intros Hall Hnext. induction Hall as [|o os Ho Hall IH]; [discriminate|].
  cbn [long_optionals].
  destruct (o_longopt o) as [l|]; [|exact IH].
  unfold GENERATE_LONG_OPT.
  destruct (String.eqb tok (dashdash l)); [|exact IH].
  destruct next as [text|]; [|discriminate].
  pose proof (call_inside (o_parser o) (o_name o) text st Ho (Hnext text eq_refl)) as Hc.
  destruct (call (o_parser o) (o_name o) text st) as [[error p] st'].
  cbn [fst snd] in Hc.
  destruct (negb (error =? 0)); [discriminate|].
  destruct p as [|[|? ?]|]; try discriminate. contradiction.
Qed.

Lemma for_body_defined tok next st :
  (forall text, next = Some text -> text <> EmptyString) ->
  for_body sch tok next st <> SReturn Undefined.
Proof.
  intros Hnext. unfold for_body.
  pose proof (long_optionals_defined _ tok next st Hinside Hnext) as H1.
  destruct (long_optionals (OPTIONAL_ARGS sch) tok next st) as [s|]; [congruence|].
  pose proof (long_booleans_no_return (BOOLEAN_ARGS sch) tok st Undefined) as H2.
  destruct (long_booleans (BOOLEAN_ARGS sch) tok st) as [s|]; [congruence|].
  destruct tok as [|c0 cf]; [discriminate|].
  pose proof (while_loop_defined (String.length cf) (PAt cf) st ltac:(discriminate)) as H3.
  fold (scan_cluster sch cf st) in H3.
  destruct c0 as [[] [] [] [] [] [] [] []]; try discriminate.
  destruct (scan_cluster sch cf st); congruence.
Qed.

Lemma for_loop_defined toks st :
  Forall (fun tok => tok <> EmptyString) toks -> for_loop sch toks st <> Undefined.
Proof.
  remember (List.length toks) as n eqn:Hn.
  assert (Hle : (List.length toks <= n)%nat) by lia. clear Hn.
  revert toks st Hle. induction n as [|n IH]; intros toks st Hle Hall.
  - destruct toks; [discriminate | cbn in Hle; lia].
  - destruct toks as [|tok rest]; [discriminate|].
    cbn [for_loop]. cbn [List.length] in Hle.
    apply List.Forall_cons_iff in Hall as [_ Hall].
    assert (Hnext : forall text, head rest = Some text -> text <> EmptyString).
    { intros text Hh. destruct rest as [|v rest']; [discriminate|].
      injection Hh as <-. apply List.Forall_cons_iff in Hall as [Hv _]. exact Hv. }
    pose proof (for_body_defined tok (head rest) st Hnext) as Hb.
    destruct (for_body sch tok (head rest) st) as [out|st'|st']; [congruence| |].
    + apply IH; [lia | exact Hall].
    + destruct rest as [|v rest']; [discriminate|].
      apply List.Forall_cons_iff in Hall as [_ Hall].
      apply IH; [cbn in Hle; lia | exact Hall].
Qed.

Lemma parse_args_defined argv st :
  Forall (fun tok => tok <> EmptyString) argv ->
  exists st', parse_args sch argv st = Ok st'
              \/ exists e, parse_args sch argv st = Fail e st'.
Proof.
  intros Hall.
  assert (Hres : parse_args sch argv st <> Undefined).
  { unfold parse_args.
    destruct (List.length argv =? 0)%nat; [discriminate|].
    destruct (List.length argv <? 1 + REQUIRED_ARG_COUNT sch)%nat eqn:Hlt; [discriminate|].
    apply Nat.ltb_ge in Hlt.
    destruct (required_loop_defined (REQUIRED_ARGS sch) argv 1 st)
      as (st1 & [-> | (e & ->)]).
    - unfold REQUIRED_ARG_COUNT in Hlt. lia.
    - apply for_loop_defined. apply Forall_drop. exact Hall.
    - discriminate. }
  pose proof (parse_args_total sch argv st) as Htot.
  destruct (parse_args sch argv st) as [st'|e st'| |]; eauto; contradiction.
Qed.

End Definedness.

(** [parse_args] returns 0 or 1 on every vector without an empty token,
    for every schema whose optional parsers keep their advance output
    inside the text they are given, as all parsers of the header and of
    the examples do: the scan of a cluster ends, and no pointer is read
    beyond a token. *)
Theorem parse_args_returns (sch : schema) (argv : list string) (st : state) :
  Forall (fun o => stays_inside (o_parser o)) (OPTIONAL_ARGS sch) ->
  Forall (fun tok => tok <> EmptyString) argv ->
  retcode (parse_args sch argv st) = Some 0 \/ retcode (parse_args sch argv st) = Some 1.
Proof.
  intros Hin Hall.
  destruct (parse_args_defined sch Hin argv st Hall) as (st' & [-> | (e & ->)]);
    [left | right]; reflexivity.
Qed.

Lemma file_printer_inside lc :
  Forall (fun o => stays_inside (o_parser o)) (OPTIONAL_ARGS (Examples.file_printer lc)).
Proof.
  destruct (builtin_parsers_inside lc) as (Hs & _ & Hn & Hp).
  repeat constructor; cbn; auto. apply (Hn NUInt).
Qed.

Lemma parse_args_returns_witness :
  let sch := Examples.file_printer glibc in
  let argv := ["prog"; "in.txt"; "out.txt"; "-sh5"; "--tail"; "x"] in
  Forall (fun o => stays_inside (o_parser o)) (OPTIONAL_ARGS sch)
  /\ Forall (fun tok => tok <> EmptyString) argv
  /\ (retcode (parse_args sch argv (fresh sch)) = Some 0
      \/ retcode (parse_args sch argv (fresh sch)) = Some 1).
Proof.
  assert (H1 : Forall (fun tok => tok <> EmptyString)
                 ["prog"; "in.txt"; "out.txt"; "-sh5"; "--tail"; "x"])
    by (repeat constructor; discriminate).
  split; [apply file_printer_inside|]. split; [exact H1|].
  exact (parse_args_returns _ _ _ (file_printer_inside glibc) H1).
Defined.

(** The hypothesis on the tokens is needed: handed the empty token as the
    value of a long option, [parse_char] points one character beyond the
    terminator, and the engine reads there. *)
Lemma parse_char_beyond_empty_value :
  let sch := mkSchema []
               [OPTIONAL_CHAR_ARG "sep" (Some "s"%char) (Some "sep") "c" ","%char
                  "Separator"] [] in
  parse sch ["prog"; "--sep"; EmptyString] = Undefined.
Proof. reflexivity. Qed.

(** ** The columns of the help text *)

Section Columns.

Lemma strlen_append s1 s2 : strlen (s1 ++ s2) = strlen s1 + strlen s2.
Proof.
  unfold strlen. induction s1 as [|c s1 IH].
  - change (EmptyString ++ s2) with s2. cbn. lia.
  - change (String c s1 ++ s2) with (String c (s1 ++ s2)).
    cbn [String.length]. lia.
Qed.

Lemma strlen_pad w : strlen (pad w) = Z.abs w.
Proof.
  unfold pad, strlen.
  assert (H : forall n, String.length (spaces n) = n) by (induction n; cbn; congruence).
  rewrite H. lia.
Qed.

Lemma strlen_nonneg s : 0 <= strlen s.
Proof. unfold strlen. lia. Qed.

Context {A : Type} (len : A -> Z).

Lemma fold_max_init (l : list A) (m : Z) :
  m <= fold_left (fun m x => Z.max m (len x)) l m.
Proof.
  revert m. induction l as [|x l IH]; intros m; cbn; [lia|].
  specialize (IH (Z.max m (len x))). lia.
Qed.

Lemma fold_max_elem (l : list A) (m : Z) (x : A) :
  In x l -> len x <= fold_left (fun m x => Z.max m (len x)) l m.
Proof.
  revert m. induction l as [|y l IH]; intros m Hin; [destruct Hin|].
  cbn. destruct Hin as [->|Hin]; [|auto].
  pose proof (fold_max_init l (Z.max m (len x))). lia.
Qed.

End Columns.

Lemma max_width_bounds sch :
  0 <= max_width sch
  /\ (forall r, In r (REQUIRED_ARGS sch) -> required_len r <= max_width sch)
  /\ (forall o, In o (OPTIONAL_ARGS sch) -> optional_len o <= max_width sch)
  /\ (forall b, In b (BOOLEAN_ARGS sch) -> boolean_len b <= max_width sch).
Proof.
  unfold max_width. cbv zeta.
  set (m1 := fold_left (fun m r => Z.max m (required_len r)) (REQUIRED_ARGS sch) 0).
  set (m2 := fold_left (fun m o => Z.max m (optional_len o)) (OPTIONAL_ARGS sch) m1).
  pose proof (fold_max_init required_len (REQUIRED_ARGS sch) 0) as H1.
  pose proof (fold_max_init optional_len (OPTIONAL_ARGS sch) m1) as H2.
  pose proof (fold_max_init boolean_len (BOOLEAN_ARGS sch) m2) as H3.
  fold m1 in H1. fold m2 in H2.
  repeat split.
  - lia.
  - intros r Hr. pose proof (fold_max_elem required_len _ 0 r Hr) as H. fold m1 in H. lia.
  - intros o Ho. pose proof (fold_max_elem optional_len _ m1 o Ho) as H. fold m2 in H. lia.
  - intros b Hb. apply fold_max_elem, Hb.
Qed.

Lemma optional_left_column mw (o : optional_arg) :
  optional_len o <= mw ->
  short_needs_long (o_shortopt o) (o_longopt o) = true ->
  strlen (optional_left mw o) = mw + 7.
Proof.
  unfold optional_len, optional_left, CALC_OPT_WIDTH, CALC_WIDTH, option_label.
  pose proof (strlen_nonneg (o_arg_label o)).
  destruct (o_shortopt o) as [c|], (o_longopt o) as [l|]; cbn [longopt_text short_needs_long];
    try discriminate; intros Hmw _;
    try pose proof (strlen_nonneg l);
    rewrite !strlen_append, strlen_pad;
    change (strlen "    ") with 4; change (strlen "  ") with 2;
    change (strlen " <") with 2; change (strlen ">") with 1;
    change (strlen ", ") with 2; change (strlen "--") with 2;
    change (strlen "-") with 1; change (strlen EmptyString) with 0;
    change (strlen "NONE") with 4 in Hmw;
    try change (strlen (String c EmptyString)) with 1; lia.
Qed.

Lemma boolean_left_column mw (b : boolean_arg) :
  boolean_len b <= mw ->
  short_needs_long (b_shortopt b) (b_longopt b) = true ->
  strlen (boolean_left mw b)
  = if bool_decide (is_Some (b_shortopt b)) && (mw =? boolean_len b)
    then mw + 9 else mw + 7.
Proof.
  unfold boolean_len, boolean_left, CALC_WIDTH, option_label.
  destruct (b_shortopt b) as [c|], (b_longopt b) as [l|]; cbn [longopt_text short_needs_long];
    try discriminate; intros Hmw _;
    try pose proof (strlen_nonneg l);
    rewrite !strlen_append, strlen_pad;
    change (strlen "    ") with 4; change (strlen "  ") with 2;
    change (strlen ", ") with 2; change (strlen "--") with 2;
    change (strlen "-") with 1; change (strlen EmptyString) with 0;
    change (strlen "NONE") with 4 in Hmw;
    try change (strlen (String c EmptyString)) with 1.
  - rewrite bool_decide_eq_true_2 by eauto. cbn [andb].
    destruct (Z.eqb_spec mw (4 + strlen l)); lia.
  - rewrite bool_decide_eq_false_2 by (intros [? ?]; discriminate). cbn [andb]. lia.
  - rewrite bool_decide_eq_false_2 by (intros [? ?]; discriminate). cbn [andb]. lia.
Qed.

(** In the text of [print_help] the description of every required and of
    every optional argument starts in the same column, 7 characters after
    the width that lines 405-436 compute. So does the description of a
    boolean argument, with one exception: when a boolean argument with a
    short and a long option has the widest entry of the schema, the pad
    width that CALC_WIDTH computes for it is -1, which [printf] takes as a
    width of 1, and its description starts 2 columns further right. *)
Theorem help_descriptions_aligned (sch : schema) :
  let mw := max_width sch in
  (forall r, In r (REQUIRED_ARGS sch) -> strlen (required_left mw r) = mw + 7)
  /\ (forall o, In o (OPTIONAL_ARGS sch) ->
        short_needs_long (o_shortopt o) (o_longopt o) = true ->
        strlen (optional_left mw o) = mw + 7)
  /\ (forall b, In b (BOOLEAN_ARGS sch) ->
        short_needs_long (b_shortopt b) (b_longopt b) = true ->
        strlen (boolean_left mw b)
        = if bool_decide (is_Some (b_shortopt b)) && (mw =? boolean_len b)
          then mw + 9 else mw + 7).
Proof.
  cbv zeta. destruct (max_width_bounds sch) as (H0 & Hr & Ho & Hb).
  split; [|split].
  - intros r Hin. specialize (Hr r Hin). unfold required_len, required_left in *.
    rewrite !strlen_append, strlen_pad.
    change (strlen "    <") with 5. change (strlen ">") with 1. change (strlen "  ") with 2.
    lia.
  - intros o Hin. apply optional_left_column, Ho, Hin.
  - intros b Hin. apply boolean_left_column, Hb, Hin.
Qed.

Lemma help_descriptions_aligned_witness :
  let sch := mkSchema [] []
               [ BOOLEAN_ARG "verbose" (Some "v"%char) (Some "verbose") "Verbose output";
                 BOOLEAN_ARG "help" (Some "h"%char) (Some "help") "Show help" ] in
  max_width sch = 11
  /\ strlen (boolean_left 11 (BOOLEAN_ARG "verbose" (Some "v"%char) (Some "verbose")
                               "Verbose output")) = 20
  /\ strlen (boolean_left 11 (BOOLEAN_ARG "help" (Some "h"%char) (Some "help")
                               "Show help")) = 18.
Proof.
  set (bv := BOOLEAN_ARG "verbose" (Some "v"%char) (Some "verbose") "Verbose output").
  set (bh := BOOLEAN_ARG "help" (Some "h"%char) (Some "help") "Show help").
  pose proof (proj2 (proj2 (help_descriptions_aligned (mkSchema [] [] [bv; bh])))) as H.
  split; [reflexivity|]. split.
  - exact (H bv (or_introl eq_refl) eq_refl).
  - exact (H bh (or_intror (or_introl eq_refl)) eq_refl).
Defined.

(** ** Where each diagnostic comes from *)

Section Diagnostics.

Variable sch : schema.

Lemma short_optionals_error os cf st :
  Forall (fun o => In o (OPTIONAL_ARGS sch)) os ->
  match short_optionals os cf st with
  | FReturn o => outcome_error (options_phase_error sch) o
  | _ => True
  end.
Proof.
  intros Hall. revert cf st.
  induction Hall as [|o os Ho Hall IH]; intros cf st; [exact I|].
  cbn [short_optionals].
  destruct (o_shortopt o) as [c|] eqn:Ec; [|apply IH].
  unfold GENERATE_SHORT_OPT.
  destruct cf as [|c0 text]; [apply IH|].
  destruct (Ascii.eqb c0 c); [|apply IH].
  destruct text as [|c1 text].
  - cbn. exists o. split; [exact Ho|]. right. exists c. auto.
  - destruct (call (o_parser o) (o_name o) (String c1 text) st) as [[error p] st'].
    destruct (negb (error =? 0)); [cbn; apply in_map, Ho|].
    destruct p as [|[|? ?]|]; try exact I. apply IH.
Qed.

Lemma short_booleans_error bs cf st :
  match short_booleans bs cf st with
  | FReturn _ => False
  | _ => True
  end.
Proof.
  revert cf st. induction bs as [|b bs IH]; intros cf st; [exact I|].
  cbn [short_booleans].
  destruct (b_shortopt b) as [c|]; [|apply IH].
  unfold GENERATE_SHORT_BOOL.
  destruct cf as [|c0 rest]; [apply IH|].
  destruct (Ascii.eqb c0 c); [exact I | apply IH].
Qed.

Lemma In_all_optionals : Forall (fun o => In o (OPTIONAL_ARGS sch)) (OPTIONAL_ARGS sch).
Proof. apply List.Forall_forall. auto. Qed.

Lemma while_loop_error fuel p st :
  outcome_error (options_phase_error sch) (while_loop sch fuel p st).
Proof.
  revert p st. induction fuel as [|fuel IH]; intros p st.
  - destruct p as [|[|? ?]|]; exact I.
  - destruct p as [|[|c text]|]; cbn [while_loop]; try exact I.
    unfold while_body.
    pose proof (short_optionals_error _ (String c text) st In_all_optionals) as H1.
    destruct (short_optionals (OPTIONAL_ARGS sch) (String c text) st)
      as [out|p' st'|cf' st']; [exact H1 | apply IH |].
    pose proof (short_booleans_error (BOOLEAN_ARGS sch) cf' st') as H2.
    destruct (short_booleans (BOOLEAN_ARGS sch) cf' st') as [out|p' st''|cf'' st''];
      [contradiction | apply IH | exact I].
Qed.

Lemma long_optionals_error os tok next st :
  Forall (fun o => In o (OPTIONAL_ARGS sch)) os ->
  match long_optionals os tok next st with
  | Some (SReturn o) => outcome_error (options_phase_error sch) o
  | _ => True
  end.
Proof.
  intros Hall. induction Hall as [|o os Ho Hall IH]; [exact I|].
  cbn [long_optionals].
  destruct (o_longopt o) as [l|] eqn:El; [|exact IH].
  unfold GENERATE_LONG_OPT.
  destruct (String.eqb tok (dashdash l)); [|exact IH].
  destruct next as [text|].
  - destruct (call (o_parser o) (o_name o) text st) as [[error p] st'].
    destruct (negb (error =? 0)); [cbn; apply in_map, Ho|].
    destruct p as [|[|? ?]|]; try exact I. cbn. exists o, l. auto.
  - cbn. exists o. split; [exact Ho|]. left. exists l. auto.
Qed.

Lemma for_body_error tok next st :
  match for_body sch tok next st with
  | SReturn o => outcome_error (options_phase_error sch) o
  | _ => True
  end.
Proof.
  unfold for_body.
  pose proof (long_optionals_error _ tok next st In_all_optionals) as H1.
  destruct (long_optionals (OPTIONAL_ARGS sch) tok next st) as [s|]; [exact H1|].
  pose proof (long_booleans_no_return (BOOLEAN_ARGS sch) tok st) as H2.
  destruct (long_booleans (BOOLEAN_ARGS sch) tok st) as [[out| |]|];
    [destruct (H2 out eq_refl) | exact I | exact I |].
  destruct tok as [|c0 cf]; [exact I|].
  pose proof (while_loop_error (String.length cf) (PAt cf) st) as H3.
  fold (scan_cluster sch cf st) in H3.
  destruct c0 as [[] [] [] [] [] [] [] []]; try exact I.
  destruct (scan_cluster sch cf st); try exact I. exact H3.
Qed.

Lemma for_loop_error toks st :
  outcome_error (options_phase_error sch) (for_loop sch toks st).
Proof.
  remember (List.length toks) as n eqn:Hn.
  assert (Hle : (List.length toks <= n)%nat) by lia. clear Hn.
  revert toks st Hle. induction n as [|n IH]; intros toks st Hle.
  - destruct toks; [exact I | cbn in Hle; lia].
  - destruct toks as [|tok rest]; [exact I|].
    cbn [for_loop]. cbn [List.length] in Hle.
    pose proof (for_body_error tok (head rest) st) as Hb.
    destruct (for_body sch tok (head rest) st) as [out|st'|st']; [exact Hb| |].
    + apply IH. lia.
    + destruct rest as [|v rest']; [exact I|]. apply IH. cbn in Hle. lia.
Qed.

Lemma required_loop_error rs argv i st :
  outcome_error
    (fun e => exists r text, In r rs /\ e = InvalidValue (r_name r) text)
    (required_loop rs argv i st).
Proof.
  revert i st. induction rs as [|r rs IH]; intros i st; [exact I|].
  cbn [required_loop].
  destruct (argv !! i) as [text|]; [|exact I].
  destruct (call (r_parser r) (r_name r) text st) as [[error p] st'].
  destruct (error =? 0).
  - specialize (IH (S i) st'). destruct (required_loop rs argv (S i) st'); try exact I.
    cbn in *. destruct IH as (r' & text' & Hin & ->). exists r', text'. auto.
  - cbn. exists r, text. auto.
Qed.

End Diagnostics.

(** When [parse_args] returns 1 the diagnostic tells the phase: the
    internal error is that of the empty vector, the missing-argument error
    that of a vector with fewer tokens than required arguments, and both
    leave the container alone; an invalid value names a required or an
    optional field, never a boolean one; a missing value and trailing
    input name an option of a value-taking descriptor. *)
Theorem diagnostics_by_phase (sch : schema) (argv : list string) (st st' : state)
    (e : parse_error) :
  parse_args sch argv st = Fail e st' ->
  (e = InternalError /\ argv = [] /\ st' = st)
  \/ (e = MissingRequiredArgument
      /\ (0 < List.length argv < 1 + REQUIRED_ARG_COUNT sch)%nat /\ st' = st)
  \/ ((1 + REQUIRED_ARG_COUNT sch <= List.length argv)%nat
      /\ ((exists r text, In r (REQUIRED_ARGS sch) /\ e = InvalidValue (r_name r) text)
          \/ options_phase_error sch e)).
Proof.
  unfold parse_args.
  destruct (List.length argv =? 0)%nat eqn:E0.
  { intros [= <- <-]. left. apply Nat.eqb_eq in E0.
    destruct argv; [auto | discriminate]. }
  destruct (List.length argv <? 1 + REQUIRED_ARG_COUNT sch)%nat eqn:E1.
  { intros [= <- <-]. right. left. apply Nat.eqb_neq in E0. apply Nat.ltb_lt in E1.
    repeat split; try reflexivity; lia. }
  apply Nat.ltb_ge in E1. intros Hrun. right. right. split; [exact E1|].
  pose proof (required_loop_error (REQUIRED_ARGS sch) argv 1 st) as H1.
  destruct (required_loop (REQUIRED_ARGS sch) argv 1 st) as [st1|e1 st1| |];
    try discriminate.
  - pose proof (for_loop_error sch (drop (1 + REQUIRED_ARG_COUNT sch) argv) st1) as H2.
    rewrite Hrun in H2. right. exact H2.
  - injection Hrun as <- <-. left. exact H1.
Qed.

Lemma diagnostics_by_phase_witness :
  let sch := Examples.file_processor glibc in
  parse_args sch ["prog"; "in.txt"] (fresh sch) = Fail MissingRequiredArgument (fresh sch)
  /\ ((MissingRequiredArgument = InternalError /\ ["prog"; "in.txt"] = [] /\ fresh sch = fresh sch)
      \/ (MissingRequiredArgument = MissingRequiredArgument
          /\ (0 < List.length ["prog"; "in.txt"] < 1 + REQUIRED_ARG_COUNT sch)%nat
          /\ fresh sch = fresh sch)
      \/ ((1 + REQUIRED_ARG_COUNT sch <= List.length ["prog"; "in.txt"])%nat
          /\ ((exists r text, In r (REQUIRED_ARGS sch)
                              /\ MissingRequiredArgument = InvalidValue (r_name r) text)
              \/ options_phase_error sch MissingRequiredArgument))).
Proof.
  assert (H : parse_args (Examples.file_processor glibc) ["prog"; "in.txt"]
                (fresh (Examples.file_processor glibc))
              = Fail MissingRequiredArgument (fresh (Examples.file_processor glibc)))
    by reflexivity.
  split; [exact H|].
  exact (diagnostics_by_phase _ _ _ _ _ H).
Defined.

(** The usage line of examples/04_file_printer.c as its first line
    documents it: all six short options are listed, although the schema
    has more than three options. *)
Lemma file_printer_usage (lc : libc) :
  exists rest,
    print_help (Examples.file_printer lc) "./printer"
    = Some ("USAGE:" ++ nl
            ++ "    ./printer <input> <output> [-c<pattern>] [-t<threads>] [-h<lines>] [-t<lines>] [-s] [-r] "
            ++ nl ++ rest).
Proof.
  destruct lc as [[e|]]; vm_compute; eexists; reflexivity.
Qed.

(** * The scan of a cluster, iteration by iteration

    An iteration of the [while] loop starts at the first character of a
    cluster and at every character that follows a boolean flag. After a
    value-taking option whose parser stopped inside the token, control
    stays in the same iteration. The statements of this part are about the
    character at which an iteration starts. *)

Lemma scan_cluster_boolean sch b bb cf st :
  split_short b (OPTIONAL_ARGS sch) = None ->
  first_short_bool b (BOOLEAN_ARGS sch) = Some bb ->
  scan_cluster sch (String b cf) st
  = scan_cluster sch cf (store (b_name bb) (VBool true) st).
Proof.
  intros Hs Hb. unfold scan_cluster. cbn [String.length while_loop].
  rewrite (while_body_boolean sch b cf bb st Hs Hb).
  destruct cf; reflexivity.
Qed.

Lemma while_body_value_first sch c text o post st :
  split_short c (OPTIONAL_ARGS sch) = Some (o, post) ->
  while_body sch (String c text) st
  = match GENERATE_SHORT_OPT o c (String c text) st with
    | FReturn out => Stop out
    | FContinue p st' => Again p st'
    | FFall s st' =>
        while_body (mkSchema (REQUIRED_ARGS sch) post (BOOLEAN_ARGS sch)) s st'
    end.
Proof.
  intros Hs. unfold while_body at 1.
  rewrite (short_optionals_split _ o post c text st Hs).
  destruct (GENERATE_SHORT_OPT o c (String c text) st); reflexivity.
Qed.

Lemma while_loop_bare sch o c fuel st :
  In o (OPTIONAL_ARGS sch) -> o_shortopt o = Some c ->
  while_loop sch (S fuel) (PAt (String c EmptyString)) st
  = Fail (OptionRequiresValue (dash c)) st.
Proof.
  intros Hin Hc. cbn [while_loop]. unfold while_body.
  rewrite (short_optionals_bare _ o c st Hin Hc). reflexivity.
Qed.

(** C2, as the engine has it: at the character where an iteration of the
    scan starts, the value-taking short options are tested before the
    boolean ones, each group in declaration order. If some value-taking
    option has the character, the first such option decides the
    iteration: an empty remainder is the option-requires-value error,
    otherwise its parser runs on the remainder (first conjunct). Only when
    no value-taking option has the character is the first boolean option
    with it set, or the flag reported as unknown (second conjunct). So when
    the same character is a boolean and a value-taking short option, the
    value-taking reading is chosen at such a position: the bare flag is an
    error, and an iteration that goes on has stored to the field of the
    value-taking option first (third conjunct). The positions at which an
    iteration starts are the character after a boolean flag (fourth
    conjunct) and the first character of the cluster (fifth conjunct). *)
Theorem value_options_before_booleans (sch : schema) (c : ascii) (text : string)
    (st : state) :
  (forall o post,
     split_short c (OPTIONAL_ARGS sch) = Some (o, post) ->
     while_body sch (String c text) st
     = match GENERATE_SHORT_OPT o c (String c text) st with
       | FReturn out => Stop out
       | FContinue p st' => Again p st'
       | FFall s st' =>
           while_body (mkSchema (REQUIRED_ARGS sch) post (BOOLEAN_ARGS sch)) s st'
       end)
  /\ (split_short c (OPTIONAL_ARGS sch) = None ->
      while_body sch (String c text) st
      = match first_short_bool c (BOOLEAN_ARGS sch) with
        | Some b => Again (PAt text) (store (b_name b) (VBool true) st)
        | None => Stop (Fail (UnknownFlag (String c text)) st)
        end)
  /\ (forall o post b,
        split_short c (OPTIONAL_ARGS sch) = Some (o, post) ->
        first_short_bool c (BOOLEAN_ARGS sch) = Some b ->
        while_body sch (String c EmptyString) st
        = Stop (Fail (OptionRequiresValue (dash c)) st)
        /\ forall p st',
             while_body sch (String c text) st = Again p st' ->
             exists l, writes st' = (writes st ++ o_name o :: l)%list)
  /\ (forall b,
        split_short c (OPTIONAL_ARGS sch) = None ->
        first_short_bool c (BOOLEAN_ARGS sch) = Some b ->
        scan_cluster sch (String c text) st
        = scan_cluster sch text (store (b_name b) (VBool true) st))
  /\ scan_cluster sch (String c text) st
     = match while_body sch (String c text) st with
       | Stop out => out
       | Again p st' => while_loop sch (String.length text) p st'
       end.
Proof.
  split; [|split; [|split; [|split]]]; [| | | |reflexivity].
  - intros o post. apply while_body_value_first.
  - intros Hs. unfold while_body.
    rewrite (short_optionals_none _ c text st Hs), short_booleans_first.
    destruct (first_short_bool c (BOOLEAN_ARGS sch)); reflexivity.
  - intros o post b Hs Hb. split.
    + rewrite (while_body_value_first sch c EmptyString o post st Hs).
      cbn [GENERATE_SHORT_OPT]. rewrite Ascii.eqb_refl. reflexivity.
    + intros p st' Hit. rewrite (while_body_value_first sch c text o post st Hs) in Hit.
      pose proof (GENERATE_SHORT_OPT_stores o c text st) as Hw.
      destruct (GENERATE_SHORT_OPT o c (String c text) st) as [out|p1 st1|s st1].
      * discriminate Hit.
      * injection Hit as -> ->. exists []. exact Hw.
      * pose proof (while_body_extends
                      (mkSchema (REQUIRED_ARGS sch) post (BOOLEAN_ARGS sch)) s st1) as He.
        rewrite Hit in He. cbn in He. destruct He as (l & Hl & _).
        exists l. rewrite Hl, Hw, <- app_assoc. reflexivity.
  - intros b Hs Hb. apply scan_cluster_boolean; assumption.
Qed.

Lemma value_options_before_booleans_witness :
  let sch := Schemas.shared_t glibc in
  let st := fresh sch in
  split_short "t" (OPTIONAL_ARGS sch) = Some (Examples.threads glibc, [])
  /\ first_short_bool "t" (BOOLEAN_ARGS sch) = Some Schemas.trace
  /\ while_body sch "t" st = Stop (Fail (OptionRequiresValue "-t") st)
  /\ (forall p st',
        while_body sch "t4" st = Again p st' ->
        exists l, writes st' = (writes st ++ "threads" :: l)%list).
Proof.
  assert (Hs : split_short "t" (OPTIONAL_ARGS (Schemas.shared_t glibc))
               = Some (Examples.threads glibc, [])) by reflexivity.
  assert (Hb : first_short_bool "t" (BOOLEAN_ARGS (Schemas.shared_t glibc))
               = Some Schemas.trace) by reflexivity.
  split; [exact Hs|]. split; [exact Hb|].
  exact (proj1 (proj2 (proj2 (value_options_before_booleans (Schemas.shared_t glibc)
                                "t" "4" (fresh (Schemas.shared_t glibc)))))
           _ _ _ Hs Hb).
Defined.

(** C7, as the engine has it: when an iteration of the scan starts at the
    character of a value-taking short option and nothing follows the
    character in the token, the parse fails at once with the
    option-requires-value error and without a store. So it is wherever the
    test of the option meets its character (first conjunct), for every
    iteration that starts there (second and third conjunct), for the bare
    token whatever tokens follow (fourth conjunct) and when the character
    follows a boolean flag (sixth conjunct). No token of the options phase
    other than a value-taking long option consumes the token after it
    (fifth conjunct): the next token is never the value of a short
    option. *)
Theorem short_option_without_value (sch : schema) (o : optional_arg) (c : ascii) :
  In o (OPTIONAL_ARGS sch) -> o_shortopt o = Some c ->
  (forall st,
     GENERATE_SHORT_OPT o c (String c EmptyString) st
     = FReturn (Fail (OptionRequiresValue (dash c)) st))
  /\ (forall fuel st,
        while_loop sch (S fuel) (PAt (String c EmptyString)) st
        = Fail (OptionRequiresValue (dash c)) st)
  /\ (forall st,
        scan_cluster sch (String c EmptyString) st = Fail (OptionRequiresValue (dash c)) st)
  /\ (c <> "-"%char ->
      forall rest st,
        for_loop sch (dash c :: rest) st = Fail (OptionRequiresValue (dash c)) st)
  /\ (forall tok next st st',
        for_body sch tok next st = SContinueAfterValue st' ->
        exists o' l, In o' (OPTIONAL_ARGS sch) /\ o_longopt o' = Some l /\ tok = dashdash l)
  /\ (forall b bb st,
        split_short b (OPTIONAL_ARGS sch) = None ->
        first_short_bool b (BOOLEAN_ARGS sch) = Some bb ->
        scan_cluster sch (String b (String c EmptyString)) st
        = Fail (OptionRequiresValue (dash c)) (store (b_name bb) (VBool true) st)).
Proof.
  intros Hin Hc.
  pose proof (while_loop_bare sch o c) as Hloop.
  split; [|split; [|split; [|split; [|split]]]].
  - intros st. cbn [GENERATE_SHORT_OPT]. rewrite Ascii.eqb_refl. reflexivity.
  - intros fuel st. apply Hloop; assumption.
  - intros st. apply Hloop; assumption.
  - intros Hne rest st. cbn [for_loop]. unfold for_body.
    rewrite long_optionals_never by (apply never_long_dash; exact Hne).
    rewrite long_booleans_never by (apply never_long_dash; exact Hne).
    unfold dash at 1. unfold scan_cluster. cbn [String.length].
    rewrite Hloop by assumption. reflexivity.
  - apply for_body_after_value.
  - intros b bb st Hs Hb. rewrite (scan_cluster_boolean sch b bb _ st Hs Hb).
    apply Hloop; assumption.
Qed.

Lemma short_option_without_value_witness :
  let sch := Examples.file_processor glibc in
  In (Examples.threads glibc) (OPTIONAL_ARGS sch)
  /\ o_shortopt (Examples.threads glibc) = Some "t"%char
  /\ "t"%char <> "-"%char
  /\ (forall rest st, for_loop sch ("-t" :: rest) st = Fail (OptionRequiresValue "-t") st)
  /\ (forall st, scan_cluster sch "ht" st
                 = Fail (OptionRequiresValue "-t") (store "help" (VBool true) st)).
Proof.
  assert (Hin : In (Examples.threads glibc) (OPTIONAL_ARGS (Examples.file_processor glibc)))
    by (simpl; left; reflexivity).
  assert (Hc : o_shortopt (Examples.threads glibc) = Some "t"%char) by reflexivity.
  assert (Hne : "t"%char <> "-"%char) by discriminate.
  pose proof (short_option_without_value _ _ _ Hin Hc) as (_ & _ & _ & H4 & _ & H6).
  split; [exact Hin|]. split; [exact Hc|]. split; [exact Hne|]. split.
  - exact (H4 Hne).
  - intros st.
    exact (H6 "h"%char (BOOLEAN_ARG "help" (Some "h"%char) (Some "help") "Show help") st
             eq_refl eq_refl).
Defined.

(** C7 as stated fails where the character is reached inside an
    iteration: with the schema of examples/01_file_processor.c the token
    -t4t stores 4 to threads, reaches t with nothing after it and fails
    with the invalid-flag error, not with option-requires-value; where t is
    also a boolean flag the same token is parsed with success and sets the
    boolean. *)
Lemma short_option_reached_in_mid_iteration :
  let run1 := parse (Examples.file_processor glibc) ["prog"; "in.txt"; "out.txt"; "-t4t"] in
  let run2 := parse (Schemas.shared_t glibc) ["prog"; "-t4t"] in
  o_shortopt (Examples.threads glibc) = Some "t"%char
  /\ field "threads" run1 = Some (VInt 4)
  /\ error_of run1 = Some (UnknownFlag "t")
  /\ error_of run1 <> Some (OptionRequiresValue "-t")
  /\ retcode run2 = Some 0
  /\ field "trace" run2 = Some (VBool true).
Proof.
  vm_compute. repeat split; discriminate.
Qed.

(** A long option with a string value takes the token after it whatever
    that token is, be it empty or the name of another option, and the loop
    goes on after that token (first conjunct). A short option with a
    string value, when an iteration of the scan starts at its character,
    takes all that follows the character in the token, so that no flag
    after it in the cluster is looked at: for every such iteration, for
    the cluster that begins with the character, and for the cluster in
    which the character follows a boolean flag (second conjunct). *)
Theorem string_option_takes_all (sch : schema) (o : optional_arg) :
  o_parser o = parse_str ->
  (forall l v rest st,
     first_long l (OPTIONAL_ARGS sch) = Some o ->
     for_loop sch (dashdash l :: v :: rest) st
     = for_loop sch rest (store (o_name o) (VStr v) st))
  /\ (forall c post c1 text st,
        split_short c (OPTIONAL_ARGS sch) = Some (o, post) ->
        (forall fuel,
           while_loop sch (S fuel) (PAt (String c (String c1 text))) st
           = Ok (store (o_name o) (VStr (String c1 text)) st))
        /\ scan_cluster sch (String c (String c1 text)) st
           = Ok (store (o_name o) (VStr (String c1 text)) st)
        /\ (forall b bb,
              split_short b (OPTIONAL_ARGS sch) = None ->
              first_short_bool b (BOOLEAN_ARGS sch) = Some bb ->
              scan_cluster sch (String b (String c (String c1 text))) st
              = Ok (store (o_name o) (VStr (String c1 text))
                      (store (b_name bb) (VBool true) st)))).
Proof.
  intros Hp. split.
  - intros l v rest st Hf. apply for_loop_long_string; assumption.
  - intros c post c1 text st Hs.
    assert (Hloop : forall fuel st0,
              while_loop sch (S fuel) (PAt (String c (String c1 text))) st0
              = Ok (store (o_name o) (VStr (String c1 text)) st0)).
    { intros fuel st0. cbn [while_loop].
      rewrite (while_body_value_first sch c _ o post st0 Hs).
      cbn [GENERATE_SHORT_OPT]. rewrite Ascii.eqb_refl. unfold call. rewrite Hp.
      cbn [parse_str p_ret p_out p_adv p_errno resolve Z.eqb negb].
      rewrite store_same_errno. destruct fuel; reflexivity. }
    split; [intros fuel; apply Hloop|]. split; [apply Hloop|].
    intros b bb Hsb Hb. rewrite (scan_cluster_boolean sch b bb _ st Hsb Hb).
    apply Hloop.
Qed.

Lemma string_option_takes_all_witness :
  let sch := Examples.options_only in
  let o := OPTIONAL_STRING_ARG "config_file" (Some "c"%char) (Some "config") "config"
             "config.ini" "Configuration file path" in
  o_parser o = parse_str
  /\ first_long "config" (OPTIONAL_ARGS sch) = Some o
  /\ split_short "c" (OPTIONAL_ARGS sch) = Some (o, [])
  /\ for_loop sch ["--config"; "--verbose"] (fresh sch)
     = Ok (store "config_file" (VStr "--verbose") (fresh sch))
  /\ scan_cluster sch "cvh" (fresh sch) = Ok (store "config_file" (VStr "vh") (fresh sch))
  /\ scan_cluster sch "vch" (fresh sch)
     = Ok (store "config_file" (VStr "h") (store "verbose" (VBool true) (fresh sch))).
Proof.
  set (sch := Examples.options_only).
  set (o := OPTIONAL_STRING_ARG "config_file" (Some "c"%char) (Some "config") "config"
              "config.ini" "Configuration file path").
  assert (Hp : o_parser o = parse_str) by reflexivity.
  assert (Hf : first_long "config" (OPTIONAL_ARGS sch) = Some o) by reflexivity.
  assert (Hs : split_short "c" (OPTIONAL_ARGS sch) = Some (o, [])) by reflexivity.
  pose proof (string_option_takes_all sch o Hp) as [H1 H2].
  split; [exact Hp|]. split; [exact Hf|]. split; [exact Hs|]. split; [|split].
  - exact (H1 "config" "--verbose" [] (fresh sch) Hf).
  - exact (proj1 (proj2 (H2 "c"%char [] "v"%char "h" (fresh sch) Hs))).
  - exact (proj2 (proj2 (H2 "c"%char [] "h"%char EmptyString (fresh sch) Hs))
             "v"%char (BOOLEAN_ARG "verbose" (Some "v"%char) (Some "verbose") "Verbose output")
             eq_refl eq_refl).
Defined.

(** * Which tokens make the engine store to an option field

    A store to the field of an optional or boolean descriptor is made by
    the statement generated for its long or its short option, and that
    statement is guarded by the comparison with the token or with the
    current character of the cluster. *)

Lemma stores_by_weaken (P Q : string -> value -> Prop) st st' :
  (forall name v, P name v -> Q name v) ->
  stores_by P st st' -> stores_by Q st st'.
Proof.
  intros HPQ. induction 1; [apply stores_none | apply stores_store | apply stores_errno];
    auto.
Qed.

Lemma outcome_by_weaken (P Q : string -> value -> Prop) st o :
  (forall name v, P name v -> Q name v) ->
  outcome_by P st o -> outcome_by Q st o.
Proof. intros HPQ. destruct o; cbn; eauto using stores_by_weaken. Qed.

Lemma step_by_weaken (P Q : string -> value -> Prop) st s :
  (forall name v, P name v -> Q name v) ->
  step_by P st s -> step_by Q st s.
Proof. intros HPQ. destruct s; cbn; eauto using stores_by_weaken, outcome_by_weaken. Qed.

Lemma chars_skip n s :
  incl (list_ascii_of_string (skip n s)) (list_ascii_of_string s).
Proof.
  revert s. induction n as [|n IH]; intros s; [apply incl_refl|].
  destruct s as [|c s]; [apply incl_refl|].
  cbn [skip list_ascii_of_string]. apply incl_tl, IH.
Qed.

Lemma pchars_resolve text a :
  incl (pchars (resolve text a)) (list_ascii_of_string text).
Proof.
  destruct a as [|n]; cbn [resolve pchars]; [intros x []|].
  unfold ptr_add. destruct (n <=? String.length text)%nat; cbn [pchars];
    [apply chars_skip | intros x []].
Qed.

Section Met.

Variable sch : schema.

Lemma flow_met_trans cs st1 st2 f :
  stores_by (flag_met sch cs) st1 st2 -> flow_met sch cs st2 f -> flow_met sch cs st1 f.
Proof.
  intros H12. destruct f as [o|p st3|cf st3]; cbn [flow_met].
  - apply outcome_by_trans, H12.
  - intros [H ?]. split; [eapply stores_by_trans; eassumption | assumption].
  - intros [H ?]. split; [eapply stores_by_trans; eassumption | assumption].
Qed.

Lemma GENERATE_SHORT_OPT_met cs o c cf st :
  In o (OPTIONAL_ARGS sch) -> o_shortopt o = Some c ->
  incl (list_ascii_of_string cf) cs ->
  flow_met sch cs st (GENERATE_SHORT_OPT o c cf st).
Proof.
  intros Hin Hc Hcs. unfold GENERATE_SHORT_OPT.
  destruct cf as [|c0 text]; [split; [apply stores_none | exact Hcs]|].
  destruct (Ascii.eqb_spec c0 c) as [->|Hne]; [|split; [apply stores_none | exact Hcs]].
  destruct text as [|c1 text]; [apply stores_none|].
  assert (HP : forall v, flag_met sch cs (o_name o) v).
  { intros v. left. exists o, c. repeat split; try assumption.
    apply Hcs. left. reflexivity. }
  pose proof (stores_by_call _ (o_parser o) (o_name o) (String c1 text) st HP) as Hcall.
  pose proof (pchars_resolve (String c1 text)
                (p_adv (o_parser o (String c1 text) (errno st)))) as Hp.
  unfold call in *. cbn [snd] in Hcall.
  destruct (negb (_ =? 0)); [exact Hcall|].
  assert (Hsub : incl (list_ascii_of_string (String c1 text)) cs).
  { intros x Hx. apply Hcs. right. exact Hx. }
  destruct (resolve (String c1 text) _) as [|[|c2 s]|]; cbn [flow_met outcome_by].
  - split; [exact Hcall | intros x []].
  - split; [exact Hcall | intros x []].
  - split; [exact Hcall|]. intros x Hx. apply Hsub, Hp, Hx.
  - exact I.
Qed.

Lemma short_optionals_met cs os cf st :
  incl os (OPTIONAL_ARGS sch) ->
  incl (list_ascii_of_string cf) cs ->
  flow_met sch cs st (short_optionals os cf st).
Proof.
  revert cf st. induction os as [|o os IH]; intros cf st Hos Hcs.
  - split; [apply stores_none | exact Hcs].
  - cbn [short_optionals].
    assert (Hos' : incl os (OPTIONAL_ARGS sch)) by (intros x Hx; apply Hos; right; exact Hx).
    destruct (o_shortopt o) as [c|] eqn:Hc; [|apply IH; assumption].
    pose proof (GENERATE_SHORT_OPT_met cs o c cf st (Hos o (or_introl eq_refl)) Hc Hcs) as HG.
    destruct (GENERATE_SHORT_OPT o c cf st) as [out|p st'|cf' st']; try exact HG.
    destruct HG as [Hst Hcf]. apply (flow_met_trans cs st st'); [exact Hst|].
    apply IH; assumption.
Qed.

Lemma short_booleans_met cs bs cf st :
  incl bs (BOOLEAN_ARGS sch) ->
  incl (list_ascii_of_string cf) cs ->
  flow_met sch cs st (short_booleans bs cf st).
Proof.
  revert cf st. induction bs as [|b bs IH]; intros cf st Hbs Hcs.
  - split; [apply stores_none | exact Hcs].
  - cbn [short_booleans].
    assert (Hbs' : incl bs (BOOLEAN_ARGS sch)) by (intros x Hx; apply Hbs; right; exact Hx).
    destruct (b_shortopt b) as [c|] eqn:Hc; [|apply IH; assumption].
    unfold GENERATE_SHORT_BOOL.
    destruct cf as [|c0 rest]; [apply IH; assumption|].
    destruct (Ascii.eqb_spec c0 c) as [->|Hne]; [|apply IH; assumption].
    split.
    + apply stores_store; [apply stores_none|].
      right. exists b, c. repeat split; try assumption.
      * apply Hbs. left. reflexivity.
      * apply Hcs. left. reflexivity.
    + intros x Hx. apply Hcs. right. exact Hx.
Qed.

Lemma while_loop_met cs fuel p st :
  incl (pchars p) cs ->
  outcome_by (flag_met sch cs) st (while_loop sch fuel p st).
Proof.
  revert p st. induction fuel as [|fuel IH]; intros p st Hcs.
  - destruct p as [|[|? ?]|]; cbn; auto using stores_none.
  - destruct p as [|[|c text]|]; cbn [while_loop outcome_by]; auto using stores_none.
    unfold while_body. cbn [pchars] in Hcs.
    pose proof (short_optionals_met cs _ (String c text) st (incl_refl _) Hcs) as H1.
    destruct (short_optionals (OPTIONAL_ARGS sch) (String c text) st)
      as [out|p' st'|cf' st']; cbn [flow_met] in H1.
    + exact H1.
    + destruct H1 as [H1 Hp]. apply (outcome_by_trans _ _ st'); [exact H1 | apply IH, Hp].
    + destruct H1 as [H1 Hcf].
      pose proof (short_booleans_met cs _ cf' st' (incl_refl _) Hcf) as H2.
      destruct (short_booleans (BOOLEAN_ARGS sch) cf' st') as [out|p' st''|cf'' st''];
        cbn [flow_met] in H2.
      * apply (outcome_by_trans _ _ st'); assumption.
      * destruct H2 as [H2 Hp]. apply (outcome_by_trans _ _ st''); [|apply IH, Hp].
        apply (stores_by_trans _ _ st'); assumption.
      * destruct H2 as [H2 _]. cbn. apply (stores_by_trans _ _ st'); assumption.
Qed.

Lemma long_optionals_met os tok next st :
  incl os (OPTIONAL_ARGS sch) ->
  match long_optionals os tok next st with
  | Some s => step_by (option_met sch [tok]) st s
  | None => True
  end.
Proof.
  induction os as [|o os IH]; intros Hos; [exact I|].
  cbn [long_optionals].
  assert (Hos' : incl os (OPTIONAL_ARGS sch)) by (intros x Hx; apply Hos; right; exact Hx).
  destruct (o_longopt o) as [l|] eqn:Hl; [|apply IH, Hos'].
  unfold GENERATE_LONG_OPT.
  destruct (String.eqb_spec tok (dashdash l)) as [->|Hne]; [|apply IH, Hos'].
  destruct next as [text|]; [|apply stores_none].
  assert (HP : forall v, option_met sch [dashdash l] (o_name o) v).
  { intros v. left. exists o, (dashdash l). repeat split.
    - apply Hos. left. reflexivity.
    - left. reflexivity.
    - left. exists l. split; [exact Hl | reflexivity]. }
  pose proof (stores_by_call _ (o_parser o) (o_name o) text st HP) as Hc.
  destruct (call (o_parser o) (o_name o) text st) as [[error p] st'].
  cbn [snd] in Hc.
  destruct (negb (error =? 0)); [exact Hc|].
  destruct p as [|[|? ?]|]; cbn; auto.
Qed.

Lemma long_booleans_met bs tok st :
  incl bs (BOOLEAN_ARGS sch) ->
  match long_booleans bs tok st with
  | Some s => step_by (option_met sch [tok]) st s
  | None => True
  end.
Proof.
  induction bs as [|b bs IH]; intros Hbs; [exact I|].
  cbn [long_booleans].
  assert (Hbs' : incl bs (BOOLEAN_ARGS sch)) by (intros x Hx; apply Hbs; right; exact Hx).
  destruct (b_longopt b) as [l|] eqn:Hl; [|apply IH, Hbs'].
  unfold GENERATE_LONG_BOOL.
  destruct (String.eqb_spec tok (dashdash l)) as [->|Hne]; [|apply IH, Hbs'].
  cbn. apply stores_store; [apply stores_none|].
  right. exists b, (dashdash l). repeat split.
  - apply Hbs. left. reflexivity.
  - left. reflexivity.
  - left. exists l. split; [exact Hl | reflexivity].
Qed.

Lemma flag_met_option_met cf name v :
  flag_met sch (list_ascii_of_string cf) name v ->
  option_met sch [String "-" cf] name v.
Proof.
  intros [(o & c & Hin & Hn & Hc & Hcs)|(b & c & Hin & Hn & Hc & Hcs)].
  - left. exists o, (String "-" cf). repeat split; try assumption; [left; reflexivity|].
    right. exists c, cf. repeat split; assumption.
  - right. exists b, (String "-" cf). repeat split; try assumption; [left; reflexivity|].
    right. exists c, cf. repeat split; assumption.
Qed.

Lemma for_body_met tok next st :
  step_by (option_met sch [tok]) st (for_body sch tok next st).
Proof.
  unfold for_body.
  pose proof (long_optionals_met _ tok next st (incl_refl _)) as H1.
  destruct (long_optionals (OPTIONAL_ARGS sch) tok next st) as [s|]; [exact H1|].
  pose proof (long_booleans_met _ tok st (incl_refl _)) as H2.
  destruct (long_booleans (BOOLEAN_ARGS sch) tok st) as [s|]; [exact H2|].
  destruct tok as [|c0 cf]; [apply stores_none|].
  pose proof (while_loop_met (list_ascii_of_string cf) (String.length cf) (PAt cf) st
                (incl_refl _)) as H3.
  fold (scan_cluster sch cf st) in H3.
  destruct c0 as [[] [] [] [] [] [] [] []]; try apply stores_none.
  apply (outcome_by_weaken _ _ _ _ (flag_met_option_met cf)) in H3.
  destruct (scan_cluster sch cf st); exact H3.
Qed.

Lemma option_met_incl toks toks' name v :
  incl toks toks' -> option_met sch toks name v -> option_met sch toks' name v.
Proof.
  intros Hsub [(o & tok & Hin & Hn & Htok & Hnames)|(b & tok & Hin & Hn & Htok & Hnames)].
  - left. exists o, tok. repeat split; auto.
  - right. exists b, tok. repeat split; auto.
Qed.

Lemma for_loop_met toks st : outcome_by (option_met sch toks) st (for_loop sch toks st).
Proof.
  remember (List.length toks) as n eqn:Hn.
  assert (Hle : (List.length toks <= n)%nat) by lia. clear Hn.
  revert toks st Hle. induction n as [|n IH]; intros toks st Hle.
  - destruct toks; [apply stores_none | cbn in Hle; lia].
  - destruct toks as [|tok rest]; [apply stores_none|].
    cbn [for_loop]. cbn [List.length] in Hle.
    assert (Hhd : forall name v,
              option_met sch [tok] name v -> option_met sch (tok :: rest) name v).
    { intros name v. apply option_met_incl. intros x [<-|[]]. left. reflexivity. }
    assert (Htl : forall name v,
              option_met sch rest name v -> option_met sch (tok :: rest) name v).
    { intros name v. apply option_met_incl, incl_tl, incl_refl. }
    pose proof (step_by_weaken _ _ _ _ Hhd (for_body_met tok (head rest) st)) as Hb.
    destruct (for_body sch tok (head rest) st) as [out|st'|st']; [exact Hb| |].
    + apply (outcome_by_trans _ _ st'); [exact Hb|].
      apply (outcome_by_weaken _ _ _ _ Htl), IH. lia.
    + destruct rest as [|v rest']; [exact Hb|].
      apply (outcome_by_trans _ _ st'); [exact Hb|].
      apply (outcome_by_weaken (option_met sch rest')).
      * intros name v0. apply option_met_incl, incl_tl, incl_tl, incl_refl.
      * apply IH. cbn in Hle. lia.
Qed.

Lemma required_loop_stores (P : string -> value -> Prop) rs argv i st :
  Forall (fun r => forall v, P (r_name r) v) rs ->
  outcome_by P st (required_loop rs argv i st).
Proof.
  intros Hall. revert i st.
  induction Hall as [|r rs Hr Hall IH]; intros i st; [apply stores_none|].
  cbn [required_loop].
  destruct (argv !! i) as [text|]; [|exact I].
  pose proof (stores_by_call _ (r_parser r) (r_name r) text st Hr) as Hc.
  destruct (call (r_parser r) (r_name r) text st) as [[error p] st'].
  cbn [snd] in Hc.
  destruct (error =? 0); [|exact Hc].
  apply (outcome_by_trans _ _ st'); [exact Hc | apply IH].
Qed.

(** Every store of a pass is to a required field, or to the field of an
    option that one of the tokens after the required ones names. *)
Lemma parse_args_stores argv st :
  outcome_by (pass_store sch argv) st (parse_args sch argv st).
Proof.
  unfold parse_args.
  destruct (List.length argv =? 0)%nat; [apply stores_none|].
  destruct (List.length argv <? 1 + REQUIRED_ARG_COUNT sch)%nat; [apply stores_none|].
  assert (Hreq : Forall (fun r => forall v, pass_store sch argv (r_name r) v)
                   (REQUIRED_ARGS sch)).
  { apply List.Forall_forall. intros r Hr v. left. apply in_map, Hr. }
  pose proof (required_loop_stores _ _ argv 1 st Hreq) as H1.
  destruct (required_loop (REQUIRED_ARGS sch) argv 1 st) as [st1| | |]; try exact H1.
  apply (outcome_by_trans _ _ st1); [exact H1|].
  apply (outcome_by_weaken (option_met sch (drop (1 + REQUIRED_ARG_COUNT sch) argv)));
    [|apply for_loop_met].
  intros name v H. right. exact H.
Qed.

Lemma map_NoDup_inj {A} (f : A -> string) (l : list A) x y :
  List.NoDup (map f l) -> In x l -> In y l -> f x = f y -> x = y.
Proof.
  induction l as [|a l IH]; intros Hnd Hx Hy Hf; [destruct Hx|].
  cbn [map] in Hnd. inversion Hnd as [|? ? Hnot Hnd']; subst.
  destruct Hx as [<-|Hx], Hy as [<-|Hy]; auto.
  - exfalso. apply Hnot. rewrite Hf. apply in_map, Hy.
  - exfalso. apply Hnot. rewrite <- Hf. apply in_map, Hx.
Qed.

(** If a pass stored to the field of an optional or boolean descriptor,
    some token after the required ones names the option of that
    descriptor. *)
Lemma written_option_named argv st st' :
  NoDup (field_names sch) ->
  final_state (parse_args sch argv st) = Some st' ->
  exists l,
    writes st' = (writes st ++ l)%list
    /\ (forall name, ~ In name l -> fields st' !! name = fields st !! name)
    /\ (forall o, In o (OPTIONAL_ARGS sch) -> In (o_name o) l ->
          exists tok, In tok (drop (1 + REQUIRED_ARG_COUNT sch) argv)
                      /\ names_option (o_shortopt o) (o_longopt o) tok)
    /\ (forall b, In b (BOOLEAN_ARGS sch) -> In (b_name b) l ->
          exists tok, In tok (drop (1 + REQUIRED_ARG_COUNT sch) argv)
                      /\ names_option (b_shortopt b) (b_longopt b) tok).
Proof.
  intros Hnd Hfin.
  assert (Hby : stores_by (pass_store sch argv) st st').
  { pose proof (parse_args_stores argv st) as H.
    destruct (parse_args sch argv st); cbn in *; try discriminate;
      injection Hfin as <-; exact H. }
  destruct (stores_by_log _ _ _ Hby) as (l & Hl & Hout & Hin).
  destruct (field_names_split sch Hnd) as (_ & Ho & Hb & Hro & Hob).
  exists l. split; [exact Hl|]. split; [exact Hout|]. split.
  - intros o Hino Hlog. destruct (Hin _ Hlog) as (v & _ & [Hr|Hmet]).
    + destruct (Hro _ Hr) as [Hx _]. exfalso. apply Hx, in_map, Hino.
    + destruct Hmet as [(o' & tok & Hin' & Hn & Htok & Hnames)
                       |(b & tok & Hin' & Hn & Htok & Hnames)].
      * rewrite (map_NoDup_inj o_name _ o' o Ho Hin' Hino Hn) in Hnames.
        exists tok. split; assumption.
      * exfalso. apply (Hob (o_name o)); [apply in_map, Hino|].
        rewrite <- Hn. apply in_map, Hin'.
  - intros b Hinb Hlog. destruct (Hin _ Hlog) as (v & _ & [Hr|Hmet]).
    + destruct (Hro _ Hr) as [_ Hx]. exfalso. apply Hx, in_map, Hinb.
    + destruct Hmet as [(o & tok & Hin' & Hn & Htok & Hnames)
                       |(b' & tok & Hin' & Hn & Htok & Hnames)].
      * exfalso. apply (Hob (b_name b)); [|apply in_map, Hinb].
        rewrite <- Hn. apply in_map, Hin'.
      * rewrite (map_NoDup_inj b_name _ b' b Hb Hin' Hinb Hn) in Hnames.
        exists tok. split; assumption.
Qed.

End Met.

(** C8, as the engine has it: on every successful parse the field of each
    required descriptor is stored to exactly once (first conjunct). The
    field of an optional or boolean descriptor is not stored to when the
    vector ends with the required arguments (second conjunct). The stores
    of a pass are those of the required fields, in declaration order,
    followed by stores to optional and boolean fields only (third
    conjunct). The field of an optional descriptor is stored to only if
    some token after the required ones names its option, that is, the
    token is the long form of the option or it starts with - and has the
    short character of the option after it (fourth conjunct); and so for
    the field of a boolean descriptor (fifth conjunct). *)
Theorem required_fields_written_once (sch : schema) (argv : list string)
    (st st' : state) :
  NoDup (field_names sch) ->
  writes st = [] ->
  parse_args sch argv st = Ok st' ->
  (forall r, In r (REQUIRED_ARGS sch) -> times_written (r_name r) st' = 1%nat)
  /\ (List.length argv = (1 + REQUIRED_ARG_COUNT sch)%nat ->
      forall name, In name (option_names sch) -> times_written name st' = 0%nat)
  /\ (exists l,
        writes st' = (map r_name (REQUIRED_ARGS sch) ++ l)%list
        /\ Forall (fun name => In name (option_names sch)) l)
  /\ (forall o, In o (OPTIONAL_ARGS sch) ->
        times_written (o_name o) st' <> 0%nat ->
        exists tok, In tok (drop (1 + REQUIRED_ARG_COUNT sch) argv)
                    /\ names_option (o_shortopt o) (o_longopt o) tok)
  /\ (forall b, In b (BOOLEAN_ARGS sch) ->
        times_written (b_name b) st' <> 0%nat ->
        exists tok, In tok (drop (1 + REQUIRED_ARG_COUNT sch) argv)
                    /\ names_option (b_shortopt b) (b_longopt b) tok).
Proof.
  intros Hnd Hw Hrun.
  assert (Hfin : final_state (parse_args sch argv st) = Some st') by (rewrite Hrun; reflexivity).
  destruct (written_option_named sch argv st st' Hnd Hfin) as (l' & Hl' & _ & Hopt & Hbool).
  rewrite Hw in Hl'. cbn [app] in Hl'.
  destruct (parse_args_writes sch argv st st' Hrun) as (l & Hl & Hnil & Hall).
  rewrite Hw in Hl. cbn [app] in Hl.
  change (field_names sch)
    with (map r_name (REQUIRED_ARGS sch) ++ option_names sch)%list in Hnd.
  apply NoDup_app in Hnd as (Hreq & Hdisj & _).
  apply NoDup_ListNoDup in Hreq.
  unfold times_written. split; [|split; [|split; [|split]]].
  - rewrite Hl. intros r Hr. rewrite count_occ_app.
    assert (Hin : In (r_name r) (map r_name (REQUIRED_ARGS sch))) by (apply in_map, Hr).
    rewrite (proj1 (List.NoDup_count_occ' String.string_dec _) Hreq _ Hin).
    assert (Hout : ~ In (r_name r) l).
    { intros Hinl. rewrite List.Forall_forall in Hall.
      apply (Hdisj (r_name r)); apply list_elem_of_In; auto. }
    apply (count_occ_not_In String.string_dec) in Hout. rewrite Hout. reflexivity.
  - rewrite Hl. intros Hlen name Hname. rewrite (Hnil Hlen), app_nil_r.
    apply count_occ_not_In. intros Hin.
    apply (Hdisj name); apply list_elem_of_In; assumption.
  - exists l. split; [exact Hl | exact Hall].
  - intros o Hin Hcount. apply (Hopt o Hin). rewrite <- Hl'.
    apply (count_occ_In String.string_dec). lia.
  - intros b Hin Hcount. apply (Hbool b Hin). rewrite <- Hl'.
    apply (count_occ_In String.string_dec). lia.
Qed.

Lemma required_fields_written_once_witness :
  let sch := Examples.file_processor glibc in
  let argv := ["prog"; "in.txt"; "out.txt"; "-t4"] in
  let st' := store "threads" (VInt 4)
               (store "output_file" (VStr "out.txt")
                  (store "input_file" (VStr "in.txt") (fresh sch))) in
  NoDup (field_names sch)
  /\ writes (fresh sch) = []
  /\ parse_args sch argv (fresh sch) = Ok st'
  /\ (forall r, In r (REQUIRED_ARGS sch) -> times_written (r_name r) st' = 1%nat)
  /\ (times_written "threads" st' <> 0%nat ->
      exists tok, In tok ["-t4"] /\ names_option (Some "t"%char) (Some "threads") tok).
Proof.
  assert (Hw : writes (fresh (Examples.file_processor glibc)) = []) by reflexivity.
  assert (Hrun : parse_args (Examples.file_processor glibc)
                   ["prog"; "in.txt"; "out.txt"; "-t4"]
                   (fresh (Examples.file_processor glibc))
                 = Ok (store "threads" (VInt 4)
                         (store "output_file" (VStr "out.txt")
                            (store "input_file" (VStr "in.txt")
                               (fresh (Examples.file_processor glibc))))))
    by (vm_compute; reflexivity).
  pose proof (required_fields_written_once _ _ _ _ (file_processor_names glibc) Hw Hrun)
    as (H1 & _ & _ & H4 & _).
  split; [apply file_processor_names|]. split; [exact Hw|]. split; [exact Hrun|].
  split; [exact H1|].
  exact (H4 (Examples.threads glibc) (or_introl eq_refl)).
Defined.

(** An optional or boolean field whose option no token after the required
    ones names is never stored to and holds its default when [parse_args]
    returns, with 0 or with 1: the default of the descriptor for an
    optional field, false for a boolean one. *)
Theorem unnamed_option_keeps_default (sch : schema) (argv : list string) (st' : state) :
  NoDup (field_names sch) ->
  final_state (parse sch argv) = Some st' ->
  (forall o, In o (OPTIONAL_ARGS sch) ->
     (forall tok, In tok (drop (1 + REQUIRED_ARG_COUNT sch) argv) ->
                  ~ names_option (o_shortopt o) (o_longopt o) tok) ->
     times_written (o_name o) st' = 0%nat
     /\ fields st' !! o_name o = Some (o_default o))
  /\ (forall b, In b (BOOLEAN_ARGS sch) ->
        (forall tok, In tok (drop (1 + REQUIRED_ARG_COUNT sch) argv) ->
                     ~ names_option (b_shortopt b) (b_longopt b) tok) ->
        times_written (b_name b) st' = 0%nat
        /\ fields st' !! b_name b = Some (VBool false)).
Proof.
  intros Hnd Hfin. unfold parse in Hfin.
  destruct (written_option_named sch argv _ st' Hnd Hfin) as (l & Hl & Hout & Hopt & Hbool).
  cbn [fresh writes app] in Hl.
  destruct (default_fields sch Hnd) as (_ & Hdo & Hdb & _).
  unfold times_written. rewrite Hl. split.
  - intros o Hin Hno.
    assert (Hnot : ~ In (o_name o) l).
    { intros Hlog. destruct (Hopt o Hin Hlog) as (tok & Htok & Hnames).
      exact (Hno tok Htok Hnames). }
    split; [apply count_occ_not_In, Hnot|].
    rewrite (Hout _ Hnot). apply Hdo, Hin.
  - intros b Hin Hno.
    assert (Hnot : ~ In (b_name b) l).
    { intros Hlog. destruct (Hbool b Hin Hlog) as (tok & Htok & Hnames).
      exact (Hno tok Htok Hnames). }
    split; [apply count_occ_not_In, Hnot|].
    rewrite (Hout _ Hnot). apply Hdb, Hin.
Qed.

Lemma unnamed_option_keeps_default_witness :
  let sch := Examples.file_processor glibc in
  let argv := ["prog"; "in.txt"; "out.txt"; "-h"] in
  let st' := store "help" (VBool true)
               (store "output_file" (VStr "out.txt")
                  (store "input_file" (VStr "in.txt") (fresh sch))) in
  NoDup (field_names sch)
  /\ final_state (parse sch argv) = Some st'
  /\ (forall tok, In tok ["-h"] -> ~ names_option (Some "t"%char) (Some "threads") tok)
  /\ times_written "threads" st' = 0%nat
  /\ fields st' !! "threads" = Some (VInt 1).
Proof.
  set (sch := Examples.file_processor glibc).
  set (st' := store "help" (VBool true)
                (store "output_file" (VStr "out.txt")
                   (store "input_file" (VStr "in.txt") (fresh sch)))).
  assert (Hfin : final_state (parse sch ["prog"; "in.txt"; "out.txt"; "-h"]) = Some st')
    by (vm_compute; reflexivity).
  assert (Hno : forall tok, In tok ["-h"] ->
                  ~ names_option (Some "t"%char) (Some "threads") tok).
  { intros tok [<-|[]] [(l & Hl & Heq)|(c & cf & Hc & Heq & Hin)].
    - discriminate Heq.
    - injection Hc as <-. injection Heq as <-. destruct Hin as [H|[]]. discriminate H. }
  split; [apply file_processor_names|]. split; [exact Hfin|]. split; [exact Hno|].
  exact (proj1 (unnamed_option_keeps_default sch _ st' (file_processor_names glibc) Hfin)
           (Examples.threads glibc) (or_introl eq_refl) Hno).
Defined.

(** * Required numbers with trailing characters

    The subject sequence that the strto* family reads is white space, an
    optional sign and decimal digits; the required phase passes NULL for
    the advance output, so nothing looks at what follows the digits. *)








